(** * Peloton scheduling core: a shallow embedding of the Go sources

    The development follows the packages of the repository:
    - [Scalar]    : resmgr/scalar/resources.go (four-dimensional float64 vectors),
    - [Recovery]  : common/recovery/recovery.go (batched job recovery),
    - [Lifecycle] : the v1 lifecycle manager ([v1LifecycleMgr.Kill]),
    - [Respool]   : the resource-pool tree ([tree.Upsert], [tree.Delete], ...),
    - [Placement] : the task service of the placement engine,
    - [Goalstate] : the goal-state actions of a preempted task,
    - [Cassandra] : the connector of the object store.

    Go's [float64] is IEEE 754 binary64, which is exactly Rocq's primitive
    [float]; [uint32] is a [Z] reduced modulo [2^32]. *)

From Stdlib Require Import ZArith Lia List Floats String Ascii Bool.
From stdpp Require Import gmap strings list.

#[local] Set Warnings "-inexact-float".

(* ===================================================================== *)
(** * resmgr/scalar: resource vectors and allocations                     *)
(* ===================================================================== *)

Module Scalar.

#[local] Open Scope float_scope.

(** Modelled from the spec: [util.ResourceEpsilon] is declared in package
    [util], which is not among the sources; the specification gives the
    value 1e-9. *)
Definition ResourceEpsilon : float := 1e-9.

(** [type Resources struct { CPU, MEMORY, DISK, GPU float64 }] *)
Record Resources : Set := mkResources {
  CPU : float;
  MEMORY : float;
  DISK : float;
  GPU : float
}.

(** The four dimensions, used to quantify over the fields of a vector. *)
Inductive Dim : Set := dCPU | dMEMORY | dDISK | dGPU.

Definition get (d : Dim) (r : Resources) : float :=
  match d with
  | dCPU => CPU r
  | dMEMORY => MEMORY r
  | dDISK => DISK r
  | dGPU => GPU r
  end.

(** [var ZeroResource = &Resources{0, 0, 0, 0}] *)
Definition ZeroResource : Resources := mkResources 0 0 0 0.

(** [func (r *Resources) Add(other *Resources) *Resources] *)
Definition Add (r other : Resources) : Resources :=
  mkResources (CPU r + CPU other) (MEMORY r + MEMORY other)
              (DISK r + DISK other) (GPU r + GPU other).

(** [func lessThanOrEqual(f1, f2 float64) bool] *)
Definition lessThanOrEqual (f1 f2 : float) : bool :=
  let v := f1 - f2 in
  if abs v <? ResourceEpsilon then true else v <? 0.

(** [func (r *Resources) LessThanOrEqual(other *Resources) bool] *)
Definition LessThanOrEqual (r other : Resources) : bool :=
  lessThanOrEqual (CPU r) (CPU other) &&
  lessThanOrEqual (MEMORY r) (MEMORY other) &&
  lessThanOrEqual (DISK r) (DISK other) &&
  lessThanOrEqual (GPU r) (GPU other).

(** [func equal(f1, f2 float64) bool { return f1 == f2 }] *)
Definition equal (f1 f2 : float) : bool := f1 =? f2.

(** [func (r *Resources) Equal(other *Resources) bool] *)
Definition Equal (r other : Resources) : bool :=
  equal (CPU r) (CPU other) &&
  equal (MEMORY r) (MEMORY other) &&
  equal (DISK r) (DISK other) &&
  equal (GPU r) (GPU other).

(** One dimension of [Resources.Subtract]: the four blocks of the source
    are the same code on the four fields. *)
Definition subtract1 (x y : float) : float :=
  if x <? y then 0
  else
    let d := x - y in
    if d <? ResourceEpsilon then 0 else d.

(** [func (r *Resources) Subtract(other *Resources) *Resources] *)
Definition Subtract (r other : Resources) : Resources :=
  mkResources (subtract1 (CPU r) (CPU other))
              (subtract1 (MEMORY r) (MEMORY other))
              (subtract1 (DISK r) (DISK other))
              (subtract1 (GPU r) (GPU other)).

(** [task.ResourceConfig]: the limits a task asks for. *)
Record ResourceConfig : Set := mkResourceConfig {
  CpuLimit : float;
  MemLimitMb : float;
  DiskLimitMb : float;
  GpuLimit : float
}.

(** [resmgr.TaskType] *)
Inductive TaskType : Set :=
  | TaskType_UNKNOWN | TaskType_BATCH | TaskType_STATELESS
  | TaskType_DAEMON | TaskType_STATEFUL | TaskType_CONTROLLER.

Definition TaskType_eqb (a b : TaskType) : bool :=
  match a, b with
  | TaskType_UNKNOWN, TaskType_UNKNOWN
  | TaskType_BATCH, TaskType_BATCH
  | TaskType_STATELESS, TaskType_STATELESS
  | TaskType_DAEMON, TaskType_DAEMON
  | TaskType_STATEFUL, TaskType_STATEFUL
  | TaskType_CONTROLLER, TaskType_CONTROLLER => true
  | _, _ => false
  end.

(** [resmgr.Task], restricted to the fields the allocation code reads.
    [Resource] is a pointer; the generated getters return 0 on nil. *)
Record Task : Set := mkTask {
  Resource : option ResourceConfig;
  Preemptible : bool;
  Type_ : TaskType
}.

(** [resmgrsvc.Gang]: the tasks of a gang, in order. *)
Definition Gang : Set := list Task.

(** [func ConvertToResmgrResource(resource *task.ResourceConfig) *Resources] *)
Definition ConvertToResmgrResource (resource : option ResourceConfig) : Resources :=
  match resource with
  | Some c => mkResources (CpuLimit c) (MemLimitMb c) (DiskLimitMb c) (GpuLimit c)
  | None => mkResources 0 0 0 0
  end.

(** [type AllocationType int] *)
Inductive AllocationType : Set :=
  | NonPreemptibleAllocation
  | PreemptibleAllocation
  | ControllerAllocation
  | TotalAllocation.

Definition AllocationType_eqb (a b : AllocationType) : bool :=
  match a, b with
  | NonPreemptibleAllocation, NonPreemptibleAllocation
  | PreemptibleAllocation, PreemptibleAllocation
  | ControllerAllocation, ControllerAllocation
  | TotalAllocation, TotalAllocation => true
  | _, _ => false
  end.

(** [type Allocation struct { Value map[AllocationType]*Resources }].
    Every allocation of the package starts as [initializeZeroAlloc] and is
    only written at the four kinds, so the map always holds exactly those
    four keys: it is a total function on [AllocationType]. *)
Definition Allocation : Set := AllocationType -> Resources.

(** [a.Value[t] = r] *)
Definition setValue (a : Allocation) (t : AllocationType) (r : Resources) : Allocation :=
  fun t' => if AllocationType_eqb t t' then r else a t'.

(** [func (a *Allocation) GetByType(allocationType AllocationType) *Resources] *)
Definition GetByType (a : Allocation) (t : AllocationType) : Resources := a t.

(** [func initializeZeroAlloc() *Allocation] *)
Definition initializeZeroAlloc : Allocation := fun _ => ZeroResource.

(** [func (a *Allocation) Add(other *Allocation) *Allocation] *)
Definition AllocationAdd (a other : Allocation) : Allocation :=
  fun t => Add (a t) (other t).

(** [func GetTaskAllocation(rmTask *resmgr.Task) *Allocation] *)
Definition GetTaskAllocation (rmTask : Task) : Allocation :=
  let alloc := initializeZeroAlloc in
  let taskResource := ConvertToResmgrResource (Resource rmTask) in
  let alloc :=
    if Preemptible rmTask
    then setValue alloc PreemptibleAllocation taskResource
    else setValue alloc NonPreemptibleAllocation taskResource in
  let alloc :=
    if TaskType_eqb (Type_ rmTask) TaskType_CONTROLLER
    then setValue alloc ControllerAllocation taskResource
    else alloc in
  setValue alloc TotalAllocation taskResource.

(** [func GetGangAllocation(gang *resmgrsvc.Gang) *Allocation]: the loop
    is a left fold over the tasks of the gang. *)
Definition GetGangAllocation (gang : Gang) : Allocation :=
  fold_left (fun gangAllocation task => AllocationAdd gangAllocation (GetTaskAllocation task))
            gang initializeZeroAlloc.


(* --------------------------------------------------------------------- *)
(** ** IEEE 754 facts used below

    The primitive operations are related to their specification on
    [spec_float] by the standard library ([add_spec], [sub_spec],
    [ltb_spec], ...); the lemmas of this part are proved on the
    specification and transported back. *)
(* --------------------------------------------------------------------- *)

Section SpecFloatFacts.

#[local] Open Scope Z_scope.

Lemma SFeqb_refl x : x <> S754_nan -> SFeqb x x = true.
Proof.
  destruct x as [s|s| |s m e]; intros H; try congruence; unfold SFeqb; simpl.
  - reflexivity.
  - destruct s; reflexivity.
  - destruct s; rewrite Z.compare_refl; fold (Pos.compare m m); rewrite Pos.compare_refl; reflexivity.
Qed.

Lemma SFcompare_antisym X Y :
  SFcompare Y X = option_map CompOpp (SFcompare X Y).
Proof.
  destruct X as [[]|[]| |[] mx ex], Y as [[]|[]| |[] my ey]; cbn; try reflexivity;
    rewrite (Z.compare_antisym ex ey);
    destruct (Z.compare ex ey); cbn; try reflexivity;
    fold (Pos.compare mx my); fold (Pos.compare my mx);
    rewrite (Pos.compare_antisym mx my);
    destruct (Pos.compare mx my); reflexivity.
Qed.

(** The sign classes of a specification float: zero or negative (NaN
    counts, it compares below nothing), and zero or positive. *)
Definition SFnonpos (x : spec_float) : Prop :=
  match x with
  | S754_zero _ => True
  | S754_infinity s => s = true
  | S754_nan => True
  | S754_finite s _ _ => s = true
  end.

Definition SFnonneg (x : spec_float) : Prop :=
  match x with
  | S754_zero _ => True
  | S754_infinity s | S754_finite s _ _ => s = false
  | S754_nan => False
  end.

Lemma binary_round_aux_sign sx mx ex lx :
  match binary_round_aux prec emax sx mx ex lx with
  | S754_zero s | S754_infinity s | S754_finite s _ _ => s = sx
  | S754_nan => True
  end.
Proof.
  unfold binary_round_aux.
  destruct (shr_fexp prec emax mx ex lx) as [mrs' e'].
  destruct (shr_fexp prec emax _ e' loc_Exact) as [mrs'' e''].
  destruct (shr_m mrs''); auto.
  destruct (Z.leb _ _); auto.
Qed.

Lemma binary_round_sign sx mx ex :
  match binary_round prec emax sx mx ex with
  | S754_zero s | S754_infinity s | S754_finite s _ _ => s = sx
  | S754_nan => True
  end.
Proof.
  unfold binary_round. destruct (shl_align _ _ _) as [mz ez].
  apply binary_round_aux_sign.
Qed.

(** Mantissas of valid floats: [m] has [digits2_pos m] bits, and a float
    with the larger exponent has the larger aligned mantissa. *)
Lemma digits2_pos_bounds m :
  2 ^ (Zpos (digits2_pos m) - 1) <= Zpos m < 2 ^ Zpos (digits2_pos m).
Proof.
  induction m as [p IH|p IH|]; cbn [digits2_pos].
  - rewrite Pos2Z.inj_succ, Z.pow_succ_r by lia.
    replace (Z.succ (Zpos (digits2_pos p)) - 1) with (Z.succ (Zpos (digits2_pos p) - 1)) by lia.
    rewrite Z.pow_succ_r by lia. lia.
  - rewrite Pos2Z.inj_succ, Z.pow_succ_r by lia.
    replace (Z.succ (Zpos (digits2_pos p)) - 1) with (Z.succ (Zpos (digits2_pos p) - 1)) by lia.
    rewrite Z.pow_succ_r by lia. lia.
  - cbn. lia.
Qed.

Lemma bounded_exponent m e :
  bounded prec emax m e = true ->
  e = Z.max (Zpos (digits2_pos m) + e - 53) (-1074).
Proof.
  unfold bounded, canonical_mantissa, fexp, emin, prec, emax.
  intros H. apply andb_true_iff in H as [H _]. apply Z.eqb_eq in H.
  change (3 - 1024 - 53) with (-1074) in H. lia.
Qed.

Lemma shl_align_value m e ez :
  ez <= e -> Zpos (fst (shl_align m e ez)) = Zpos m * 2 ^ (e - ez).
Proof.
  intros Hle. unfold shl_align.
  destruct (ez - e) as [|d|d] eqn:Hd; try lia.
  - replace (e - ez) with 0 by lia. cbn [fst]. lia.
  - cbn [fst]. replace (e - ez) with (Zpos d) by lia.
    change (Pos.iter xO m d) with (shift_pos d m).
    rewrite shift_pos_correct. rewrite Z.pow_pos_fold. lia.
Qed.

Lemma aligned_lt mx ex my ey :
  bounded prec emax mx ex = true -> bounded prec emax my ey = true ->
  ex < ey -> Zpos mx < Zpos my * 2 ^ (ey - ex).
Proof.
  intros Hx Hy Hlt.
  apply bounded_exponent in Hx, Hy.
  pose proof (digits2_pos_bounds mx) as [_ Hmx].
  pose proof (digits2_pos_bounds my) as [Hmy _].
  assert (Hdx : Zpos (digits2_pos mx) <= 53) by lia.
  assert (Hdy : Zpos (digits2_pos my) = 53) by lia.
  rewrite Hdy in Hmy.
  assert (H1 : 2 ^ Zpos (digits2_pos mx) <= 2 ^ 53) by (apply Z.pow_le_mono_r; lia).
  assert (H2 : 2 ^ 1 <= 2 ^ (ey - ex)) by (apply Z.pow_le_mono_r; lia).
  change (2 ^ 53) with (2 ^ (53 - 1) * 2 ^ 1) in H1.
  nia.
Qed.

(** Subtracting a larger float never gives a positive result. *)
Lemma binary_normalize_nonpos z e :
  z <= 0 -> SFnonpos (binary_normalize prec emax z e false).
Proof.
  intros Hz. destruct z as [|p|p]; cbn [binary_normalize]; try lia.
  - exact I.
  - pose proof (binary_round_sign true p e) as H.
    destruct (binary_round prec emax true p e); cbn; auto.
Qed.

Lemma SFsub_finite_nonpos sx mx ex sy my ey :
  bounded prec emax mx ex = true -> bounded prec emax my ey = true ->
  SFcompare (S754_finite sx mx ex) (S754_finite sy my ey) = Some Lt ->
  SFnonpos (SFsub prec emax (S754_finite sx mx ex) (S754_finite sy my ey)).
Proof.
  intros HX HY Hlt. cbn [SFsub].
  apply binary_normalize_nonpos.
  assert (Hmin_x : Z.min ex ey <= ex) by lia.
  assert (Hmin_y : Z.min ex ey <= ey) by lia.
  rewrite (shl_align_value mx ex _ Hmin_x), (shl_align_value my ey _ Hmin_y).
  cbn [SFcompare] in Hlt.
  destruct sx, sy; cbn [cond_Zopp]; try discriminate.
  - (* both negative *)
    destruct (Z.compare_spec ex ey) as [He|He|He]; try discriminate.
    + subst ey. rewrite Z.min_id, Z.sub_diag.
      fold (Pos.compare mx my) in Hlt.
      destruct (Pos.compare_spec mx my); try discriminate. lia.
    + pose proof (aligned_lt my ey mx ex HY HX He).
      rewrite Z.min_r by lia. rewrite Z.sub_diag. lia.
  - (* X negative, Y positive *)
    assert (0 < 2 ^ (ex - Z.min ex ey)) by (apply Z.pow_pos_nonneg; lia).
    assert (0 < 2 ^ (ey - Z.min ex ey)) by (apply Z.pow_pos_nonneg; lia).
    nia.
  - (* both positive *)
    destruct (Z.compare_spec ex ey) as [He|He|He]; try discriminate.
    + subst ey. rewrite Z.min_id, Z.sub_diag.
      fold (Pos.compare mx my) in Hlt.
      destruct (Pos.compare_spec mx my); try discriminate. lia.
    + pose proof (aligned_lt mx ex my ey HX HY He).
      rewrite Z.min_l by lia. rewrite Z.sub_diag. lia.
Qed.

Lemma SFsub_nonpos X Y :
  valid_binary X = true -> valid_binary Y = true ->
  SFltb X Y = true -> SFnonpos (SFsub prec emax X Y).
Proof.
  intros HX HY Hlt. unfold SFltb in Hlt.
  destruct (SFcompare X Y) as [[| |]|] eqn:Hc; try discriminate. clear Hlt.
  destruct X as [sx|sx| |sx mx ex], Y as [sy|sy| |sy my ey];
    try (apply SFsub_finite_nonpos; assumption);
    try discriminate;
    destruct sx; try destruct sy; cbn in Hc |- *; try discriminate; auto.
Qed.

Lemma SFleb_pos_nonpos m e r :
  SFnonpos r -> SFleb (S754_finite false m e) r = false.
Proof.
  destruct r as [sr|sr| |sr mr er]; cbn; intros H; subst; reflexivity.
Qed.

(** Rounding a non-negative mantissa gives a non-negative float, never NaN. *)
Lemma shr_1_nonneg mrs : 0 <= shr_m mrs -> 0 <= shr_m (shr_1 mrs).
Proof.
  destruct mrs as [m r s]. cbn [shr_m]. intros H.
  destruct m as [|[p|p|]|p]; cbn; lia.
Qed.

Lemma iter_pos_shr_1_nonneg n : forall mrs,
  0 <= shr_m mrs -> 0 <= shr_m (SpecFloat.iter_pos shr_1 n mrs).
Proof.
  induction n as [n IH|n IH|]; intros mrs H; cbn [SpecFloat.iter_pos].
  - apply IH, IH, shr_1_nonneg, H.
  - apply IH, IH, H.
  - apply shr_1_nonneg, H.
Qed.

Lemma shr_fexp_nonneg m e l :
  0 <= m -> 0 <= shr_m (fst (shr_fexp prec emax m e l)).
Proof.
  intros H. unfold shr_fexp, shr.
  assert (H0 : 0 <= shr_m (shr_record_of_loc m l))
    by (destruct l as [|[| |]]; exact H).
  destruct (fexp prec emax (Zdigits2 m + e) - e); cbn [fst]; auto.
  apply iter_pos_shr_1_nonneg, H0.
Qed.

Lemma round_nearest_even_nonneg m l : 0 <= m -> 0 <= round_nearest_even m l.
Proof.
  intros H. destruct l as [|[| |]]; cbn; try lia.
  destruct (Z.even m); lia.
Qed.

Lemma binary_round_aux_nonneg m e l :
  0 <= m -> SFnonneg (binary_round_aux prec emax false m e l).
Proof.
  intros H. unfold binary_round_aux.
  pose proof (shr_fexp_nonneg m e l H) as H1.
  destruct (shr_fexp prec emax m e l) as [mrs' e']. cbn [fst] in H1.
  pose proof (shr_fexp_nonneg _ e' loc_Exact
                (round_nearest_even_nonneg _ (loc_of_shr_record mrs') H1)) as H2.
  destruct (shr_fexp prec emax _ e' loc_Exact) as [mrs'' e'']. cbn [fst] in H2.
  destruct (shr_m mrs''); try lia; cbn; auto.
  destruct (_ <=? _); cbn; auto.
Qed.

Lemma binary_normalize_nonneg z e :
  0 <= z -> SFnonneg (binary_normalize prec emax z e false).
Proof.
  intros Hz. destruct z as [|p|p]; cbn [binary_normalize]; try lia.
  - exact I.
  - unfold binary_round. destruct (shl_align _ _ _) as [mz ez].
    apply binary_round_aux_nonneg. lia.
Qed.

Lemma SFadd_nonneg X Y : SFnonneg X -> SFnonneg Y -> SFnonneg (SFadd prec emax X Y).
Proof.
  destruct X as [sx|sx| |sx mx ex], Y as [sy|sy| |sy my ey];
    cbn [SFnonneg SFadd]; intros HX HY; subst; try contradiction;
    try (apply binary_normalize_nonneg; cbn [cond_Zopp]; lia);
    try (destruct sx, sy; exact I); auto; reflexivity.
Qed.

Lemma SFleb_zero_nonneg X : SFleb (S754_zero false) X = true <-> SFnonneg X.
Proof.
  destruct X as [[]|[]| |[] m e]; cbn; intuition congruence.
Qed.




End SpecFloatFacts.

(** The same facts on the primitive floats. *)
Lemma add_zero_r x : is_nan x = false -> (x + 0 =? x) = true.
Proof.
  unfold is_nan. rewrite !FloatAxioms.eqb_spec, add_spec. change (Prim2SF 0) with (S754_zero false).
  destruct (Prim2SF x) as [s|s| |s m e]; simpl; try discriminate; intros _.
  - destruct s; reflexivity.
  - destruct s; reflexivity.
  - apply SFeqb_refl. discriminate.
Qed.

Lemma add_zero_l x : is_nan x = false -> (0 + x =? x) = true.
Proof.
  unfold is_nan. rewrite !FloatAxioms.eqb_spec, add_spec. change (Prim2SF 0) with (S754_zero false).
  destruct (Prim2SF x) as [s|s| |s m e]; simpl; try discriminate; intros _.
  - destruct s; reflexivity.
  - destruct s; reflexivity.
  - apply SFeqb_refl. discriminate.
Qed.

Lemma nonneg_spec x : (0 <=? x) = true <-> SFnonneg (Prim2SF x).
Proof. rewrite leb_spec. apply SFleb_zero_nonneg. Qed.

Lemma add_nonneg x y : (0 <=? x) = true -> (0 <=? y) = true -> (0 <=? x + y) = true.
Proof.
  rewrite !nonneg_spec, add_spec. apply SFadd_nonneg.
Qed.

Lemma nonneg_not_nan x : (0 <=? x) = true -> is_nan x = false.
Proof.
  rewrite nonneg_spec. unfold is_nan. rewrite FloatAxioms.eqb_spec.
  intros H. rewrite SFeqb_refl; [reflexivity|].
  intros E; rewrite E in H; exact H.
Qed.

Lemma leb_refl x : is_nan x = false -> (x <=? x) = true.
Proof.
  unfold is_nan. rewrite FloatAxioms.eqb_spec, leb_spec.
  unfold SFeqb, SFleb. destruct (SFcompare _ _) as [[| |]|]; cbn; congruence.
Qed.

Lemma ltb_negb_leb x y :
  is_nan x = false -> is_nan y = false -> (x <? y) = negb (y <=? x).
Proof.
  unfold is_nan. rewrite !FloatAxioms.eqb_spec, ltb_spec, leb_spec.
  unfold SFeqb, SFltb, SFleb. rewrite (SFcompare_antisym (Prim2SF x) (Prim2SF y)).
  destruct (Prim2SF x) as [[]|[]| |[] mx ex]; try discriminate;
    destruct (Prim2SF y) as [[]|[]| |[] my ey]; try discriminate; intros _ _;
    try reflexivity;
    destruct (SFcompare _ _) as [[| |]|] eqn:E; try reflexivity; discriminate E.
Qed.

Lemma ltb_sub_below_epsilon x y :
  (x <? y) = true -> (ResourceEpsilon <=? x - y) = false.
Proof.
  rewrite ltb_spec, leb_spec, sub_spec. intros Hlt.
  change (Prim2SF ResourceEpsilon) with (S754_finite false 4835703278458517 (-82)).
  apply SFleb_pos_nonpos.
  apply SFsub_nonpos; auto using Prim2SF_valid.
Qed.

Lemma ltb_zero_ltb_epsilon x : (x <? ResourceEpsilon) = false -> (x <? 0) = false.
Proof.
  rewrite !ltb_spec.
  change (Prim2SF ResourceEpsilon) with (S754_finite false 4835703278458517 (-82)).
  change (Prim2SF 0) with (S754_zero false).
  destruct (Prim2SF x) as [[]|[]| |[] m e]; intros H;
    try reflexivity; discriminate H.
Qed.


(* --------------------------------------------------------------------- *)
(** ** Rounding to nearest even is monotone                               *)
(* --------------------------------------------------------------------- *)

Section RoundingFacts.

#[local] Open Scope Z_scope.

(** [V / 2 ^ k] rounded to the nearest integer, ties to even. *)
Definition rne (V k : Z) : Z :=
  let q := V / 2 ^ k in
  let r2 := 2 * (V mod 2 ^ k) in
  if r2 <? 2 ^ k then q
  else if 2 ^ k <? r2 then q + 1
  else if Z.even q then q else q + 1.

(** After [j] right shifts of [m0] the record holds the quotient, the bit
    shifted out last, and whether anything below it was set. *)
Definition shr_inv (m0 j : Z) (mrs : shr_record) : Prop :=
  0 <= shr_m mrs /\
  exists t, 0 <= t < 2 ^ j /\
    2 * m0 = (2 * shr_m mrs + Z.b2z (shr_r mrs)) * 2 ^ j + t /\
    shr_s mrs = negb (t =? 0).

Lemma shr_1_inv m0 j mrs :
  0 <= j -> shr_inv m0 j mrs -> shr_inv m0 (j + 1) (shr_1 mrs).
Proof.
  intros Hj [Hm (t & Ht & Heq & Hs)].
  destruct mrs as [m r s]. cbn [shr_m shr_r shr_s] in *.
  assert (Hpow : 2 ^ (j + 1) = 2 * 2 ^ j) by (rewrite Z.pow_add_r by lia; lia).
  assert (Hs' : (r || s)%bool = negb (Z.b2z r * 2 ^ j + t =? 0)).
  { destruct r; cbn [orb Z.b2z].
    - destruct (Z.eqb_spec (1 * 2 ^ j + t) 0); [lia | reflexivity].
    - rewrite Z.mul_0_l, Z.add_0_l. exact Hs. }
  destruct m as [|[p|p|]|p]; try lia; unfold shr_inv; cbn [shr_1 shr_m shr_r shr_s];
    (split; [lia|]); exists (Z.b2z r * 2 ^ j + t); rewrite Hpow;
    (split; [destruct r; cbn [Z.b2z]; lia|]);
    (split; [cbn [Z.b2z]; lia | exact Hs']).
Qed.

Lemma iter_pos_shr_1_inv m0 n : forall j mrs,
  0 <= j -> shr_inv m0 j mrs ->
  shr_inv m0 (j + Zpos n) (SpecFloat.iter_pos shr_1 n mrs).
Proof.
  induction n as [n IH|n IH|]; intros j mrs Hj H; cbn [SpecFloat.iter_pos].
  - replace (j + Zpos n~1) with (j + 1 + Zpos n + Zpos n) by lia.
    apply IH; [lia|]. apply IH; [lia|]. apply shr_1_inv; assumption.
  - replace (j + Zpos n~0) with (j + Zpos n + Zpos n) by lia.
    apply IH; [lia|]. apply IH; assumption.
  - apply shr_1_inv; assumption.
Qed.

(** Shifting right and rounding on the round and sticky bits is [rne]. *)
Lemma shr_round m0 n :
  0 <= m0 ->
  let mrs := SpecFloat.iter_pos shr_1 n (Build_shr_record m0 false false) in
  round_nearest_even (shr_m mrs) (loc_of_shr_record mrs) = rne m0 (Zpos n).
Proof.
  intros Hm0 mrs.
  assert (H0 : shr_inv m0 0 (Build_shr_record m0 false false)).
  { split; [exact Hm0|]. exists 0. cbn. split; [lia|]. split; [lia | reflexivity]. }
  pose proof (iter_pos_shr_1_inv m0 n 0 _ ltac:(lia) H0) as [Hm (t & Ht & Heq & Hs)].
  fold mrs in Hm, Heq, Hs. rewrite Z.add_0_l in Ht, Heq.
  destruct mrs as [m r s]. cbn [shr_m shr_r shr_s] in *.
  unfold rne. set (P := 2 ^ Zpos n) in *.
  assert (HP : 0 < P) by (apply Z.pow_pos_nonneg; lia).
  assert (Hq : m0 / P = m).
  { symmetry. apply (Z.div_unique_pos m0 P m (m0 - m * P)); destruct r; cbn [Z.b2z] in Heq; lia. }
  assert (Hr : m0 mod P = m0 - m * P).
  { symmetry. apply (Z.mod_unique_pos m0 P m (m0 - m * P)); destruct r; cbn [Z.b2z] in Heq; lia. }
  rewrite Hq, Hr. cbv zeta.
  destruct r, s; cbn [loc_of_shr_record round_nearest_even Z.b2z] in *;
    destruct (Z.eqb_spec t 0); try discriminate;
    destruct (Z.ltb_spec (2 * (m0 - m * P)) P); try lia;
    destruct (Z.ltb_spec P (2 * (m0 - m * P))); try lia; reflexivity.
Qed.

Lemma rne_scale M n j :
  0 <= n -> 0 <= j -> rne (M * 2 ^ j) (n + j) = rne M n.
Proof.
  intros Hn Hj. unfold rne.
  assert (HJ : 0 < 2 ^ j) by (apply Z.pow_pos_nonneg; lia).
  assert (HN : 0 < 2 ^ n) by (apply Z.pow_pos_nonneg; lia).
  rewrite Z.pow_add_r by lia.
  rewrite Z.div_mul_cancel_r by lia.
  rewrite Z.mul_mod_distr_r by lia.
  cbv zeta. set (r := M mod 2 ^ n). set (A := 2 ^ n) in *. set (J := 2 ^ j) in *.
  destruct (Z.ltb_spec (2 * (r * J)) (A * J)), (Z.ltb_spec (2 * r) A); try nia;
    destruct (Z.ltb_spec (A * J) (2 * (r * J))), (Z.ltb_spec A (2 * r)); try nia;
    reflexivity.
Qed.

Lemma rne_exact M j : 0 <= j -> rne (M * 2 ^ j) j = M.
Proof.
  intros Hj. change j with (0 + j) at 2. rewrite rne_scale by lia.
  unfold rne. rewrite Z.pow_0_r, Z.div_1_r, Z.mod_1_r. reflexivity.
Qed.

Lemma rne_bounds V k q :
  0 <= k -> q * 2 ^ k <= V < (q + 1) * 2 ^ k -> q <= rne V k <= q + 1.
Proof.
  intros Hk [Hlo Hhi].
  assert (HK : 0 < 2 ^ k) by (apply Z.pow_pos_nonneg; lia).
  assert (E : V / 2 ^ k = q).
  { symmetry. apply (Z.div_unique_pos V (2 ^ k) q (V - q * 2 ^ k)); lia. }
  unfold rne. rewrite E. cbv zeta.
  destruct (_ <? _); [lia|]. destruct (_ <? _); [lia|]. destruct (Z.even q); lia.
Qed.

Lemma rne_mono V1 V2 k :
  0 <= k -> V1 <= V2 -> rne V1 k <= rne V2 k.
Proof.
  intros Hk Hle.
  assert (HK : 0 < 2 ^ k) by (apply Z.pow_pos_nonneg; lia).
  pose proof (Z.div_mod V1 (2 ^ k) ltac:(lia)) as E1.
  pose proof (Z.div_mod V2 (2 ^ k) ltac:(lia)) as E2.
  pose proof (Z.mod_pos_bound V1 (2 ^ k) HK) as B1.
  pose proof (Z.mod_pos_bound V2 (2 ^ k) HK) as B2.
  pose proof (Z.div_le_mono V1 V2 (2 ^ k) HK Hle) as Hq.
  unfold rne. cbv zeta.
  set (q1 := V1 / 2 ^ k) in *. set (q2 := V2 / 2 ^ k) in *.
  set (r1 := V1 mod 2 ^ k) in *. set (r2 := V2 mod 2 ^ k) in *.
  set (K := 2 ^ k) in *.
  destruct (Z.eq_dec q1 q2) as [Heq|Hne].
  - rewrite <- Heq in *. assert (r1 <= r2) by lia.
    destruct (Z.ltb_spec (2 * r1) K), (Z.ltb_spec (2 * r2) K); try lia;
      destruct (Z.ltb_spec K (2 * r1)), (Z.ltb_spec K (2 * r2)); try lia;
      destruct (Z.even q1); lia.
  - assert (q1 + 1 <= q2) by lia.
    destruct (_ <? _); [|destruct (_ <? _); [|destruct (Z.even q1)]];
      (destruct (_ <? _); [|destruct (_ <? _); [|destruct (Z.even q2)]]); lia.
Qed.

(** The float a positive value [V], counted in units of [2 ^ -1074], is
    rounded to: mantissa and exponent.  Values below [2 ^ 53] are
    representable as they are. *)
Definition rpair (V : Z) : Z * Z :=
  let D := Z.log2 V + 1 in
  if D <=? 53 then (V, -1074)
  else
    let k := D - 53 in
    let m := rne V k in
    if m =? 2 ^ 53 then (2 ^ 52, k + 1 - 1074) else (m, k - 1074).

Definition pack (p : Z * Z) : spec_float :=
  match fst p with
  | Z0 => S754_zero false
  | Zpos m =>
      if snd p <=? emax - prec then S754_finite false m (snd p)
      else S754_infinity false
  | Zneg _ => S754_nan
  end.

Definition val (m : positive) (e : Z) : Z := Zpos m * 2 ^ (e + 1074).

Lemma digits2_log2 m : Zpos (digits2_pos m) = Z.log2 (Zpos m) + 1.
Proof.
  pose proof (digits2_pos_bounds m) as [Hlo Hhi].
  rewrite (Z.log2_unique (Zpos m) (Zpos (digits2_pos m) - 1)); [lia | lia |].
  split; [exact Hlo|]. replace (Z.succ (Zpos (digits2_pos m) - 1)) with (Zpos (digits2_pos m)) by lia.
  exact Hhi.
Qed.

Lemma log2_val m e : -1074 <= e -> Z.log2 (val m e) + 1 = Zpos (digits2_pos m) + e + 1074.
Proof.
  intros He. unfold val. rewrite Z.log2_mul_pow2 by lia. rewrite digits2_log2. lia.
Qed.

Lemma rne_53_digits V :
  53 < Z.log2 V + 1 ->
  2 ^ 52 <= rne V (Z.log2 V + 1 - 53) <= 2 ^ 53.
Proof.
  intros HD.
  assert (HV : 0 < V).
  { destruct V as [|p|p]; cbn in HD; lia. }
  pose proof (Z.log2_spec V HV) as [Hlo Hhi].
  set (k := Z.log2 V + 1 - 53) in *.
  assert (HK : 0 < 2 ^ k) by (apply Z.pow_pos_nonneg; lia).
  replace (Z.log2 V) with (52 + k) in Hlo by lia.
  replace (Z.succ (Z.log2 V)) with (53 + k) in Hhi by lia.
  rewrite Z.pow_add_r in Hlo, Hhi by lia.
  pose proof (Z.div_mod V (2 ^ k) ltac:(lia)) as E.
  pose proof (Z.mod_pos_bound V (2 ^ k) HK) as B.
  pose proof (rne_bounds V k (V / 2 ^ k) ltac:(lia) ltac:(lia)) as Hr.
  assert (2 ^ 52 <= V / 2 ^ k) by (apply Z.div_le_lower_bound; lia).
  assert (V / 2 ^ k < 2 ^ 53) by (apply Z.div_lt_upper_bound; lia).
  lia.
Qed.


Lemma digits2_unique p D :
  2 ^ (D - 1) <= Zpos p < 2 ^ D -> Zpos (digits2_pos p) = D.
Proof.
  intros [Hlo Hhi]. pose proof (digits2_pos_bounds p) as [Hlo' Hhi'].
  destruct (Z.lt_trichotomy (Zpos (digits2_pos p)) D) as [H|[H|H]]; [|exact H|].
  - pose proof (Z.pow_le_mono_r 2 (Zpos (digits2_pos p)) (D - 1) ltac:(lia) ltac:(lia)). lia.
  - pose proof (Z.pow_le_mono_r 2 D (Zpos (digits2_pos p) - 1) ltac:(lia) ltac:(lia)). lia.
Qed.

Lemma fexp_64 e : fexp prec emax e = Z.max (e - 53) (-1074).
Proof. reflexivity. Qed.

Lemma shl_align_snd m e ez : ez <= e -> snd (shl_align m e ez) = ez.
Proof. intros H. unfold shl_align. destruct (ez - e) eqn:E; cbn [snd]; lia. Qed.

Lemma shl_align_id m e ez : e < ez -> shl_align m e ez = (m, e).
Proof. intros H. unfold shl_align. destruct (ez - e) eqn:E; try reflexivity; lia. Qed.

(** A mantissa that already sits at its canonical exponent is kept. *)
Lemma binary_round_aux_exact mz fe :
  fexp prec emax (Zpos (digits2_pos mz) + fe) = fe ->
  binary_round_aux prec emax false (Zpos mz) fe loc_Exact = pack (Zpos mz, fe).
Proof.
  intros H. unfold binary_round_aux, shr_fexp. cbn [Zdigits2].
  rewrite H, Z.sub_diag. cbn [shr shr_record_of_loc shr_m loc_of_shr_record round_nearest_even Zdigits2].
  rewrite H, Z.sub_diag. cbn [shr shr_record_of_loc shr_m]. reflexivity.
Qed.

(** A mantissa above its canonical exponent is shifted and rounded; a
    carry to [2 ^ 53] costs one more shift. *)
Lemma binary_round_aux_shift M e n :
  -1074 <= e ->
  fexp prec emax (Zpos (digits2_pos M) + e) - e = Zpos n ->
  binary_round_aux prec emax false (Zpos M) e loc_Exact
  = if rne (Zpos M) (Zpos n) =? 2 ^ 53
    then pack (2 ^ 52, e + Zpos n + 1)
    else pack (rne (Zpos M) (Zpos n), e + Zpos n).
Proof.
  intros He Hn. rewrite fexp_64 in Hn.
  pose proof (digits2_pos_bounds M) as [Hlo Hhi].
  set (d := Zpos (digits2_pos M)) in *.
  assert (Hd : d = 53 + Zpos n) by lia.
  assert (HN : 0 < 2 ^ Zpos n) by (apply Z.pow_pos_nonneg; lia).
  replace (d - 1) with (52 + Zpos n) in Hlo by lia. rewrite Hd in Hhi.
  rewrite Z.pow_add_r in Hlo, Hhi by lia.
  assert (Hq1 : 2 ^ 52 <= Zpos M / 2 ^ Zpos n) by (apply Z.div_le_lower_bound; lia).
  assert (Hq2 : Zpos M / 2 ^ Zpos n < 2 ^ 53) by (apply Z.div_lt_upper_bound; lia).
  pose proof (Z.div_mod (Zpos M) (2 ^ Zpos n) ltac:(lia)) as E.
  pose proof (Z.mod_pos_bound (Zpos M) (2 ^ Zpos n) HN) as B.
  pose proof (rne_bounds (Zpos M) (Zpos n) (Zpos M / 2 ^ Zpos n) ltac:(lia) ltac:(lia)) as Hr.
  unfold binary_round_aux, shr_fexp. cbn [Zdigits2]. fold d.
  rewrite fexp_64, Hn. cbn [shr shr_record_of_loc].
  pose proof (shr_round (Zpos M) n ltac:(lia)) as Hround. cbv zeta in Hround.
  rewrite Hround. clear Hround.
  set (m2 := rne (Zpos M) (Zpos n)) in *.
  destruct (Z.eqb_spec m2 (2 ^ 53)) as [Hc|Hc].
  - rewrite Hc. change (Zdigits2 (2 ^ 53)) with 54. rewrite fexp_64.
    replace (Z.max (54 + (e + Zpos n) - 53) (-1074) - (e + Zpos n)) with 1 by lia.
    reflexivity.
  - destruct m2 as [|p|p] eqn:Hm2; try lia.
    cbn [Zdigits2]. rewrite (digits2_unique p 53) by (change (53 - 1) with 52; lia).
    rewrite fexp_64.
    replace (Z.max (53 + (e + Zpos n) - 53) (-1074) - (e + Zpos n)) with 0 by lia.
    reflexivity.
Qed.

(** [binary_round] as a function of the value alone. *)
Lemma binary_round_rpair M e :
  -1074 <= e -> binary_round prec emax false M e = pack (rpair (val M e)).
Proof.
  intros He. unfold binary_round.
  pose proof (log2_val M e He) as HD.
  pose proof (digits2_pos_bounds M) as [Hlo Hhi].
  set (d := Zpos (digits2_pos M)) in *.
  rewrite fexp_64. set (fe := Z.max (d + e - 53) (-1074)).
  unfold rpair. rewrite HD. cbv zeta.
  destruct (Z_le_gt_dec fe e) as [Hle|Hgt].
  - pose proof (shl_align_value M e fe Hle) as Hmz.
    pose proof (shl_align_snd M e fe Hle) as Hez.
    destruct (shl_align M e fe) as [mz ez]. cbn [fst snd] in Hmz, Hez. subst ez.
    assert (HP : 0 < 2 ^ (e - fe)) by (apply Z.pow_pos_nonneg; lia).
    assert (Hdz : Zpos (digits2_pos mz) = d + (e - fe)).
    { apply digits2_unique. rewrite Hmz.
      replace (d + (e - fe) - 1) with (d - 1 + (e - fe)) by lia.
      rewrite !Z.pow_add_r by lia. nia. }
    rewrite binary_round_aux_exact
      by (rewrite Hdz, fexp_64; replace (d + (e - fe) + fe - 53) with (d + e - 53) by lia;
          reflexivity).
    assert (Hval : val M e = Zpos mz * 2 ^ (fe + 1074)).
    { unfold val. rewrite Hmz, <- Z.mul_assoc, <- Z.pow_add_r by lia. do 2 f_equal. lia. }
    rewrite Hval.
    destruct (Z.leb_spec (d + e + 1074) 53) as [Hsub|Hnorm].
    + replace (fe + 1074) with 0 by lia. rewrite Z.pow_0_r, Z.mul_1_r.
      replace fe with (-1074) by lia. reflexivity.
    + replace (d + e + 1074 - 53) with (fe + 1074) by lia.
      rewrite rne_exact by lia.
      assert (Hlt : Zpos mz < 2 ^ 53).
      { pose proof (digits2_pos_bounds mz) as [_ H]. rewrite Hdz in H.
        replace (d + (e - fe)) with 53 in H by lia. exact H. }
      destruct (Z.eqb_spec (Zpos mz) (2 ^ 53)); [lia|].
      replace (fe + 1074 - 1074) with fe by lia. reflexivity.
  - rewrite shl_align_id by lia.
    destruct (fe - e) as [|n|n] eqn:Hn; try lia.
    rewrite (binary_round_aux_shift M e n He) by (rewrite fexp_64; exact Hn).
    destruct (Z.leb_spec (d + e + 1074) 53) as [Hsub|Hnorm]; [lia|].
    replace (d + e + 1074 - 53) with (Zpos n + (e + 1074)) by lia.
    unfold val. rewrite rne_scale by lia.
    destruct (Z.eqb_spec (rne (Zpos M) (Zpos n)) (2 ^ 53)).
    + replace (Zpos n + (e + 1074) + 1 - 1074) with (e + Zpos n + 1) by lia. reflexivity.
    + replace (Zpos n + (e + 1074) - 1074) with (e + Zpos n) by lia. reflexivity.
Qed.

(** Floats ordered by exponent, then mantissa. *)
Definition ple (p1 p2 : Z * Z) : Prop :=
  snd p1 < snd p2 \/ (snd p1 = snd p2 /\ fst p1 <= fst p2).

Lemma rpair_pos V : 0 < V -> 0 < fst (rpair V).
Proof.
  intros HV. unfold rpair. cbv zeta.
  destruct (Z.leb_spec (Z.log2 V + 1) 53); [exact HV|].
  pose proof (rne_53_digits V ltac:(lia)).
  destruct (Z.eqb_spec (rne V (Z.log2 V + 1 - 53)) (2 ^ 53)); cbn [fst]; lia.
Qed.

Lemma rpair_mono V1 V2 : 0 < V1 <= V2 -> ple (rpair V1) (rpair V2).
Proof.
  intros [H1 H12].
  pose proof (Z.log2_le_mono V1 V2 H12) as HD.
  unfold ple, rpair. cbv zeta.
  destruct (Z.leb_spec (Z.log2 V1 + 1) 53) as [A1|A1],
           (Z.leb_spec (Z.log2 V2 + 1) 53) as [A2|A2]; cbn [fst snd].
  - right. split; lia.
  - pose proof (rne_53_digits V2 A2).
    destruct (Z.eqb_spec (rne V2 (Z.log2 V2 + 1 - 53)) (2 ^ 53)); cbn [fst snd]; left; lia.
  - lia.
  - pose proof (rne_53_digits V1 A1) as B1. pose proof (rne_53_digits V2 A2) as B2.
    destruct (Z.eq_dec (Z.log2 V1) (Z.log2 V2)) as [E|NE].
    + rewrite <- E in *.
      pose proof (rne_mono V1 V2 (Z.log2 V1 + 1 - 53) ltac:(lia) H12).
      destruct (Z.eqb_spec (rne V1 (Z.log2 V1 + 1 - 53)) (2 ^ 53)),
               (Z.eqb_spec (rne V2 (Z.log2 V1 + 1 - 53)) (2 ^ 53)); cbn [fst snd]; lia.
    + destruct (Z.eqb_spec (rne V1 (Z.log2 V1 + 1 - 53)) (2 ^ 53)),
               (Z.eqb_spec (rne V2 (Z.log2 V2 + 1 - 53)) (2 ^ 53)); cbn [fst snd]; lia.
Qed.

Lemma pack_le p1 p2 :
  0 < fst p1 -> 0 < fst p2 -> ple p1 p2 -> SFleb (pack p1) (pack p2) = true.
Proof.
  destruct p1 as [m1 e1], p2 as [m2 e2]. unfold ple, pack. cbn [fst snd].
  intros H1 H2 H. destruct m1 as [|m1|m1], m2 as [|m2|m2]; try lia.
  destruct (Z.leb_spec e1 (emax - prec)), (Z.leb_spec e2 (emax - prec)); try reflexivity.
  - unfold SFleb. cbn [SFcompare]. destruct H as [Hlt|[-> Hle]].
    + rewrite (proj2 (Z.compare_lt_iff e1 e2) Hlt). reflexivity.
    + rewrite Z.compare_refl. fold (Pos.compare m1 m2).
      destruct (Pos.compare_spec m1 m2); try reflexivity; lia.
  - lia.
Qed.

Lemma bounded_emax m e : bounded prec emax m e = true -> e <= emax - prec.
Proof.
  unfold bounded. intros H. apply andb_true_iff in H as [_ H]. apply Z.leb_le, H.
Qed.

(** A valid float is the rounding of its own value. *)
Lemma finite_rpair m e :
  bounded prec emax m e = true -> S754_finite false m e = pack (rpair (val m e)).
Proof.
  intros Hb. pose proof (bounded_exponent m e Hb) as He.
  pose proof (bounded_emax m e Hb) as Hmax.
  pose proof (digits2_pos_bounds m) as [_ Hhi].
  unfold rpair. rewrite log2_val by lia. cbv zeta.
  set (d := Zpos (digits2_pos m)) in *.
  destruct (Z.leb_spec (d + e + 1074) 53) as [Hsub|Hnorm].
  - unfold val. replace (e + 1074) with 0 by lia. rewrite Z.pow_0_r, Z.mul_1_r.
    unfold pack. cbn [fst snd]. replace e with (-1074) by lia. reflexivity.
  - replace (d + e + 1074 - 53) with (e + 1074) by lia.
    unfold val. rewrite rne_exact by lia.
    replace d with 53 in Hhi by lia.
    destruct (Z.eqb_spec (Zpos m) (2 ^ 53)); [lia|].
    unfold pack. cbn [fst snd]. replace (e + 1074 - 1074) with e by lia.
    destruct (Z.leb_spec e (emax - prec)); [reflexivity | lia].
Qed.

Lemma val_le mx ex my ey :
  bounded prec emax mx ex = true -> bounded prec emax my ey = true ->
  SFleb (S754_finite false mx ex) (S754_finite false my ey) = true ->
  val mx ex <= val my ey.
Proof.
  intros Hx Hy H. unfold SFleb in H. cbn [SFcompare] in H.
  pose proof (bounded_exponent _ _ Hx) as Ex. pose proof (bounded_exponent _ _ Hy) as Ey.
  unfold val.
  destruct (Z.compare_spec ex ey) as [E|L|G]; [| |discriminate H].
  - subst ey. fold (Pos.compare mx my) in H.
    assert (0 < 2 ^ (ex + 1074)) by (apply Z.pow_pos_nonneg; lia).
    destruct (Pos.compare_spec mx my); try discriminate H; nia.
  - pose proof (aligned_lt mx ex my ey Hx Hy L).
    replace (ey + 1074) with (ey - ex + (ex + 1074)) by lia.
    rewrite (Z.pow_add_r 2 (ey - ex) (ex + 1074)) by lia.
    assert (0 < 2 ^ (ex + 1074)) by (apply Z.pow_pos_nonneg; lia).
    nia.
Qed.

Lemma SFadd_finite_rpair mx ex my ey :
  bounded prec emax mx ex = true -> bounded prec emax my ey = true ->
  SFadd prec emax (S754_finite false mx ex) (S754_finite false my ey)
  = pack (rpair (val mx ex + val my ey)).
Proof.
  intros Hx Hy. cbn [SFadd cond_Zopp].
  pose proof (bounded_exponent _ _ Hx) as Ex. pose proof (bounded_exponent _ _ Hy) as Ey.
  set (ez := Z.min ex ey).
  assert (Hzx : ez <= ex) by (unfold ez; lia).
  assert (Hzy : ez <= ey) by (unfold ez; lia).
  assert (Hz : -1074 <= ez) by (unfold ez; lia).
  rewrite (shl_align_value mx ex ez Hzx), (shl_align_value my ey ez Hzy).
  assert (Hval : val mx ex + val my ey
                 = (Zpos mx * 2 ^ (ex - ez) + Zpos my * 2 ^ (ey - ez)) * 2 ^ (ez + 1074)).
  { unfold val. rewrite Z.mul_add_distr_r, <- !Z.mul_assoc, <- !Z.pow_add_r by lia.
    do 2 f_equal; f_equal; lia. }
  assert (Hpx : 0 < 2 ^ (ex - ez)) by (apply Z.pow_pos_nonneg; lia).
  assert (Hpy : 0 < 2 ^ (ey - ez)) by (apply Z.pow_pos_nonneg; lia).
  rewrite Hval.
  destruct (Zpos mx * 2 ^ (ex - ez) + Zpos my * 2 ^ (ey - ez)) as [|M|M] eqn:EM; try lia.
  cbn [binary_normalize]. apply binary_round_rpair, Hz.
Qed.

(** The non-negative floats that are not infinite, and their value in
    units of [2 ^ -1074]. *)
Definition SFfin (x : spec_float) : Prop :=
  match x with
  | S754_zero _ => True
  | S754_finite s _ _ => s = false
  | _ => False
  end.

Definition sval (x : spec_float) : Z :=
  match x with
  | S754_finite _ m e => val m e
  | _ => 0
  end.

Lemma sval_nonneg x : 0 <= sval x.
Proof.
  destruct x as [s|s| |s m e]; cbn [sval]; try lia.
  unfold val. pose proof (Z.pow_nonneg 2 (e + 1074) ltac:(lia)). nia.
Qed.

Lemma SFadd_sval X Y :
  valid_binary X = true -> valid_binary Y = true -> SFfin X -> SFfin Y ->
  0 < sval X + sval Y ->
  SFadd prec emax X Y = pack (rpair (sval X + sval Y)).
Proof.
  destruct X as [sx|sx| |sx mx ex], Y as [sy|sy| |sy my ey];
    cbn [valid_binary SFfin sval]; intros HX HY FX FY Hpos; try contradiction; try lia;
    subst.
  - rewrite Z.add_0_l. cbn [SFadd]. apply finite_rpair, HY.
  - rewrite Z.add_0_r. cbn [SFadd]. apply finite_rpair, HX.
  - apply SFadd_finite_rpair; assumption.
Qed.

Lemma SFleb_sval X X' :
  valid_binary X = true -> valid_binary X' = true -> SFfin X -> SFfin X' ->
  SFleb X X' = true -> sval X <= sval X'.
Proof.
  destruct X as [sx|sx| |sx mx ex], X' as [sx'|sx'| |sx' mx' ex'];
    cbn [valid_binary SFfin sval]; intros HX HX' FX FX' H; try contradiction; subst.
  - lia.
  - apply sval_nonneg with (x := S754_finite false mx' ex').
  - discriminate H.
  - apply val_le; assumption.
Qed.

Lemma SFleb_zero_any s W : SFnonneg W -> SFleb (S754_zero s) W = true.
Proof.
  destruct W as [sw|sw| |sw mw ew]; cbn [SFnonneg]; intros H; try contradiction; subst;
    reflexivity.
Qed.

Lemma SFleb_infinity W : SFnonneg W -> SFleb W (S754_infinity false) = true.
Proof.
  destruct W as [sw|sw| |sw mw ew]; cbn [SFnonneg]; intros H; try contradiction; subst;
    reflexivity.
Qed.

Lemma SFnonneg_cases X : SFnonneg X -> SFfin X \/ X = S754_infinity false.
Proof.
  destruct X as [s|s| |s m e]; cbn [SFnonneg SFfin]; intros H; subst; auto.
Qed.

Lemma SFadd_infinity_r X : SFnonneg X -> SFadd prec emax X (S754_infinity false) = S754_infinity false.
Proof.
  destruct X as [s|s| |s m e]; cbn [SFnonneg]; intros H; try contradiction; subst; reflexivity.
Qed.

Lemma SFadd_infinity_l X : SFnonneg X -> SFadd prec emax (S754_infinity false) X = S754_infinity false.
Proof.
  destruct X as [s|s| |s m e]; cbn [SFnonneg]; intros H; try contradiction; subst; reflexivity.
Qed.

Lemma SFleb_fin X X' : SFnonneg X -> SFfin X' -> SFleb X X' = true -> SFfin X.
Proof.
  destruct X as [s|s| |s m e], X' as [s'|s'| |s' m' e']; cbn [SFnonneg SFfin];
    intros H H' Hle; try contradiction; subst; auto; discriminate Hle.
Qed.

Lemma val_pos m e : bounded prec emax m e = true -> 0 < val m e.
Proof.
  intros Hb. pose proof (bounded_exponent m e Hb).
  unfold val. apply Z.mul_pos_pos; [lia|]. apply Z.pow_pos_nonneg; lia.
Qed.

Lemma SFadd_zeros X Y :
  valid_binary X = true -> valid_binary Y = true -> SFfin X -> SFfin Y ->
  sval X + sval Y <= 0 -> exists s, SFadd prec emax X Y = S754_zero s.
Proof.
  destruct X as [sx|sx| |sx mx ex], Y as [sy|sy| |sy my ey]; cbn [valid_binary SFfin sval];
    intros HX HY FX FY H; try contradiction; subst.
  - destruct sx, sy; eexists; reflexivity.
  - pose proof (val_pos my ey HY). lia.
  - pose proof (val_pos mx ex HX). lia.
  - pose proof (val_pos mx ex HX). pose proof (val_pos my ey HY). lia.
Qed.

(** Addition of non-negative floats is monotone in both arguments. *)
Lemma SFadd_mono X X' Y Y' :
  valid_binary X = true -> valid_binary X' = true ->
  valid_binary Y = true -> valid_binary Y' = true ->
  SFnonneg X -> SFnonneg X' -> SFnonneg Y -> SFnonneg Y' ->
  SFleb X X' = true -> SFleb Y Y' = true ->
  SFleb (SFadd prec emax X Y) (SFadd prec emax X' Y') = true.
Proof.
  intros VX VX' VY VY' NX NX' NY NY' HX HY.
  pose proof (SFadd_nonneg X Y NX NY) as Nsum.
  destruct (SFnonneg_cases X' NX') as [FX'| ->];
    [|rewrite (SFadd_infinity_l Y' NY'); apply SFleb_infinity, Nsum].
  destruct (SFnonneg_cases Y' NY') as [FY'| ->];
    [|rewrite (SFadd_infinity_r X' NX'); apply SFleb_infinity, Nsum].
  pose proof (SFleb_fin X X' NX FX' HX) as FX.
  pose proof (SFleb_fin Y Y' NY FY' HY) as FY.
  pose proof (SFleb_sval X X' VX VX' FX FX' HX) as LX.
  pose proof (SFleb_sval Y Y' VY VY' FY FY' HY) as LY.
  destruct (Z_lt_le_dec 0 (sval X + sval Y)) as [Hpos|Hzero].
  - rewrite (SFadd_sval X Y), (SFadd_sval X' Y') by (assumption || lia).
    apply pack_le; [apply rpair_pos; lia | apply rpair_pos; lia | apply rpair_mono; lia].
  - destruct (SFadd_zeros X Y VX VY FX FY Hzero) as [s ->].
    apply SFleb_zero_any, SFadd_nonneg; assumption.
Qed.

Lemma SFleb_nonneg X X' : SFnonneg X -> SFleb X X' = true -> SFnonneg X'.
Proof.
  destruct X as [s|s| |s m e], X' as [s'|s'| |s' m' e']; cbn [SFnonneg];
    intros H Hle; try contradiction; subst; auto;
    try (destruct s'; [discriminate Hle | reflexivity]);
    discriminate Hle.
Qed.

End RoundingFacts.

(** Float64 addition of non-negative numbers is monotone: rounding to
    nearest never reverses an order. *)
Lemma add_mono x x' y y' :
  (0 <=? x) = true -> (0 <=? y) = true ->
  (x <=? x') = true -> (y <=? y') = true ->
  (x + y <=? x' + y') = true.
Proof.
  rewrite !nonneg_spec, !leb_spec, !add_spec. intros NX NY HX HY.
  apply SFadd_mono; auto using Prim2SF_valid.
  - exact (SFleb_nonneg _ _ NX HX).
  - exact (SFleb_nonneg _ _ NY HY).
Qed.

(* --------------------------------------------------------------------- *)
(** ** Comparisons: [LessThanOrEqual] and [Equal]                         *)
(* --------------------------------------------------------------------- *)



Lemma LessThanOrEqual_dims r other :
  LessThanOrEqual r other = true <->
  forall d, lessThanOrEqual (get d r) (get d other) = true.
Proof.
  unfold LessThanOrEqual. rewrite !andb_true_iff. split.
  - intros [[[Hc Hm] Hd] Hg] []; assumption.
  - intros H. repeat split; [apply (H dCPU)|apply (H dMEMORY)|apply (H dDISK)|apply (H dGPU)].
Qed.

Lemma Equal_dims r other :
  Equal r other = true <-> forall d, (get d r =? get d other) = true.
Proof.
  unfold Equal, equal. rewrite !andb_true_iff. split.
  - intros [[[Hc Hm] Hd] Hg] []; assumption.
  - intros H. repeat split; [apply (H dCPU)|apply (H dMEMORY)|apply (H dDISK)|apply (H dGPU)].
Qed.






(* --------------------------------------------------------------------- *)
(** ** [Resources.Subtract]                                               *)
(* --------------------------------------------------------------------- *)

Lemma get_Subtract d r s :
  get d (Subtract r s) = subtract1 (get d r) (get d s).
Proof. destruct d; reflexivity. Qed.

Lemma subtract1_saturates x y :
  is_nan (x - y) = false ->
  subtract1 x y = if ResourceEpsilon <=? x - y then x - y else 0.
Proof.
  intros Hnan. unfold subtract1.
  destruct (x <? y) eqn:Hlt.
  - rewrite (ltb_sub_below_epsilon _ _ Hlt). reflexivity.
  - rewrite (ltb_negb_leb (x - y) ResourceEpsilon Hnan) by reflexivity.
    destruct (ResourceEpsilon <=? x - y); reflexivity.
Qed.

Lemma subtract1_not_negative x y : (subtract1 x y <? 0) = false.
Proof.
  unfold subtract1. destruct (x <? y); [reflexivity|].
  destruct (x - y <? ResourceEpsilon) eqn:E; [reflexivity|].
  apply ltb_zero_ltb_epsilon, E.
Qed.

Definition unlimited : Resources := mkResources infinity infinity infinity infinity.

(** C8, counterexample: subtracting an infinite vector from itself.  The
    difference [Inf - Inf] is NaN, which is not at least the epsilon, and
    the result is NaN rather than 0. *)
Lemma Subtract_infinite_is_not_zero :
  (ResourceEpsilon <=? get dCPU unlimited - get dCPU unlimited) = false /\
  get dCPU (Subtract unlimited unlimited) <> 0.
Proof.
  split; [vm_compute; reflexivity|].
  intros H. apply (f_equal is_nan) in H. vm_compute in H. discriminate H.
Qed.

(** C8 (amended): in every dimension where the float64 difference
    [r.d - s.d] is a number (not NaN), [r.Subtract(s)] is that difference
    when it is at least the epsilon and exactly 0 otherwise; it is 0
    whenever [r.d < s.d]; and no dimension of the result is negative. *)
Theorem Subtract_saturates (r s : Resources) (d : Dim) :
  is_nan (get d r - get d s) = false ->
  get d (Subtract r s) =
    (if ResourceEpsilon <=? get d r - get d s then get d r - get d s else 0) /\
  ((get d r <? get d s) = true -> get d (Subtract r s) = 0) /\
  (get d (Subtract r s) <? 0) = false.
Proof.
  intros Hnan. rewrite get_Subtract. split; [|split].
  - apply subtract1_saturates, Hnan.
  - intros Hlt. unfold subtract1. rewrite Hlt. reflexivity.
  - apply subtract1_not_negative.
Qed.

Definition five_cpus : Resources := mkResources 5 4096 100 0.
Definition two_cpus : Resources := mkResources 2 8192 100 0.

Lemma Subtract_saturates_witness :
  get dCPU (Subtract five_cpus two_cpus) =
    (if ResourceEpsilon <=? get dCPU five_cpus - get dCPU two_cpus
     then get dCPU five_cpus - get dCPU two_cpus else 0) /\
  ((get dCPU five_cpus <? get dCPU two_cpus) = true ->
   get dCPU (Subtract five_cpus two_cpus) = 0) /\
  (get dCPU (Subtract five_cpus two_cpus) <? 0) = false.
Proof.
  apply (Subtract_saturates five_cpus two_cpus dCPU). vm_compute. reflexivity.
Defined.

Example Subtract_five_two :
  Subtract five_cpus two_cpus = mkResources 3 0 0 0.
Proof. vm_compute. reflexivity. Qed.

(* --------------------------------------------------------------------- *)
(** ** Allocations of tasks and gangs                                     *)
(* --------------------------------------------------------------------- *)

(** A vector with no negative (and so no NaN) dimension. *)
Definition nonneg (r : Resources) : Prop :=
  forall d, (0 <=? get d r) = true.

Definition taskResource (t : Task) : Resources :=
  ConvertToResmgrResource (Resource t).

Definition isController (t : Task) : bool :=
  TaskType_eqb (Type_ t) TaskType_CONTROLLER.

(** [Total == Preemptible + NonPreemptible], with the [==] of
    [Resources.Equal] and the [+] of [Resources.Add]. *)
Definition total_is_sum (a : Allocation) : Prop :=
  Equal (GetByType a TotalAllocation)
        (Add (GetByType a PreemptibleAllocation)
             (GetByType a NonPreemptibleAllocation)) = true.

(** [Controller <= Total] in every dimension, with float64's [<=]. *)
Definition controller_le_total (a : Allocation) : Prop :=
  forall d, (get d (GetByType a ControllerAllocation)
             <=? get d (GetByType a TotalAllocation)) = true.

Lemma GetTaskAllocation_kinds t :
  GetTaskAllocation t TotalAllocation = taskResource t /\
  GetTaskAllocation t PreemptibleAllocation =
    (if Preemptible t then taskResource t else ZeroResource) /\
  GetTaskAllocation t NonPreemptibleAllocation =
    (if Preemptible t then ZeroResource else taskResource t) /\
  GetTaskAllocation t ControllerAllocation =
    (if isController t then taskResource t else ZeroResource).
Proof.
  unfold GetTaskAllocation, isController, taskResource.
  destruct (Preemptible t), (TaskType_eqb (Type_ t) TaskType_CONTROLLER);
    repeat split; reflexivity.
Qed.

Lemma get_Add d r s : get d (Add r s) = get d r + get d s.
Proof. destruct d; reflexivity. Qed.

Lemma nonneg_Zero : nonneg ZeroResource.
Proof. intros []; reflexivity. Qed.

Lemma nonneg_Add r s : nonneg r -> nonneg s -> nonneg (Add r s).
Proof. intros Hr Hs d. rewrite get_Add. apply add_nonneg; [apply Hr | apply Hs]. Qed.

Lemma Equal_Add_Zero_r r : nonneg r -> Equal r (Add r ZeroResource) = true.
Proof.
  intros H. apply Equal_dims. intros d. rewrite get_Add.
  replace (get d ZeroResource) with 0 by (destruct d; reflexivity).
  pose proof (add_zero_r (get d r) (nonneg_not_nan _ (H d))) as E.
  rewrite FloatAxioms.eqb_spec in E |- *.
  unfold SFeqb in *. rewrite SFcompare_antisym.
  destruct (SFcompare _ _) as [[| |]|]; try discriminate; reflexivity.
Qed.

Lemma Equal_Add_Zero_l r : nonneg r -> Equal r (Add ZeroResource r) = true.
Proof.
  intros H. apply Equal_dims. intros d. rewrite get_Add.
  replace (get d ZeroResource) with 0 by (destruct d; reflexivity).
  pose proof (add_zero_l (get d r) (nonneg_not_nan _ (H d))) as E.
  rewrite FloatAxioms.eqb_spec in E |- *.
  unfold SFeqb in *. rewrite SFcompare_antisym.
  destruct (SFcompare _ _) as [[| |]|]; try discriminate; reflexivity.
Qed.

(** The gang loop, kind by kind: each kind of the gang's allocation is the
    running float64 sum of that kind over the tasks, in order. *)
Definition sumKind (k : AllocationType) (g : Gang) (start : Resources) : Resources :=
  fold_left (fun r t => Add r (GetTaskAllocation t k)) g start.

Lemma gang_fold_kind k g : forall acc,
  fold_left (fun a t => AllocationAdd a (GetTaskAllocation t)) g acc k
  = sumKind k g (acc k).
Proof.
  induction g as [|t g IH]; intros acc; [reflexivity|].
  cbn [fold_left sumKind]. rewrite IH. reflexivity.
Qed.

Lemma GetGangAllocation_kind k g :
  GetGangAllocation g k = sumKind k g ZeroResource.
Proof. unfold GetGangAllocation. rewrite gang_fold_kind. reflexivity. Qed.

Lemma sumKind_same k k' g : forall start,
  Forall (fun t => GetTaskAllocation t k = GetTaskAllocation t k') g ->
  sumKind k g start = sumKind k' g start.
Proof.
  induction g as [|t g IH]; intros start H; [reflexivity|].
  inversion H as [|? ? Ht Hg]; subst. cbn [sumKind fold_left].
  rewrite Ht. apply IH, Hg.
Qed.

Lemma sumKind_zero k g :
  Forall (fun t => GetTaskAllocation t k = ZeroResource) g ->
  sumKind k g ZeroResource = ZeroResource.
Proof.
  induction g as [|t g IH]; intros H; [reflexivity|].
  inversion H as [|? ? Ht Hg]; subst. cbn [sumKind fold_left].
  rewrite Ht. change (Add ZeroResource ZeroResource) with ZeroResource.
  apply IH, Hg.
Qed.

Lemma sumKind_total_nonneg g : forall start,
  nonneg start ->
  Forall (fun t => nonneg (taskResource t)) g ->
  nonneg (sumKind TotalAllocation g start).
Proof.
  induction g as [|t g IH]; intros start Hs H; [exact Hs|].
  inversion H as [|? ? Ht Hg]; subst. cbn [sumKind fold_left].
  apply IH; [|exact Hg]. apply nonneg_Add; [exact Hs|].
  destruct (GetTaskAllocation_kinds t) as [-> _]. exact Ht.
Qed.

Lemma task_total_is_sum t : nonneg (taskResource t) -> total_is_sum (GetTaskAllocation t).
Proof.
  intros H. unfold total_is_sum, GetByType.
  destruct (GetTaskAllocation_kinds t) as (-> & -> & -> & _).
  destruct (Preemptible t); [apply Equal_Add_Zero_r | apply Equal_Add_Zero_l]; exact H.
Qed.

Lemma task_controller_le_total t :
  nonneg (taskResource t) -> controller_le_total (GetTaskAllocation t).
Proof.
  intros H d. unfold GetByType.
  destruct (GetTaskAllocation_kinds t) as (-> & _ & _ & ->).
  destruct (isController t).
  - apply leb_refl, nonneg_not_nan, H.
  - replace (get d ZeroResource) with 0 by (destruct d; reflexivity). apply H.
Qed.

Lemma gang_total_is_sum g p :
  Forall (fun t => nonneg (taskResource t)) g ->
  Forall (fun t => Preemptible t = p) g ->
  total_is_sum (GetGangAllocation g).
Proof.
  intros Hn Hp. unfold total_is_sum, GetByType. rewrite !GetGangAllocation_kind.
  pose proof (sumKind_total_nonneg g ZeroResource nonneg_Zero Hn) as HT.
  destruct p.
  - rewrite (sumKind_same PreemptibleAllocation TotalAllocation),
            (sumKind_zero NonPreemptibleAllocation).
    + apply Equal_Add_Zero_r, HT.
    + eapply Forall_impl; [exact Hp|]. cbv beta. intros t Ht.
      destruct (GetTaskAllocation_kinds t) as (_ & _ & -> & _). rewrite Ht. reflexivity.
    + eapply Forall_impl; [exact Hp|]. cbv beta. intros t Ht.
      destruct (GetTaskAllocation_kinds t) as (-> & -> & _ & _). rewrite Ht. reflexivity.
  - rewrite (sumKind_same NonPreemptibleAllocation TotalAllocation),
            (sumKind_zero PreemptibleAllocation).
    + apply Equal_Add_Zero_l, HT.
    + eapply Forall_impl; [exact Hp|]. cbv beta. intros t Ht.
      destruct (GetTaskAllocation_kinds t) as (_ & -> & _ & _). rewrite Ht. reflexivity.
    + eapply Forall_impl; [exact Hp|]. cbv beta. intros t Ht.
      destruct (GetTaskAllocation_kinds t) as (-> & _ & -> & _). rewrite Ht. reflexivity.
Qed.

(** Every kind of a task's allocation is the task's resources or zero. *)
Lemma GetTaskAllocation_kind_cases t k :
  GetTaskAllocation t k = taskResource t \/ GetTaskAllocation t k = ZeroResource.
Proof.
  destruct (GetTaskAllocation_kinds t) as (HT & HP & HN & HC).
  destruct k; [rewrite HN | rewrite HP | rewrite HC | rewrite HT];
    try destruct (Preemptible t); try destruct (isController t); auto.
Qed.

(** [k <= Total] in every dimension, with float64's [<=]. *)
Definition kind_le_total (k : AllocationType) (a : Allocation) : Prop :=
  forall d, (get d (GetByType a k) <=? get d (GetByType a TotalAllocation)) = true.

(** The running sum of any kind stays below the running total: each task
    adds its resources to the total and its resources or zero to the
    kind, and float64 addition is monotone. *)
Lemma sumKind_le_total k g : forall c t,
  nonneg c ->
  (forall d, (get d c <=? get d t) = true) ->
  Forall (fun t' => nonneg (taskResource t')) g ->
  forall d, (get d (sumKind k g c) <=? get d (sumKind TotalAllocation g t)) = true.
Proof.
  induction g as [|t' g IH]; intros c t Hc Hle Hg; [exact Hle|].
  inversion Hg as [|? ? Ht' Hg']; subst. cbn [sumKind fold_left].
  destruct (GetTaskAllocation_kinds t') as [-> _].
  assert (Ha : nonneg (GetTaskAllocation t' k) /\
               forall d, (get d (GetTaskAllocation t' k) <=? get d (taskResource t')) = true).
  { destruct (GetTaskAllocation_kind_cases t' k) as [-> | ->].
    - split; [exact Ht'|]. intros d. apply leb_refl, nonneg_not_nan, Ht'.
    - split; [exact nonneg_Zero|]. intros d.
      replace (get d ZeroResource) with 0 by (destruct d; reflexivity). apply Ht'. }
  destruct Ha as [Han Hale].
  apply IH; [apply nonneg_Add; assumption | | exact Hg'].
  intros d. rewrite !get_Add. apply add_mono; [apply Hc | apply Han | apply Hle | apply Hale].
Qed.

Lemma gang_kind_le_total k g :
  Forall (fun t => nonneg (taskResource t)) g ->
  kind_le_total k (GetGangAllocation g).
Proof.
  intros Hg d. unfold GetByType. rewrite !GetGangAllocation_kind.
  apply sumKind_le_total; [exact nonneg_Zero | | exact Hg].
  intros d'. destruct d'; reflexivity.
Qed.

(** A batch task asking for [cpu] CPUs and nothing else. *)
Definition cpuTask (cpu : float) (preemptible : bool) (ty : TaskType) : Task :=
  mkTask (Some (mkResourceConfig cpu 0 0 0)) preemptible ty.

(** A gang mixing preemptible and non-preemptible tasks: the three sums are
    rounded separately, Total is (0.1 + 0.2) + 0.4 = 0.7000000000000001
    while Preemptible + NonPreemptible is (0.1 + 0.4) + 0.2 = 0.7. *)
Definition mixedGang : Gang :=
  [ cpuTask 0.1 true TaskType_BATCH;
    cpuTask 0.2 false TaskType_BATCH;
    cpuTask 0.4 true TaskType_BATCH ].

Example mixedGang_total :
  CPU (GetGangAllocation mixedGang TotalAllocation) = 0.1 + 0.2 + 0.4.
Proof. vm_compute. reflexivity. Qed.

Example mixedGang_parts :
  CPU (GetGangAllocation mixedGang PreemptibleAllocation) = 0.1 + 0.4 /\
  CPU (GetGangAllocation mixedGang NonPreemptibleAllocation) = 0.2.
Proof. split; vm_compute; reflexivity. Qed.

(** A task asking for [disk] MB of disk and nothing else. *)
Definition diskTask (disk : float) (preemptible : bool) (ty : TaskType) : Task :=
  mkTask (Some (mkResourceConfig 0 0 disk 0)) preemptible ty.

(** Three tasks of about 10 TB of disk each, the second not preemptible. *)
Definition mixedDiskGang : Gang :=
  [ diskTask 10000000.1 true TaskType_BATCH;
    diskTask 10000000.4 false TaskType_BATCH;
    diskTask 10000000.2 true TaskType_BATCH ].

Example mixedDiskGang_sums :
  DISK (GetGangAllocation mixedDiskGang TotalAllocation) = 30000000.7 /\
  DISK (Add (GetGangAllocation mixedDiskGang PreemptibleAllocation)
            (GetGangAllocation mixedDiskGang NonPreemptibleAllocation))
  = 30000000.699999996.
Proof. split; vm_compute; reflexivity. Qed.

(** C6, counterexample: for the gang of disk limits 10000000.1
    (preemptible), 10000000.4 (not) and 10000000.2 (preemptible), Total is
    (10000000.1 + 10000000.4) + 10000000.2 = 30000000.7 while
    Preemptible + NonPreemptible is (10000000.1 + 10000000.2) + 10000000.4
    = 30000000.699999996.  The two differ by 3.7e-9: they are not [Equal],
    and Total is not even [LessThanOrEqual] to the sum, whose tolerance is
    1e-9. *)
Lemma mixed_gang_total_is_not_sum :
  Forall (fun t => nonneg (taskResource t)) mixedDiskGang /\
  Equal (GetByType (GetGangAllocation mixedDiskGang) TotalAllocation)
        (Add (GetByType (GetGangAllocation mixedDiskGang) PreemptibleAllocation)
             (GetByType (GetGangAllocation mixedDiskGang) NonPreemptibleAllocation)) = false /\
  LessThanOrEqual
        (GetByType (GetGangAllocation mixedDiskGang) TotalAllocation)
        (Add (GetByType (GetGangAllocation mixedDiskGang) PreemptibleAllocation)
             (GetByType (GetGangAllocation mixedDiskGang) NonPreemptibleAllocation)) = false.
Proof.
  split; [|split; vm_compute; reflexivity].
  repeat constructor; intros []; vm_compute; reflexivity.
Qed.

(** C6 (amended): for every task whose four resource limits are not
    negative, [GetTaskAllocation] satisfies
    [Total == Preemptible + NonPreemptible] and [Controller <= Total] in
    each dimension.  For every gang of such tasks, every kind of
    [GetGangAllocation] is the float64 sum of that kind over the tasks,
    added in order; [Controller <= Total] holds in each dimension, and so
    do [Preemptible <= Total] and [NonPreemptible <= Total];
    [Total == Preemptible + NonPreemptible] holds when the tasks all have
    the same preemptible flag. *)
Theorem allocation_invariants (t : Task) (g : Gang) :
  nonneg (taskResource t) ->
  Forall (fun t' => nonneg (taskResource t')) g ->
  (total_is_sum (GetTaskAllocation t) /\ controller_le_total (GetTaskAllocation t)) /\
  (forall k, GetGangAllocation g k
             = fold_left (fun r t' => Add r (GetTaskAllocation t' k)) g ZeroResource) /\
  controller_le_total (GetGangAllocation g) /\
  kind_le_total PreemptibleAllocation (GetGangAllocation g) /\
  kind_le_total NonPreemptibleAllocation (GetGangAllocation g) /\
  (forall p, Forall (fun t' => Preemptible t' = p) g ->
             total_is_sum (GetGangAllocation g)).
Proof.
  intros Ht Hg. split; [split|split; [|split; [|split; [|split]]]].
  - apply task_total_is_sum, Ht.
  - apply task_controller_le_total, Ht.
  - intros k. apply GetGangAllocation_kind.
  - apply (gang_kind_le_total ControllerAllocation), Hg.
  - apply gang_kind_le_total, Hg.
  - apply gang_kind_le_total, Hg.
  - intros p. apply gang_total_is_sum, Hg.
Qed.

(** A gang of preemptible tasks, one of them a controller. *)
Definition preemptibleGang : Gang :=
  [ cpuTask 0.1 true TaskType_BATCH;
    cpuTask 0.2 true TaskType_CONTROLLER;
    cpuTask 0.4 true TaskType_BATCH ].

Lemma allocation_invariants_witness :
  (total_is_sum (GetTaskAllocation (cpuTask 0.2 false TaskType_CONTROLLER)) /\
   controller_le_total (GetTaskAllocation (cpuTask 0.2 false TaskType_CONTROLLER))) /\
  (forall k, GetGangAllocation preemptibleGang k
             = fold_left (fun r t' => Add r (GetTaskAllocation t' k)) preemptibleGang
                         ZeroResource) /\
  controller_le_total (GetGangAllocation preemptibleGang) /\
  kind_le_total PreemptibleAllocation (GetGangAllocation preemptibleGang) /\
  kind_le_total NonPreemptibleAllocation (GetGangAllocation preemptibleGang) /\
  total_is_sum (GetGangAllocation preemptibleGang).
Proof.
  destruct (allocation_invariants (cpuTask 0.2 false TaskType_CONTROLLER) preemptibleGang)
    as (Htask & Hsum & Hc & Hp & Hn & Hflag).
  - intros []; vm_compute; reflexivity.
  - repeat constructor; intros []; vm_compute; reflexivity.
  - refine (conj Htask (conj Hsum (conj Hc (conj Hp (conj Hn (Hflag true _)))))).
    repeat constructor.
Defined.

(** The limits have to be non-negative: with a negative limit the
    controller kind of a task that is no controller, which is zero, is
    above its total, and with a NaN limit nothing is equal to anything. *)
Example negative_limit_controller_above_total :
  ~ controller_le_total (GetTaskAllocation (cpuTask (-1) true TaskType_BATCH)).
Proof. intros H. specialize (H dCPU). vm_compute in H. discriminate H. Qed.

Example nan_limit_total_is_not_sum :
  ~ total_is_sum (GetTaskAllocation (cpuTask nan true TaskType_BATCH)).
Proof. intros H. vm_compute in H. discriminate H. Qed.

(** On the gang above the controller kind holds 0.2 of the 0.7000000000000001
    CPUs of the total. *)
Example preemptibleGang_controller :
  CPU (GetGangAllocation preemptibleGang ControllerAllocation) = 0.2 /\
  CPU (GetGangAllocation preemptibleGang TotalAllocation) = 0.1 + 0.2 + 0.4.
Proof. split; vm_compute; reflexivity. Qed.

(* --------------------------------------------------------------------- *)
(** ** More on the vectors: [Add], [GetGangResources], [Get] and [Set]    *)
(* --------------------------------------------------------------------- *)

(** [r <= s] in every dimension, with float64's [<=]. *)
Definition le (r s : Resources) : Prop :=
  forall d, (get d r <=? get d s) = true.

(** X6: [Resources.Add] is monotone on vectors without negative
    dimensions: the float64 sums of smaller vectors are not larger, however
    the sums are rounded, infinite dimensions included. *)
Theorem Add_monotone (r r' s s' : Resources) :
  nonneg r -> nonneg s -> le r r' -> le s s' -> le (Add r s) (Add r' s').
Proof.
  intros Hr Hs Hrr Hss d. rewrite !get_Add.
  apply add_mono; [apply Hr | apply Hs | apply Hrr | apply Hss].
Qed.

Lemma Add_monotone_witness :
  le (Add (mkResources 0.1 1024 0 0) (mkResources 0.2 512 10000000.4 0))
     (Add (mkResources 0.3 1024 0 1) (mkResources 0.2 infinity 10000000.5 0)).
Proof.
  apply Add_monotone; intros []; vm_compute; reflexivity.
Defined.

(** [func GetGangResources(gang *resmgrsvc.Gang) *Resources]; a nil gang is
    [None], and [&Resources{}] is the vector of four zeros. *)
Definition GetGangResources (gang : option Gang) : option Resources :=
  match gang with
  | None => None
  | Some g =>
      Some (fold_left
              (fun totalRes task => Add totalRes (ConvertToResmgrResource (Resource task)))
              g (mkResources 0 0 0 0))
  end.

Lemma fold_Add_total g : forall start,
  fold_left (fun totalRes task => Add totalRes (ConvertToResmgrResource (Resource task)))
            g start
  = sumKind TotalAllocation g start.
Proof.
  induction g as [|t g IH]; intros start; [reflexivity|].
  cbn [fold_left sumKind]. rewrite IH.
  destruct (GetTaskAllocation_kinds t) as [-> _]. reflexivity.
Qed.

(** X7: the two ways of adding up a gang agree bit for bit:
    [GetGangResources] returns the Total kind of [GetGangAllocation],
    whatever the limits of the tasks are, and differs from it only on a nil
    gang, where it returns nil and [GetGangAllocation] the zero allocation. *)
Theorem GetGangResources_is_total (g : Gang) :
  GetGangResources (Some g) = Some (GetByType (GetGangAllocation g) TotalAllocation) /\
  GetGangResources None = None /\
  GetByType (GetGangAllocation []) TotalAllocation = ZeroResource.
Proof.
  split; [|split; reflexivity].
  unfold GetGangResources, GetByType. rewrite fold_Add_total, GetGangAllocation_kind.
  reflexivity.
Qed.

(** The finite floats are the zeros and the numbers of the specification. *)
Lemma is_finite_spec x :
  is_finite x = true <->
  match Prim2SF x with
  | S754_zero _ | S754_finite _ _ _ => True
  | _ => False
  end.
Proof.
  unfold is_finite, is_nan, is_infinity.
  rewrite !FloatAxioms.eqb_spec, abs_spec.
  change (Prim2SF infinity) with (S754_infinity false).
  destruct (Prim2SF x) as [s|s| |s m e] eqn:E.
  - destruct s; cbn; intuition auto.
  - destruct s; cbn; intuition discriminate.
  - cbn. intuition discriminate.
  - rewrite (SFeqb_refl (S754_finite s m e)) by discriminate.
    cbn [SFabs negb orb]. split; [auto|]. intros _. reflexivity.
Qed.

Lemma sub_self x : is_finite x = true -> x - x = 0.
Proof.
  rewrite is_finite_spec. intros H. apply Prim2SF_inj. rewrite sub_spec.
  change (Prim2SF 0) with (S754_zero false).
  destruct (Prim2SF x) as [s|s| |s m e]; try contradiction.
  - destruct s; reflexivity.
  - unfold SF64sub. cbn [SFsub]. rewrite Z.sub_diag. reflexivity.
Qed.

Lemma lessThanOrEqual_self x : lessThanOrEqual x x = is_finite x.
Proof.
  destruct (is_finite x) eqn:Hf.
  - unfold lessThanOrEqual. rewrite (sub_self x Hf). reflexivity.
  - assert (Hnan : Prim2SF (x - x) = S754_nan).
    { rewrite sub_spec.
      destruct (Prim2SF x) as [s|s| |s m e] eqn:E; try reflexivity.
      - exfalso. assert (is_finite x = true) by (apply is_finite_spec; rewrite E; exact I).
        congruence.
      - destruct s; reflexivity.
      - exfalso. assert (is_finite x = true) by (apply is_finite_spec; rewrite E; exact I).
        congruence. }
    unfold lessThanOrEqual. rewrite !ltb_spec, abs_spec, Hnan. reflexivity.
Qed.

(** X19: [LessThanOrEqual] is reflexive on the finite vectors only: a
    vector is less than or equal to itself exactly when none of its
    dimensions is infinite or NaN, since an infinite dimension minus itself
    is NaN, which passes neither test.  On the finite vectors [Subtract]
    of a vector from itself is [ZeroResource]. *)
Theorem LessThanOrEqual_reflexive_iff_finite (r : Resources) :
  (LessThanOrEqual r r = true <-> forall d, is_finite (get d r) = true) /\
  ((forall d, is_finite (get d r) = true) -> Subtract r r = ZeroResource).
Proof.
  split.
  - rewrite LessThanOrEqual_dims. split; intros H d.
    + rewrite <- lessThanOrEqual_self. apply H.
    + rewrite lessThanOrEqual_self. apply H.
  - intros H. unfold Subtract, subtract1.
    pose proof (sub_self _ (H dCPU)) as Hc. pose proof (sub_self _ (H dMEMORY)) as Hm.
    pose proof (sub_self _ (H dDISK)) as Hd. pose proof (sub_self _ (H dGPU)) as Hg.
    cbn [get] in Hc, Hm, Hd, Hg. rewrite Hc, Hm, Hd, Hg.
    change (0 <? ResourceEpsilon) with true. cbv iota.
    destruct (CPU r <? CPU r), (MEMORY r <? MEMORY r), (DISK r <? DISK r), (GPU r <? GPU r);
      reflexivity.
Qed.

Example LessThanOrEqual_unlimited :
  LessThanOrEqual unlimited unlimited = false /\
  LessThanOrEqual five_cpus five_cpus = true /\
  Subtract five_cpus five_cpus = ZeroResource.
Proof. repeat split; vm_compute; reflexivity. Qed.

Section Kinds.

(** The names of the four resource kinds, [common.CPU], [common.GPU],
    [common.MEMORY] and [common.DISK], are constants of package [common],
    which is not among the sources; they are parameters here.  They are
    the case labels of one [switch], so Go requires them to be distinct. *)
Variables kCPU kGPU kMEMORY kDISK : string.

(** [func (r *Resources) Get(kind string) float64] *)
Definition Get (r : Resources) (kind : string) : float :=
  if String.eqb kind kCPU then CPU r
  else if String.eqb kind kGPU then GPU r
  else if String.eqb kind kMEMORY then MEMORY r
  else if String.eqb kind kDISK then DISK r
  else 0.

(** [func (r *Resources) Set(kind string, value float64)]: the vector after
    the assignment. *)
Definition Set_ (r : Resources) (kind : string) (value : float) : Resources :=
  if String.eqb kind kCPU then mkResources value (MEMORY r) (DISK r) (GPU r)
  else if String.eqb kind kGPU then mkResources (CPU r) (MEMORY r) (DISK r) value
  else if String.eqb kind kMEMORY then mkResources (CPU r) value (DISK r) (GPU r)
  else if String.eqb kind kDISK then mkResources (CPU r) (MEMORY r) value (GPU r)
  else r.

Definition knownKind (kind : string) : Prop :=
  kind = kCPU \/ kind = kGPU \/ kind = kMEMORY \/ kind = kDISK.

Lemma Get_Set_known r kind value : knownKind kind -> Get (Set_ r kind value) kind = value.
Proof.
  intros Hk. unfold Get, Set_.
  destruct (String.eqb_spec kind kCPU); [reflexivity|].
  destruct (String.eqb_spec kind kGPU); [reflexivity|].
  destruct (String.eqb_spec kind kMEMORY); [reflexivity|].
  destruct (String.eqb_spec kind kDISK); [reflexivity|].
  unfold knownKind in Hk. intuition congruence.
Qed.

Lemma Set_unknown r kind value :
  ~ knownKind kind -> Set_ r kind value = r /\ Get r kind = 0.
Proof.
  intros Hk. unfold Get, Set_, knownKind in *.
  destruct (String.eqb_spec kind kCPU); [intuition congruence|].
  destruct (String.eqb_spec kind kGPU); [intuition congruence|].
  destruct (String.eqb_spec kind kMEMORY); [intuition congruence|].
  destruct (String.eqb_spec kind kDISK); [intuition congruence|].
  split; reflexivity.
Qed.

Lemma Get_Set_other r kind kind' value :
  NoDup [kCPU; kGPU; kMEMORY; kDISK] -> kind <> kind' ->
  Get (Set_ r kind value) kind' = Get r kind'.
Proof.
  intros Hd Hne.
  assert (kCPU <> kGPU /\ kCPU <> kMEMORY /\ kCPU <> kDISK /\
          kGPU <> kMEMORY /\ kGPU <> kDISK /\ kMEMORY <> kDISK) as (H1 & H2 & H3 & H4 & H5 & H6).
  { apply NoDup_cons in Hd as [Ha Hd]. apply NoDup_cons in Hd as [Hb Hd].
    apply NoDup_cons in Hd as [Hc _].
    apply not_elem_of_cons in Ha as [? Ha]. apply not_elem_of_cons in Ha as [? Ha].
    apply not_elem_of_cons in Ha as [? _].
    apply not_elem_of_cons in Hb as [? Hb]. apply not_elem_of_cons in Hb as [? _].
    apply not_elem_of_cons in Hc as [? _]. repeat split; assumption. }
  unfold Get, Set_.
  destruct (String.eqb_spec kind kCPU), (String.eqb_spec kind kGPU),
           (String.eqb_spec kind kMEMORY), (String.eqb_spec kind kDISK);
    destruct (String.eqb_spec kind' kCPU), (String.eqb_spec kind' kGPU),
             (String.eqb_spec kind' kMEMORY), (String.eqb_spec kind' kDISK);
    try congruence; reflexivity.
Qed.

End Kinds.

(** X8: [Get] reads back what [Set] wrote.  For each of the four kinds,
    [Get] after [Set] of that kind returns the value set and the other
    kinds read as before; for any other name [Set] changes nothing and
    [Get] returns 0. *)
Theorem Get_Set_round_trip (kCPU kGPU kMEMORY kDISK : string) (r : Resources)
    (kind kind' : string) (value : float) :
  NoDup [kCPU; kGPU; kMEMORY; kDISK] ->
  (knownKind kCPU kGPU kMEMORY kDISK kind ->
     Get kCPU kGPU kMEMORY kDISK (Set_ kCPU kGPU kMEMORY kDISK r kind value) kind = value) /\
  (kind <> kind' ->
     Get kCPU kGPU kMEMORY kDISK (Set_ kCPU kGPU kMEMORY kDISK r kind value) kind'
     = Get kCPU kGPU kMEMORY kDISK r kind') /\
  (~ knownKind kCPU kGPU kMEMORY kDISK kind ->
     Set_ kCPU kGPU kMEMORY kDISK r kind value = r /\
     Get kCPU kGPU kMEMORY kDISK r kind = 0).
Proof.
  intros Hd. split; [|split].
  - apply Get_Set_known.
  - apply Get_Set_other, Hd.
  - apply Set_unknown.
Qed.

Lemma Get_Set_round_trip_witness :
  Get "cpu" "gpu" "memory" "disk"
      (Set_ "cpu" "gpu" "memory" "disk" five_cpus "memory" 2048) "memory" = 2048 /\
  Get "cpu" "gpu" "memory" "disk"
      (Set_ "cpu" "gpu" "memory" "disk" five_cpus "memory" 2048) "cpu" = 5 /\
  (Set_ "cpu" "gpu" "memory" "disk" five_cpus "ssd" 2048 = five_cpus /\
   Get "cpu" "gpu" "memory" "disk" five_cpus "ssd" = 0).
Proof.
  assert (Hd : NoDup ["cpu"; "gpu"; "memory"; "disk"]%string).
  { repeat apply NoDup_cons_2; try apply NoDup_nil_2;
      intros H; repeat (apply elem_of_cons in H as [H|H]; [discriminate H|]);
      inversion H. }
  split; [|split].
  - apply (Get_Set_round_trip "cpu" "gpu" "memory" "disk" five_cpus "memory" "memory" 2048 Hd).
    right. right. left. reflexivity.
  - apply (Get_Set_round_trip "cpu" "gpu" "memory" "disk" five_cpus "memory" "cpu" 2048 Hd).
    discriminate.
  - apply (Get_Set_round_trip "cpu" "gpu" "memory" "disk" five_cpus "ssd" "ssd" 2048 Hd).
    unfold knownKind. intuition discriminate.
Defined.

End Scalar.

(* ===================================================================== *)
(** * common/recovery: batched recovery of jobs and tasks                  *)
(* ===================================================================== *)

Module Recovery.

#[local] Open Scope Z_scope.

(** ** Data *)

(** Go's [uint32] arithmetic wraps around modulo [2^32]. *)
Definition u32 (z : Z) : Z := z mod 2 ^ 32.

(** [requeueTaskBatchSize = uint32(1000)], [requeueJobBatchSize = uint32(10)] *)
Definition requeueTaskBatchSize : Z := 1000.
Definition requeueJobBatchSize : Z := 10.

(** [type TasksBatch struct { From uint32; To uint32 }] *)
Record TasksBatch : Set := mkTasksBatch { From : Z; To : Z }.

(** [job.SlaConfig] and [job.JobConfig], restricted to the fields that
    [createTaskBatches] reads.  [SLA] is a pointer, and the generated
    getters return 0 on nil. *)
Record SlaConfig : Set := mkSlaConfig { MinimumRunningInstances : Z }.
Record JobConfig : Set := mkJobConfig { InstanceCount : Z; SLA : option SlaConfig }.

Definition GetMinimumRunningInstances (c : JobConfig) : Z :=
  match SLA c with
  | Some sla => MinimumRunningInstances sla
  | None => 0
  end.

(** A job config as Go can hold it: both counters are [uint32] values. *)
Definition wellTyped (c : JobConfig) : Prop :=
  0 <= InstanceCount c < 2 ^ 32 /\ 0 <= GetMinimumRunningInstances c < 2 ^ 32.

(** ** [createTaskBatches] *)

(** The loop [for i := initialSingleInstance; i <= rangevar; i++], with
    the batches it appends listed in order.  [fuel] bounds the number of
    iterations; [taskLoop_fuel] shows that the loop leaves by its own
    test before the fuel given by [createTaskBatches] runs out. *)
Fixpoint taskLoop (fuel : nat) (i rangevar numSingleInstances : Z) : list TasksBatch :=
  match fuel with
  | O => []
  | S fuel' =>
      if i <=? rangevar then
        let From := u32 (i * requeueTaskBatchSize) in
        let To := Z.min (u32 ((i + 1) * requeueTaskBatchSize)) numSingleInstances in
        mkTasksBatch From To :: taskLoop fuel' (u32 (i + 1)) rangevar numSingleInstances
      else []
  end.

(** [func createTaskBatches(config *job.JobConfig) []TasksBatch] *)
Definition createTaskBatches (config : JobConfig) : list TasksBatch :=
  let initialSingleInstance := 0 in
  let numSingleInstances := InstanceCount config in
  let minInstances := GetMinimumRunningInstances config in
  let '(batches, numSingleInstances, initialSingleInstance) :=
    if 1 <? minInstances
    then ([mkTasksBatch 0 minInstances],
          u32 (numSingleInstances - minInstances),
          u32 (initialSingleInstance + minInstances))
    else ([], numSingleInstances, initialSingleInstance) in
  if 0 <? numSingleInstances then
    let rangevar := numSingleInstances / requeueTaskBatchSize in
    batches ++ taskLoop (Z.to_nat (rangevar + 1)) initialSingleInstance
                        rangevar numSingleInstances
  else batches.

(** A batch stands for the half-open range of instance ids [From, To). *)
Definition inBatch (j : Z) (b : TasksBatch) : bool :=
  (From b <=? j) && (j <? To b).

(** In how many batches instance [j] falls. *)
Definition coverage (j : Z) (batches : list TasksBatch) : nat :=
  length (List.filter (inBatch j) batches).

(** ** [recoverJobsBatch] and [RecoverJobsByState] *)

(** Go's [error] values, by the kind the storage layer reports. *)
Inductive error : Set :=
  | ErrNotFound
  | ErrUnavailable
  | ErrDeadlineExceeded
  | ErrInternal.

(** [job.JobState] *)
Inductive JobState : Set :=
  | JobState_UNKNOWN | JobState_INITIALIZED | JobState_PENDING
  | JobState_RUNNING | JobState_SUCCEEDED | JobState_FAILED
  | JobState_KILLED | JobState_KILLING | JobState_UNINITIALIZED
  | JobState_DELETED.

(** [job.RuntimeInfo], restricted to what recovery reads.  [UpdateID] is a
    pointer; [GetUpdateID().GetValue()] is the empty string on nil. *)
Record RuntimeInfo : Set := mkRuntimeInfo {
  State : JobState;
  GoalState : JobState;
  UpdateID : option string
}.

Definition GetUpdateIDValue (r : RuntimeInfo) : string :=
  match UpdateID r with
  | Some v => v
  | None => EmptyString
  end.

(** [models.ConfigAddOn] *)
Record ConfigAddOn : Set := mkConfigAddOn { SystemLabels : list string }.

(** The part of [storage.JobStore] that recovery calls.  A read returns
    either an error or its value. *)
Record JobStore : Type := mkJobStore {
  GetJobsByStates : list JobState -> error + list string;
  GetJobRuntime : string -> error + RuntimeInfo;
  GetJobConfig : string -> error + (JobConfig * ConfigAddOn)
}.

(** What [recoverJobsBatch] does with one job, in the order of the batch:
    the two [continue]s, the two [errChan <- err; return]s, and a job
    recovered. *)
Inductive event : Set :=
  | RuntimeLoadFailed (jobID : string) (err : error)
  | TerminalJobSkipped (jobID : string)
  | ConfigLoadFailed (jobID : string) (err : error)
  | RecoverJobFailed (jobID : string) (err : error)
  | JobRecovered (jobID : string).

Section RecoverJobs.

(** Modelled from the spec: [util.IsPelotonJobStateTerminal] is declared in
    package [util], which is not among the sources; it tells the terminal
    job states apart and is a parameter here. *)
Variable IsPelotonJobStateTerminal : JobState -> bool.

(** [recoverJob] starts one goroutine per task batch and returns nil or an
    error one of them reported; its outcome for a job is a parameter of
    the sequential code that calls it. *)
Variable recoverJob : string -> JobConfig -> ConfigAddOn -> RuntimeInfo -> option error.

Variable jobStore : JobStore.

(** [func recoverJobsBatch(ctx, jobStore, batch, errChan, f)]: the events of
    the loop and the error sent on [errChan], if any. *)
Fixpoint recoverJobsBatch (jobs : list string) : list event * option error :=
  match jobs with
  | [] => ([], None)
  | jobID :: rest =>
      match GetJobRuntime jobStore jobID with
      | inl err =>
          (* logged; continue *)
          let '(events, sent) := recoverJobsBatch rest in
          (RuntimeLoadFailed jobID err :: events, sent)
      | inr jobRuntime =>
          if IsPelotonJobStateTerminal (State jobRuntime) &&
             IsPelotonJobStateTerminal (GoalState jobRuntime) &&
             (String.length (GetUpdateIDValue jobRuntime) =? 0)%nat
          then
            let '(events, sent) := recoverJobsBatch rest in
            (TerminalJobSkipped jobID :: events, sent)
          else
            match GetJobConfig jobStore jobID with
            | inl err => ([ConfigLoadFailed jobID err], Some err)
            | inr (jobConfig, configAddOn) =>
                match recoverJob jobID jobConfig configAddOn jobRuntime with
                | Some err => ([RecoverJobFailed jobID err], Some err)
                | None =>
                    let '(events, sent) := recoverJobsBatch rest in
                    (JobRecovered jobID :: events, sent)
                end
            end
      end
  end.

(** [jobIDS[from:to]] *)
Definition slice (jobIDS : list string) (from to : Z) : list string :=
  firstn (Z.to_nat (to - from)) (skipn (Z.to_nat from) jobIDS).

(** The loop of [createJobBatches], as [taskLoop] above. *)
Fixpoint jobLoop (fuel : nat) (i rangevar numJobs : Z) (jobIDS : list string)
  : list (list string) :=
  match fuel with
  | O => []
  | S fuel' =>
      if i <=? rangevar then
        let from := u32 (i * requeueJobBatchSize) in
        let to := Z.min (u32 ((i + 1) * requeueJobBatchSize)) numJobs in
        slice jobIDS from to :: jobLoop fuel' (u32 (i + 1)) rangevar numJobs jobIDS
      else []
  end.

(** [func createJobBatches(jobIDS []peloton.JobID) []JobsBatch] *)
Definition createJobBatches (jobIDS : list string) : list (list string) :=
  let numJobs := u32 (Z.of_nat (length jobIDS)) in
  let rangevar := numJobs / requeueJobBatchSize in
  jobLoop (Z.to_nat (rangevar + 1)) 0 rangevar numJobs jobIDS.

(** The errors the batches of a recovery send on the error channel. *)
Definition sentErrors (batches : list (list string)) : list error :=
  omap (fun batch => snd (recoverJobsBatch batch)) batches.

(** [func RecoverJobsByState(ctx, jobStore, jobStates, f) error].  The
    batches run as goroutines; the caller receives nil when no batch sent
    an error and otherwise one of the errors sent, whichever the scheduler
    delivers first.  The function lists the values the call can return.
    ([GetActiveJobs] is read for a log line only and has no part in the
    result.) *)
Definition RecoverJobsByState (jobStates : list JobState) : list (option error) :=
  match GetJobsByStates jobStore jobStates with
  | inl err => [Some err]
  | inr jobsIDs =>
      match sentErrors (createJobBatches jobsIDs) with
      | [] => [None]
      | errs => map Some errs
      end
  end.

End RecoverJobs.

(** One choice of the terminal job states, used in the examples below. *)
Definition terminalJobState (s : JobState) : bool :=
  match s with
  | JobState_SUCCEEDED | JobState_FAILED | JobState_KILLED | JobState_DELETED => true
  | _ => false
  end.

(** ** Properties of [createTaskBatches] *)

Lemma u32_small z : 0 <= z < 2 ^ 32 -> u32 z = z.
Proof. intros H. unfold u32. apply Z.mod_small, H. Qed.

(** The loop stops by its own test: more fuel than
    [rangevar + 1 - i] iterations is never used. *)
Lemma taskLoop_fuel fuel : forall extra i rangevar n,
  0 <= i -> rangevar < 2 ^ 32 - 1 ->
  rangevar + 1 - i <= Z.of_nat fuel ->
  taskLoop (fuel + extra) i rangevar n = taskLoop fuel i rangevar n.
Proof.
  induction fuel as [|fuel IH]; intros extra i rangevar n Hi Hr Hfuel.
  - destruct extra as [|extra]; [reflexivity|].
    cbn [Nat.add taskLoop]. destruct (Z.leb_spec i rangevar); [lia | reflexivity].
  - cbn [Nat.add taskLoop]. destruct (Z.leb_spec i rangevar) as [Hle|]; [|reflexivity].
    f_equal. rewrite (u32_small (i + 1)) by lia. apply IH; lia.
Qed.

(** The fuel that [createTaskBatches] gives its loop is enough for every
    job config: the loop ends by its test [i <= rangevar]. *)
Lemma createTaskBatches_fuel_suffices (extra : nat) (i n : Z) :
  0 <= i -> 0 <= n < 2 ^ 32 ->
  taskLoop (Z.to_nat (n / requeueTaskBatchSize + 1) + extra) i
           (n / requeueTaskBatchSize) n
  = taskLoop (Z.to_nat (n / requeueTaskBatchSize + 1)) i (n / requeueTaskBatchSize) n.
Proof.
  intros Hi Hn. unfold requeueTaskBatchSize.
  pose proof (Z.div_mod n 1000 ltac:(lia)) as Hdiv.
  pose proof (Z.mod_pos_bound n 1000 ltac:(lia)) as Hmod.
  apply taskLoop_fuel; lia.
Qed.

Lemma createTaskBatches_fuel_suffices_witness :
  taskLoop (Z.to_nat (2500 / requeueTaskBatchSize + 1) + 7) 0 (2500 / requeueTaskBatchSize) 2500
  = taskLoop (Z.to_nat (2500 / requeueTaskBatchSize + 1)) 0 (2500 / requeueTaskBatchSize) 2500.
Proof. apply (createTaskBatches_fuel_suffices 7 0 2500); lia. Defined.

Lemma coverage_cons j b bs :
  coverage j (b :: bs) = ((if inBatch j b then 1 else 0) + coverage j bs)%nat.
Proof. unfold coverage. cbn [List.filter]. destruct (inBatch j b); reflexivity. Qed.

Lemma coverage_app j bs cs :
  coverage j (bs ++ cs) = (coverage j bs + coverage j cs)%nat.
Proof. unfold coverage. rewrite List.filter_app, List.length_app. reflexivity. Qed.

Lemma div_1000_bounds n :
  0 <= n -> 1000 * (n / 1000) <= n < 1000 * (n / 1000) + 1000.
Proof.
  intros Hn. pose proof (Z.div_mod n 1000 ltac:(lia)).
  pose proof (Z.mod_pos_bound n 1000 ltac:(lia)). lia.
Qed.

(** What the loop covers when it starts at batch index [i] with the
    counters of a job without gang: the instances from [i * 1000] up to
    [n], once each. *)
Lemma taskLoop_coverage n j fuel : forall i,
  0 <= n < 4294967000 -> 0 <= i <= n / 1000 + 1 ->
  n / 1000 + 1 - i <= Z.of_nat fuel ->
  coverage j (taskLoop fuel i (n / 1000) n)
  = if (i * 1000 <=? j) && (j <? n) then 1%nat else 0%nat.
Proof.
  induction fuel as [|fuel IH]; intros i Hn Hi Hfuel;
    pose proof (div_1000_bounds n (proj1 Hn)) as Hdiv.
  - cbn [taskLoop coverage List.filter length].
    destruct (Z.leb_spec (i * 1000) j), (Z.ltb_spec j n); cbn [andb]; try reflexivity.
    exfalso. assert (i = n / 1000 + 1) by lia. subst i. lia.
  - cbn [taskLoop]. unfold requeueTaskBatchSize.
    destruct (Z.leb_spec i (n / 1000)) as [Hle|Hgt].
    + rewrite coverage_cons, (u32_small (i + 1)) by lia.
      rewrite IH by lia.
      unfold inBatch. cbn [From To].
      rewrite (u32_small (i * 1000)), (u32_small ((i + 1) * 1000)) by lia.
      destruct (Z.leb_spec (i * 1000) j), (Z.ltb_spec j n),
               (Z.ltb_spec j (Z.min ((i + 1) * 1000) n)),
               (Z.leb_spec ((i + 1) * 1000) j); cbn [andb]; try reflexivity; lia.
    + cbn [coverage List.filter length].
      destruct (Z.leb_spec (i * 1000) j), (Z.ltb_spec j n); cbn [andb]; try reflexivity.
      exfalso. lia.
Qed.

Lemma taskLoop_sizes n fuel : forall i,
  0 <= n < 4294967000 -> 0 <= i ->
  Forall (fun b => To b - From b <= 1000) (taskLoop fuel i (n / 1000) n).
Proof.
  induction fuel as [|fuel IH]; intros i Hn Hi; [constructor|].
  pose proof (div_1000_bounds n (proj1 Hn)) as Hdiv.
  cbn [taskLoop]. unfold requeueTaskBatchSize.
  destruct (Z.leb_spec i (n / 1000)) as [Hle|Hgt]; [|constructor].
  constructor.
  - cbn [From To]. rewrite (u32_small (i * 1000)), (u32_small ((i + 1) * 1000)) by lia. lia.
  - rewrite (u32_small (i + 1)) by lia. apply IH; lia.
Qed.

(** Without a gang ([MinimumRunningInstances <= 1]) and below the
    wrap-around of [(i + 1) * 1000], the batches cover every instance of
    the job exactly once, 1000 at a time. *)
Lemma createTaskBatches_no_gang config :
  0 <= InstanceCount config < 4294967000 ->
  GetMinimumRunningInstances config <= 1 ->
  (forall j, 0 <= j < InstanceCount config ->
             coverage j (createTaskBatches config) = 1%nat) /\
  Forall (fun b => To b - From b <= 1000) (createTaskBatches config).
Proof.
  intros Hn Hm. unfold createTaskBatches.
  pose proof (div_1000_bounds _ (proj1 Hn)) as Hdiv.
  destruct (Z.ltb_spec 1 (GetMinimumRunningInstances config)); [lia|].
  destruct (Z.ltb_spec 0 (InstanceCount config)) as [Hpos|Hzero].
  - cbn [app]. unfold requeueTaskBatchSize. split.
    + intros j Hj. rewrite taskLoop_coverage by lia.
      destruct (Z.leb_spec (0 * 1000) j), (Z.ltb_spec j (InstanceCount config));
        cbn [andb]; try reflexivity; lia.
    + apply taskLoop_sizes; lia.
  - split; [intros j Hj; lia | constructor].
Qed.

Lemma createTaskBatches_no_gang_witness :
  (forall j, 0 <= j < InstanceCount (mkJobConfig 2500 None) ->
             coverage j (createTaskBatches (mkJobConfig 2500 None)) = 1%nat) /\
  Forall (fun b => To b - From b <= 1000) (createTaskBatches (mkJobConfig 2500 None)).
Proof.
  apply (createTaskBatches_no_gang (mkJobConfig 2500 None)); cbn; lia.
Defined.

(** A job of ten instances that must start three of them as a gang. *)
Definition gangJob : JobConfig := mkJobConfig 10 (Some (mkSlaConfig 3)).

(** C1, at the failing input: for ten instances with a gang of three the
    only batch is the gang [0, 3); instances 3 to 9 are in no batch. *)
Theorem createTaskBatches_gang_skips_tail :
  wellTyped gangJob /\
  createTaskBatches gangJob = [mkTasksBatch 0 3] /\
  forall j, 3 <= j < 10 -> coverage j (createTaskBatches gangJob) = 0%nat.
Proof.
  split; [|split].
  - unfold wellTyped, gangJob. cbn. lia.
  - reflexivity.
  - intros j Hj. change (createTaskBatches gangJob) with [mkTasksBatch 0 3].
    unfold coverage, inBatch. cbn [List.filter From To].
    destruct (Z.ltb_spec j 3); [lia|]. rewrite andb_false_r. reflexivity.
Qed.

(** The same defect on a larger job: after the gang [0, 2) the loop starts
    at batch index 2, so instances 2 to 1999 are skipped, and the upper
    bound is the number of remaining instances, not the instance count. *)
Example createTaskBatches_gang_3000 :
  createTaskBatches (mkJobConfig 3000 (Some (mkSlaConfig 2)))
  = [mkTasksBatch 0 2; mkTasksBatch 2000 2998].
Proof. reflexivity. Qed.

Example createTaskBatches_2500 :
  createTaskBatches (mkJobConfig 2500 None)
  = [mkTasksBatch 0 1000; mkTasksBatch 1000 2000; mkTasksBatch 2000 2500].
Proof. reflexivity. Qed.

(** ** Properties of [recoverJobsBatch] *)

(** The job an event is about, and the error of the two events that end a
    batch. *)
Definition eventJob (ev : event) : string :=
  match ev with
  | RuntimeLoadFailed jobID _ | TerminalJobSkipped jobID
  | ConfigLoadFailed jobID _ | RecoverJobFailed jobID _
  | JobRecovered jobID => jobID
  end.

Definition failure (ev : event) : option error :=
  match ev with
  | ConfigLoadFailed _ err | RecoverJobFailed _ err => Some err
  | _ => None
  end.

Section RecoverJobsFacts.

Variable IsPelotonJobStateTerminal : JobState -> bool.
Variable recoverJob : string -> JobConfig -> ConfigAddOn -> RuntimeInfo -> option error.
Variable jobStore : JobStore.

Let recoverBatch := recoverJobsBatch IsPelotonJobStateTerminal recoverJob jobStore.
Let recoverByState := RecoverJobsByState IsPelotonJobStateTerminal recoverJob jobStore.

(** The job is one that recovery does not pass over: not terminal in both
    states, or in the middle of an update. *)
Definition active (jobRuntime : RuntimeInfo) : Prop :=
  IsPelotonJobStateTerminal (State jobRuntime) &&
  IsPelotonJobStateTerminal (GoalState jobRuntime) &&
  (String.length (GetUpdateIDValue jobRuntime) =? 0)%nat = false.

(** An event agrees with what the store and [recoverJob] answer for its
    job. *)
Definition justified (ev : event) : Prop :=
  match ev with
  | RuntimeLoadFailed jobID err =>
      GetJobRuntime jobStore jobID = inl err
  | TerminalJobSkipped jobID =>
      exists jobRuntime,
        GetJobRuntime jobStore jobID = inr jobRuntime /\ ~ active jobRuntime
  | ConfigLoadFailed jobID err =>
      exists jobRuntime,
        GetJobRuntime jobStore jobID = inr jobRuntime /\ active jobRuntime /\
        GetJobConfig jobStore jobID = inl err
  | RecoverJobFailed jobID err =>
      exists jobRuntime jobConfig configAddOn,
        GetJobRuntime jobStore jobID = inr jobRuntime /\ active jobRuntime /\
        GetJobConfig jobStore jobID = inr (jobConfig, configAddOn) /\
        recoverJob jobID jobConfig configAddOn jobRuntime = Some err
  | JobRecovered jobID =>
      exists jobRuntime jobConfig configAddOn,
        GetJobRuntime jobStore jobID = inr jobRuntime /\ active jobRuntime /\
        GetJobConfig jobStore jobID = inr (jobConfig, configAddOn) /\
        recoverJob jobID jobConfig configAddOn jobRuntime = None
  end.

(** The jobs at which a batch ends with [err]: the runtime is read, the job
    is active, and the config read or [recoverJob] fails with [err].  A
    job whose runtime read fails is not among them, whatever the error. *)
Definition endsBatch (jobID : string) (err : error) : Prop :=
  exists jobRuntime,
    GetJobRuntime jobStore jobID = inr jobRuntime /\ active jobRuntime /\
    (GetJobConfig jobStore jobID = inl err \/
     exists jobConfig configAddOn,
       GetJobConfig jobStore jobID = inr (jobConfig, configAddOn) /\
       recoverJob jobID jobConfig configAddOn jobRuntime = Some err).

Lemma job_continues jobID :
  (forall err, ~ endsBatch jobID err) ->
  exists ev, eventJob ev = jobID /\ failure ev = None /\ justified ev /\
    forall rest, recoverBatch (jobID :: rest)
                 = (ev :: fst (recoverBatch rest), snd (recoverBatch rest)).
Proof.
  intros Hno. unfold recoverBatch. cbn [recoverJobsBatch].
  destruct (GetJobRuntime jobStore jobID) as [err|jobRuntime] eqn:Hr.
  { exists (RuntimeLoadFailed jobID err). split; [reflexivity|]. split; [reflexivity|].
    split; [exact Hr|].
    intros rest. destruct (recoverJobsBatch _ _ _ rest). reflexivity. }
  destruct (IsPelotonJobStateTerminal (State jobRuntime) &&
            IsPelotonJobStateTerminal (GoalState jobRuntime) &&
            (String.length (GetUpdateIDValue jobRuntime) =? 0)%nat) eqn:Hterm.
  { exists (TerminalJobSkipped jobID). split; [reflexivity|]. split; [reflexivity|]. split.
    - exists jobRuntime. split; [exact Hr|]. unfold active. rewrite Hterm. discriminate.
    - intros rest. destruct (recoverJobsBatch _ _ _ rest). reflexivity. }
  destruct (GetJobConfig jobStore jobID) as [err|[jobConfig configAddOn]] eqn:Hc.
  { exfalso. apply (Hno err). exists jobRuntime. split; [exact Hr|]. split; [exact Hterm|].
    left. exact Hc. }
  destruct (recoverJob jobID jobConfig configAddOn jobRuntime) as [err|] eqn:Hrec.
  { exfalso. apply (Hno err). exists jobRuntime. split; [exact Hr|]. split; [exact Hterm|].
    right. exists jobConfig, configAddOn. split; assumption. }
  exists (JobRecovered jobID). split; [reflexivity|]. split; [reflexivity|]. split.
  - exists jobRuntime, jobConfig, configAddOn.
    split; [exact Hr|]. split; [exact Hterm|]. split; [exact Hc | exact Hrec].
  - intros rest. destruct (recoverJobsBatch _ _ _ rest). reflexivity.
Qed.

Lemma job_ends jobID err :
  endsBatch jobID err ->
  exists ev, eventJob ev = jobID /\ failure ev = Some err /\ justified ev /\
    forall rest, recoverBatch (jobID :: rest) = ([ev], Some err).
Proof.
  intros (jobRuntime & Hr & Ha & [Hc|(jobConfig & configAddOn & Hc & Hrec)]);
    unfold recoverBatch; cbn [recoverJobsBatch]; rewrite Hr; unfold active in Ha; rewrite Ha, Hc.
  - exists (ConfigLoadFailed jobID err). split; [reflexivity|]. split; [reflexivity|].
    split; [|reflexivity].
    exists jobRuntime. split; [exact Hr|]. split; [exact Ha | exact Hc].
  - rewrite Hrec. exists (RecoverJobFailed jobID err).
    split; [reflexivity|]. split; [reflexivity|]. split; [|reflexivity].
    exists jobRuntime, jobConfig, configAddOn.
    split; [exact Hr|]. split; [exact Ha|]. split; [exact Hc | exact Hrec].
Qed.

Lemma batch_processed jobs :
  Forall (fun jobID => forall err, ~ endsBatch jobID err) jobs ->
  exists events,
    recoverBatch jobs = (events, None) /\
    map eventJob events = jobs /\
    Forall justified events /\
    Forall (fun ev => failure ev = None) events.
Proof.
  induction jobs as [|jobID rest IH]; intros Hno.
  - exists []. repeat split; constructor.
  - inversion Hno as [|? ? Hj Hrest]; subst.
    destruct (IH Hrest) as (events & Hrun & Hjobs & Hjust & Hok).
    destruct (job_continues jobID Hj) as (ev & Hev & Hfail & Hjev & Hstep).
    exists (ev :: events). rewrite Hstep, Hrun. cbn [fst snd map].
    rewrite Hev, Hjobs. repeat split; constructor; assumption.
Qed.

Lemma batch_stops before jobID rest err :
  Forall (fun jobID' => forall err', ~ endsBatch jobID' err') before ->
  endsBatch jobID err ->
  exists events ev,
    recoverBatch (before ++ jobID :: rest) = (events ++ [ev], Some err) /\
    map eventJob events = before /\
    eventJob ev = jobID /\ failure ev = Some err /\
    Forall justified (events ++ [ev]) /\
    Forall (fun ev' => failure ev' = None) events.
Proof.
  intros Hno Hends.
  destruct (job_ends jobID err Hends) as (ev & Hev & Hfail & Hjev & Hstop).
  induction before as [|jobID' before IH].
  - exists [], ev. cbn [app map]. rewrite Hstop.
    repeat split; try assumption; repeat constructor; assumption.
  - inversion Hno as [|? ? Hj Hbefore]; subst.
    destruct (IH Hbefore) as (events & ev' & Hrun & Hjobs & Hev' & Hfail' & Hjust & Hok).
    destruct (job_continues jobID' Hj) as (ev0 & Hev0 & Hfail0 & Hjev0 & Hstep).
    exists (ev0 :: events), ev'. cbn [app]. rewrite Hstep, Hrun. cbn [fst snd map app].
    rewrite Hev0, Hjobs. repeat split; try assumption; constructor; assumption.
Qed.

Lemma sent_error_is_returned jobStates jobsIDs batch err :
  GetJobsByStates jobStore jobStates = inr jobsIDs ->
  batch ∈ createJobBatches jobsIDs ->
  snd (recoverBatch batch) = Some err ->
  Some err ∈ recoverByState jobStates /\ None ∉ recoverByState jobStates.
Proof.
  intros Hids Hin Hsent. unfold recoverByState, RecoverJobsByState. rewrite Hids.
  assert (Herr : err ∈ sentErrors IsPelotonJobStateTerminal recoverJob jobStore
                        (createJobBatches jobsIDs)).
  { unfold sentErrors. apply list_elem_of_omap. exists batch. split; assumption. }
  destruct (sentErrors _ _ _ _) as [|e errs] eqn:E.
  - inversion Herr.
  - rewrite !list_elem_of_In, !in_map_iff. split.
    + exists err. split; [reflexivity | apply list_elem_of_In, Herr].
    + intros (x & Hx & _). discriminate Hx.
Qed.

End RecoverJobsFacts.

(** A store in which the runtime of [job-1] cannot be read because the
    storage is unavailable, while [job-2] is a running batch job. *)
Definition flakyStore : JobStore :=
  mkJobStore
    (fun _ => inr ["job-1"; "job-2"]%string)
    (fun jobID => if String.eqb jobID "job-1"
                  then inl ErrUnavailable
                  else inr (mkRuntimeInfo JobState_RUNNING JobState_SUCCEEDED None))
    (fun _ => inr (mkJobConfig 10 None, mkConfigAddOn [])).

(** A store of four running jobs in which the runtime of [job-1] cannot be
    read because the storage is unavailable and the config of [job-3] is
    missing. *)
Definition staleStore : JobStore :=
  mkJobStore
    (fun _ => inr ["job-1"; "job-2"; "job-3"; "job-4"]%string)
    (fun jobID => if String.eqb jobID "job-1"
                  then inl ErrUnavailable
                  else inr (mkRuntimeInfo JobState_RUNNING JobState_SUCCEEDED None))
    (fun jobID => if String.eqb jobID "job-3"
                  then inl ErrNotFound
                  else inr (mkJobConfig 10 None, mkConfigAddOn [])).

Definition recoverJobOK : string -> JobConfig -> ConfigAddOn -> RuntimeInfo -> option error :=
  fun _ _ _ _ => None.

(** C3, counterexample: the runtime read of [job-1] fails with Unavailable,
    which is not NotFound; the job is skipped all the same, [job-2] is
    recovered, and the caller gets no error. *)
Lemma runtime_error_other_than_NotFound_does_not_abort :
  GetJobRuntime flakyStore "job-1" = inl ErrUnavailable /\
  ErrUnavailable <> ErrNotFound /\
  recoverJobsBatch terminalJobState recoverJobOK flakyStore ["job-1"; "job-2"]%string
  = ([RuntimeLoadFailed "job-1" ErrUnavailable; JobRecovered "job-2"], None) /\
  RecoverJobsByState terminalJobState recoverJobOK flakyStore [JobState_RUNNING] = [None].
Proof.
  repeat split; try reflexivity. discriminate.
Qed.

(** C3 (amended): [recoverJobsBatch] goes through the jobs of a batch in
    order.  A job whose [GetJobRuntime] read fails, with NotFound or with
    any other error, is logged and skipped, and so is a job that is
    terminal: as long as no config read and no [recoverJob] of an active
    job fails, every job of the batch gets its event, in order, and no
    error is sent.  At the first active job whose [GetJobConfig] read (or
    whose [recoverJob]) fails the batch ends: the error is sent on the
    error channel and the jobs after it are not looked at.  An error sent
    by a batch is what [RecoverJobsByState] returns to its caller, never
    nil. *)
Theorem recoverJobsBatch_error_handling
    (IsPelotonJobStateTerminal : JobState -> bool)
    (recoverJob : string -> JobConfig -> ConfigAddOn -> RuntimeInfo -> option error)
    (jobStore : JobStore) (before : list string) :
  Forall (fun jobID =>
            forall err, ~ endsBatch IsPelotonJobStateTerminal recoverJob jobStore jobID err)
         before ->
  (exists events,
     recoverJobsBatch IsPelotonJobStateTerminal recoverJob jobStore before = (events, None) /\
     map eventJob events = before /\
     Forall (justified IsPelotonJobStateTerminal recoverJob jobStore) events /\
     Forall (fun ev => failure ev = None) events) /\
  (forall jobID rest err,
     endsBatch IsPelotonJobStateTerminal recoverJob jobStore jobID err ->
     exists events ev,
       recoverJobsBatch IsPelotonJobStateTerminal recoverJob jobStore
                        (before ++ jobID :: rest)
       = (events ++ [ev], Some err) /\
       map eventJob events = before /\
       eventJob ev = jobID /\ failure ev = Some err /\
       Forall (justified IsPelotonJobStateTerminal recoverJob jobStore) (events ++ [ev]) /\
       Forall (fun ev' => failure ev' = None) events) /\
  (forall jobStates jobsIDs batch err,
     GetJobsByStates jobStore jobStates = inr jobsIDs ->
     batch ∈ createJobBatches jobsIDs ->
     snd (recoverJobsBatch IsPelotonJobStateTerminal recoverJob jobStore batch) = Some err ->
     Some err ∈ RecoverJobsByState IsPelotonJobStateTerminal recoverJob jobStore jobStates /\
     None ∉ RecoverJobsByState IsPelotonJobStateTerminal recoverJob jobStore jobStates).
Proof.
  intros Hno. split; [|split].
  - apply batch_processed, Hno.
  - intros jobID rest err. apply batch_stops, Hno.
  - intros jobStates jobsIDs batch err. apply sent_error_is_returned.
Qed.

(** On [staleStore]: [job-1] (runtime unreadable) and [job-2] are gone
    through without an error; the batch of the four jobs ends at [job-3]
    with NotFound, which is what the caller gets. *)
Lemma recoverJobsBatch_error_handling_witness :
  (exists events,
     recoverJobsBatch terminalJobState recoverJobOK staleStore ["job-1"; "job-2"]%string
     = (events, None) /\
     map eventJob events = ["job-1"; "job-2"]%string /\
     Forall (justified terminalJobState recoverJobOK staleStore) events /\
     Forall (fun ev => failure ev = None) events) /\
  (exists events ev,
     recoverJobsBatch terminalJobState recoverJobOK staleStore
                      (["job-1"%string; "job-2"%string] ++ "job-3"%string :: ["job-4"%string])
     = (events ++ [ev], Some ErrNotFound) /\
     map eventJob events = ["job-1"; "job-2"]%string /\
     eventJob ev = "job-3"%string /\ failure ev = Some ErrNotFound /\
     Forall (justified terminalJobState recoverJobOK staleStore) (events ++ [ev]) /\
     Forall (fun ev' => failure ev' = None) events) /\
  (Some ErrNotFound ∈ RecoverJobsByState terminalJobState recoverJobOK staleStore
                        [JobState_RUNNING] /\
   None ∉ RecoverJobsByState terminalJobState recoverJobOK staleStore [JobState_RUNNING]).
Proof.
  destruct (recoverJobsBatch_error_handling terminalJobState recoverJobOK staleStore
              ["job-1"; "job-2"]%string) as (Hskip & Hstop & Hsent).
  - repeat constructor.
    + intros err (jobRuntime & Hr & _). discriminate Hr.
    + intros err (jobRuntime & _ & _ & [Hc|(jobConfig & configAddOn & _ & Hrec)]).
      * discriminate Hc.
      * discriminate Hrec.
  - split; [exact Hskip|]. split.
    + apply Hstop. exists (mkRuntimeInfo JobState_RUNNING JobState_SUCCEEDED None).
      split; [reflexivity|]. split; [reflexivity|]. left. reflexivity.
    + apply (Hsent [JobState_RUNNING] ["job-1"; "job-2"; "job-3"; "job-4"]%string
                   ["job-1"; "job-2"; "job-3"; "job-4"]%string).
      * reflexivity.
      * vm_compute. left.
      * reflexivity.
Defined.

Example staleStore_events :
  recoverJobsBatch terminalJobState recoverJobOK staleStore
                   ["job-1"; "job-2"; "job-3"; "job-4"]%string
  = ([RuntimeLoadFailed "job-1" ErrUnavailable; JobRecovered "job-2";
      ConfigLoadFailed "job-3" ErrNotFound], Some ErrNotFound).
Proof. reflexivity. Qed.

Example createJobBatches_25 :
  map (@length string) (createJobBatches (repeat "j"%string 25)) = [10; 10; 5]%nat.
Proof. reflexivity. Qed.

(* --------------------------------------------------------------------- *)
(** ** More on the batches and on the recovery of a batch                 *)
(* --------------------------------------------------------------------- *)

(** X3: with a gang of [m >= 2] instances in a job of fewer than
    [1001 * m] instances, the gang batch [0, m) is the only batch: the loop
    starts at batch index [m], which is already above [rangevar], so none
    of the instances from [m] on is in a batch. *)
Theorem createTaskBatches_gang_only (config : JobConfig) :
  1 < GetMinimumRunningInstances config ->
  GetMinimumRunningInstances config <= InstanceCount config ->
  InstanceCount config < 1001 * GetMinimumRunningInstances config ->
  InstanceCount config < 2 ^ 32 ->
  createTaskBatches config = [mkTasksBatch 0 (GetMinimumRunningInstances config)] /\
  forall j, GetMinimumRunningInstances config <= j ->
            coverage j (createTaskBatches config) = 0%nat.
Proof.
  intros Hm Hle Hlt Hn.
  set (m := GetMinimumRunningInstances config) in *.
  set (n := InstanceCount config) in *.
  assert (E : createTaskBatches config = [mkTasksBatch 0 m]).
  { unfold createTaskBatches. fold m n.
    destruct (Z.ltb_spec 1 m) as [_|]; [|lia].
    rewrite (u32_small (n - m)), (u32_small (0 + m)) by lia.
    destruct (Z.ltb_spec 0 (n - m)) as [Hpos|]; [|reflexivity].
    unfold requeueTaskBatchSize.
    pose proof (div_1000_bounds (n - m) ltac:(lia)) as Hdiv.
    destruct (Z.to_nat ((n - m) / 1000 + 1)) as [|fuel] eqn:Hfuel; [lia|].
    cbn [taskLoop]. destruct (Z.leb_spec (0 + m) ((n - m) / 1000)); [lia | reflexivity]. }
  split; [exact E|]. intros j Hj. rewrite E.
  unfold coverage, inBatch. cbn [List.filter From To].
  destruct (Z.ltb_spec j m); [lia|]. rewrite andb_false_r. reflexivity.
Qed.

Lemma createTaskBatches_gang_only_witness :
  createTaskBatches (mkJobConfig 3000 (Some (mkSlaConfig 5))) = [mkTasksBatch 0 5] /\
  forall j, 5 <= j -> coverage j (createTaskBatches (mkJobConfig 3000 (Some (mkSlaConfig 5)))) = 0%nat.
Proof.
  apply (createTaskBatches_gang_only (mkJobConfig 3000 (Some (mkSlaConfig 5)))); cbn; lia.
Defined.

(** [jobIDS[from:to]] on the rest of the list. *)
Lemma slice_skipn (l : list string) (a b : nat) :
  slice l (Z.of_nat a) (Z.of_nat (a + b)) = firstn b (skipn a l).
Proof.
  unfold slice. rewrite Nat2Z.id. f_equal. lia.
Qed.

Lemma jobLoop_partition (l : list string) fuel : forall i : nat,
  Z.of_nat (length l) < 4294967286 ->
  (i <= length l / 10 + 1)%nat ->
  (length l / 10 + 1 - i <= fuel)%nat ->
  let batches := jobLoop fuel (Z.of_nat i) (Z.of_nat (length l) / requeueJobBatchSize)
                         (Z.of_nat (length l)) l in
  concat batches = skipn (10 * i) l /\
  Forall (fun b => (length b <= 10)%nat) batches /\
  length batches = (length l / 10 + 1 - i)%nat.
Proof.
  unfold requeueJobBatchSize.
  assert (Hdivn : Z.of_nat (length l) / 10 = Z.of_nat (length l / 10))
    by (rewrite Nat2Z.inj_div; reflexivity).
  pose proof (Nat.div_mod_eq (length l) 10) as Hdm.
  pose proof (Nat.mod_upper_bound (length l) 10 ltac:(lia)) as Hmod.
  induction fuel as [|fuel IH]; intros i Hlen Hi Hfuel; cbn zeta.
  - cbn [jobLoop concat length]. assert (i = length l / 10 + 1)%nat by lia. subst i.
    split; [|split; [constructor | lia]].
    symmetry. apply skipn_all2. lia.
  - cbn [jobLoop]. unfold requeueJobBatchSize. rewrite Hdivn.
    destruct (Z.leb_spec (Z.of_nat i) (Z.of_nat (length l / 10))) as [Hle|Hgt].
    + rewrite (u32_small (Z.of_nat i * 10)), (u32_small ((Z.of_nat i + 1) * 10)),
              (u32_small (Z.of_nat i + 1)) by lia.
      replace (Z.of_nat i + 1) with (Z.of_nat (S i)) by lia.
      specialize (IH (S i) Hlen ltac:(lia) ltac:(lia)). cbn zeta in IH.
      rewrite Hdivn in IH. destruct IH as (IHc & IHf & IHl).
      set (k := Nat.min 10 (length l - 10 * i)).
      assert (Hslice : slice l (Z.of_nat i * 10)
                             (Z.min (Z.of_nat (S i) * 10) (Z.of_nat (length l)))
                       = firstn k (skipn (10 * i) l)).
      { replace (Z.of_nat i * 10) with (Z.of_nat (10 * i)) by lia.
        replace (Z.min (Z.of_nat (S i) * 10) (Z.of_nat (length l)))
          with (Z.of_nat (10 * i + k)) by (unfold k; lia).
        apply slice_skipn. }
      rewrite Hslice. cbn [concat length]. rewrite IHc, IHl.
      split; [|split].
      * assert (Hrest : skipn (10 * S i) l = skipn k (skipn (10 * i) l)).
        { rewrite skipn_skipn.
          destruct (Nat.le_gt_cases (10 * S i) (length l)) as [Hin|Hout].
          - f_equal. unfold k. lia.
          - rewrite !skipn_all2; [reflexivity | unfold k; lia | lia]. }
        rewrite Hrest. apply firstn_skipn.
      * constructor; [|exact IHf]. rewrite length_firstn. unfold k. lia.
      * lia.
    + cbn [concat length]. assert (i = length l / 10 + 1)%nat by lia. subst i.
      split; [|split; [constructor | lia]].
      symmetry. apply skipn_all2. lia.
Qed.

(** X4: [createJobBatches] cuts the job ids into consecutive batches: put
    end to end the batches give the ids back in their order, no batch has
    more than 10 ids, and there are always [n / 10 + 1] batches, so the
    last one is empty when the number of ids is a multiple of 10. *)
Theorem createJobBatches_partition (jobIDS : list string) :
  Z.of_nat (length jobIDS) < 4294967286 ->
  concat (createJobBatches jobIDS) = jobIDS /\
  Forall (fun b => (length b <= 10)%nat) (createJobBatches jobIDS) /\
  length (createJobBatches jobIDS) = (length jobIDS / 10 + 1)%nat.
Proof.
  intros Hlen. unfold createJobBatches.
  rewrite (u32_small (Z.of_nat (length jobIDS))) by lia.
  pose proof (jobLoop_partition jobIDS
                (Z.to_nat (Z.of_nat (length jobIDS) / requeueJobBatchSize + 1)) 0%nat
                Hlen ltac:(lia)) as H.
  cbn zeta in H. change (Z.of_nat 0) with 0 in H.
  assert (Hdivn : Z.of_nat (length jobIDS) / requeueJobBatchSize
                  = Z.of_nat (length jobIDS / 10))
    by (unfold requeueJobBatchSize; rewrite Nat2Z.inj_div; reflexivity).
  destruct H as (Hc & Hf & Hl); [rewrite Hdivn; lia|].
  rewrite Nat.sub_0_r in Hl. auto.
Qed.

Lemma createJobBatches_partition_witness :
  concat (createJobBatches (repeat "j"%string 20)) = repeat "j"%string 20 /\
  Forall (fun b => (length b <= 10)%nat) (createJobBatches (repeat "j"%string 20)) /\
  length (createJobBatches (repeat "j"%string 20)) = (length (repeat "j"%string 20) / 10 + 1)%nat.
Proof.
  apply (createJobBatches_partition (repeat "j"%string 20)). cbn. lia.
Defined.

Example createJobBatches_20 :
  map (@length string) (createJobBatches (repeat "j"%string 20)) = [10; 10; 0]%nat.
Proof. reflexivity. Qed.

Lemma no_failure_no_error
    (IsPelotonJobStateTerminal : JobState -> bool)
    (recoverJob : string -> JobConfig -> ConfigAddOn -> RuntimeInfo -> option error)
    (jobStore : JobStore) :
  (forall jobID, exists c, GetJobConfig jobStore jobID = inr c) ->
  (forall jobID c a r, recoverJob jobID c a r = None) ->
  forall jobs,
    snd (recoverJobsBatch IsPelotonJobStateTerminal recoverJob jobStore jobs) = None.
Proof.
  intros Hconfig Hrecover. induction jobs as [|jobID rest IH]; [reflexivity|].
  cbn [recoverJobsBatch].
  destruct (recoverJobsBatch _ _ _ rest) as [events sent]. cbn [snd] in IH. subst sent.
  destruct (GetJobRuntime jobStore jobID) as [err|jobRuntime]; [reflexivity|].
  destruct (_ && _ && _); [reflexivity|].
  destruct (Hconfig jobID) as [[jobConfig configAddOn] ->].
  rewrite Hrecover. reflexivity.
Qed.

(** X5: failed runtime reads alone never make a recovery fail.  When the
    list of jobs can be read, every config can be read and [recoverJob]
    reports no error, [RecoverJobsByState] returns nil whatever the
    [GetJobRuntime] reads return - also when all of them fail and no job
    is recovered at all. *)
Theorem RecoverJobsByState_ignores_runtime_errors
    (IsPelotonJobStateTerminal : JobState -> bool)
    (recoverJob : string -> JobConfig -> ConfigAddOn -> RuntimeInfo -> option error)
    (jobStore : JobStore) (jobStates : list JobState) (jobsIDs : list string) :
  GetJobsByStates jobStore jobStates = inr jobsIDs ->
  (forall jobID, exists c, GetJobConfig jobStore jobID = inr c) ->
  (forall jobID c a r, recoverJob jobID c a r = None) ->
  RecoverJobsByState IsPelotonJobStateTerminal recoverJob jobStore jobStates = [None].
Proof.
  intros Hids Hconfig Hrecover. unfold RecoverJobsByState. rewrite Hids.
  assert (E : sentErrors IsPelotonJobStateTerminal recoverJob jobStore
                (createJobBatches jobsIDs) = []).
  { unfold sentErrors. induction (createJobBatches jobsIDs) as [|batch batches IH];
      [reflexivity|].
    cbn [omap list_omap].
    rewrite (no_failure_no_error _ _ _ Hconfig Hrecover batch). exact IH. }
  rewrite E. reflexivity.
Qed.

(** A store whose runtime table cannot be read at all. *)
Definition unreadableStore : JobStore :=
  mkJobStore
    (fun _ => inr ["job-1"; "job-2"; "job-3"]%string)
    (fun _ => inl ErrUnavailable)
    (fun _ => inr (mkJobConfig 10 None, mkConfigAddOn [])).

Lemma RecoverJobsByState_ignores_runtime_errors_witness :
  RecoverJobsByState terminalJobState recoverJobOK unreadableStore [JobState_RUNNING] = [None].
Proof.
  apply (RecoverJobsByState_ignores_runtime_errors terminalJobState recoverJobOK
           unreadableStore [JobState_RUNNING] ["job-1"; "job-2"; "job-3"]%string).
  - reflexivity.
  - intros jobID. eexists. reflexivity.
  - reflexivity.
Defined.

End Recovery.

(* ===================================================================== *)
(** * lifecyclemgr: the v1 lifecycle manager                              *)
(* ===================================================================== *)

Module Lifecycle.

#[local] Open Scope Z_scope.

(** ** Data *)

(** The yarpc error codes that [Kill] produces or passes on. *)
Inductive Code : Set :=
  | CodeInternal
  | CodeResourceExhausted
  | CodeUnavailable
  | CodeDeadlineExceeded
  | CodeNotFound.

(** A yarpc error: a code and a message. *)
Record yarpcError : Set := mkError { code : Code; message : string }.

(** Modelled from the spec: the [lockState] embedded in the manager is
    declared in a file of the package that is not among the sources.  The
    spec describes a process-level kill-lock that is toggled from outside;
    the constructor [newV1LifecycleMgr] starts it as [lockState{state: 0}],
    an integer of lock bits. *)
Record lockState : Set := mkLockState { state : Z }.

(** Modelled from the spec: the bit of [state] that stands for the
    kill-lock, and the methods that test, set and clear it. *)
Definition killLock : Z := 1.

Definition hasKillLock (l : lockState) : bool :=
  negb (Z.land (state l) killLock =? 0).

Definition LockKill (l : lockState) : lockState :=
  mkLockState (Z.lor (state l) killLock).

Definition UnlockKill (l : lockState) : lockState :=
  mkLockState (Z.ldiff (state l) killLock).

(** The counters of [Metrics] that [Kill] increments. *)
Record Metrics : Set := mkMetrics {
  mKill : Z;
  mKillFail : Z;
  mKillRateLimit : Z
}.

(** [v1_hostsvc.KillPodsRequest{PodIds: ...}] *)
Record KillPodsRequest : Set := mkKillPodsRequest { PodIds : list string }.

(** [*rate.Limiter] of golang.org/x/time/rate: a bucket of tokens.
    [Allow] takes one token when there is one.  A nil limiter is [None]. *)
Record Limiter : Set := mkLimiter { tokens : nat }.

Definition Allow (r : Limiter) : bool * Limiter :=
  match tokens r with
  | O => (false, r)
  | S n => (true, mkLimiter n)
  end.

(** [type v1LifecycleMgr struct { *lockState; hostManagerV1; metrics }].
    The host-manager client is what it answers to a request,
    [hostManagerV1], together with the requests it has been sent,
    [killPodsSent] (latest first). *)
Record v1LifecycleMgr : Type := mkMgr {
  lock : lockState;
  hostManagerV1 : KillPodsRequest -> option yarpcError;
  killPodsSent : list KillPodsRequest;
  metrics : Metrics
}.

(** [newV1LifecycleMgr] *)
Definition newV1LifecycleMgr (client : KillPodsRequest -> option yarpcError) : v1LifecycleMgr :=
  mkMgr (mkLockState 0) client [] (mkMetrics 0 0 0).

Definition incKill (m : Metrics) : Metrics :=
  mkMetrics (mKill m + 1) (mKillFail m) (mKillRateLimit m).
Definition incKillFail (m : Metrics) : Metrics :=
  mkMetrics (mKill m) (mKillFail m + 1) (mKillRateLimit m).
Definition incKillRateLimit (m : Metrics) : Metrics :=
  mkMetrics (mKill m) (mKillFail m) (mKillRateLimit m + 1).

Definition withMetrics (l : v1LifecycleMgr) (m : Metrics) : v1LifecycleMgr :=
  mkMgr (lock l) (hostManagerV1 l) (killPodsSent l) m.

(** The state a call leaves behind: the manager and the rate limiter. *)
Record KillResult : Type := mkKillResult {
  err : option yarpcError;
  mgr : v1LifecycleMgr;
  limiter : option Limiter
}.

(** [func (l *v1LifecycleMgr) Kill(ctx, podID, hostToReserve, rateLimiter) error] *)
Definition Kill (l : v1LifecycleMgr) (podID hostToReserve : string)
    (rateLimiter : option Limiter) : KillResult :=
  (* check lock *)
  if hasKillLock (lock l) then
    mkKillResult (Some (mkError CodeInternal "kill op is locked"))
                 (withMetrics l (incKillRateLimit (metrics l)))
                 rateLimiter
  else
    (* enforce rate limit *)
    let '(allowed, rateLimiter') :=
      match rateLimiter with
      | Some r => let '(ok, r') := Allow r in (ok, Some r')
      | None => (true, None)
      end in
    if negb allowed then
      mkKillResult (Some (mkError CodeResourceExhausted "rate limit reached for kill"))
                   (withMetrics l (incKillFail (metrics l)))
                   rateLimiter'
    else
      let request := mkKillPodsRequest [podID] in
      let l' := mkMgr (lock l) (hostManagerV1 l) (request :: killPodsSent l) (metrics l) in
      match hostManagerV1 l request with
      | Some e => mkKillResult (Some e) (withMetrics l' (incKillFail (metrics l'))) rateLimiter'
      | None => mkKillResult None (withMetrics l' (incKill (metrics l'))) rateLimiter'
      end.

(** The rate limiter lets the call through: there is none, or it has a token. *)
Definition allows (rateLimiter : option Limiter) : bool :=
  match rateLimiter with
  | Some r => fst (Allow r)
  | None => true
  end.

(** ** Properties of [Kill] *)

Lemma Kill_locked l podID host rateLimiter :
  hasKillLock (lock l) = true ->
  err (Kill l podID host rateLimiter) = Some (mkError CodeInternal "kill op is locked") /\
  killPodsSent (mgr (Kill l podID host rateLimiter)) = killPodsSent l.
Proof. intros H. unfold Kill. rewrite H. split; reflexivity. Qed.

Lemma Kill_unlocked_allowed l podID host rateLimiter :
  hasKillLock (lock l) = false -> allows rateLimiter = true ->
  killPodsSent (mgr (Kill l podID host rateLimiter))
    = mkKillPodsRequest [podID] :: killPodsSent l /\
  err (Kill l podID host rateLimiter) = hostManagerV1 l (mkKillPodsRequest [podID]).
Proof.
  intros Hl Ha. unfold Kill. rewrite Hl.
  destruct rateLimiter as [[n]|]; cbn in Ha |- *.
  - destruct n as [|n]; [discriminate Ha|]. cbn.
    destruct (hostManagerV1 l _); split; reflexivity.
  - destruct (hostManagerV1 l _); split; reflexivity.
Qed.

Lemma Kill_unlocked_limited l podID host rateLimiter :
  hasKillLock (lock l) = false -> allows rateLimiter = false ->
  err (Kill l podID host rateLimiter)
    = Some (mkError CodeResourceExhausted "rate limit reached for kill") /\
  killPodsSent (mgr (Kill l podID host rateLimiter)) = killPodsSent l.
Proof.
  intros Hl Ha. unfold Kill. rewrite Hl.
  destruct rateLimiter as [[n]|]; cbn in Ha |- *; [|discriminate Ha].
  destruct n as [|n]; [|discriminate Ha]. split; reflexivity.
Qed.

(** A manager whose host-manager accepts every request. *)
Definition idleMgr : v1LifecycleMgr := newV1LifecycleMgr (fun _ => None).

Definition lockedMgr : v1LifecycleMgr :=
  mkMgr (LockKill (lock idleMgr)) (hostManagerV1 idleMgr)
        (killPodsSent idleMgr) (metrics idleMgr).

(** C9, counterexample: the kill-lock is not held, but the rate limiter
    has no token left; the call returns ResourceExhausted and no KillPods
    request reaches the host-manager. *)
Lemma Kill_unlocked_but_rate_limited :
  hasKillLock (lock idleMgr) = false /\
  code <$> err (Kill idleMgr "pod-0" "" (Some (mkLimiter 0))) = Some CodeResourceExhausted /\
  killPodsSent (mgr (Kill idleMgr "pod-0" "" (Some (mkLimiter 0)))) = [].
Proof. repeat split. Qed.

(** C9 (amended): when the kill-lock is held, [Kill] returns an Internal
    error and sends no KillPods request; when the lock is not held and the
    rate limiter is nil or grants a token, the KillPods request for the
    pod is sent and its outcome is returned; when the lock is not held and
    the rate limiter refuses, [Kill] returns ResourceExhausted and sends
    nothing. *)
Theorem Kill_lock_and_rate_limit (l : v1LifecycleMgr) (podID host : string)
    (rateLimiter : option Limiter) :
  (hasKillLock (lock l) = true ->
     code <$> err (Kill l podID host rateLimiter) = Some CodeInternal /\
     killPodsSent (mgr (Kill l podID host rateLimiter)) = killPodsSent l) /\
  (hasKillLock (lock l) = false -> allows rateLimiter = true ->
     killPodsSent (mgr (Kill l podID host rateLimiter))
       = mkKillPodsRequest [podID] :: killPodsSent l /\
     err (Kill l podID host rateLimiter) = hostManagerV1 l (mkKillPodsRequest [podID])) /\
  (hasKillLock (lock l) = false -> allows rateLimiter = false ->
     code <$> err (Kill l podID host rateLimiter) = Some CodeResourceExhausted /\
     killPodsSent (mgr (Kill l podID host rateLimiter)) = killPodsSent l).
Proof.
  split; [|split].
  - intros H. destruct (Kill_locked l podID host rateLimiter H) as [-> ->].
    split; reflexivity.
  - apply Kill_unlocked_allowed.
  - intros Hl Ha. destruct (Kill_unlocked_limited l podID host rateLimiter Hl Ha) as [-> ->].
    split; reflexivity.
Qed.

Lemma Kill_lock_and_rate_limit_witness :
  (code <$> err (Kill lockedMgr "pod-0" "" None) = Some CodeInternal /\
   killPodsSent (mgr (Kill lockedMgr "pod-0" "" None)) = []) /\
  (killPodsSent (mgr (Kill idleMgr "pod-0" "" (Some (mkLimiter 2))))
     = [mkKillPodsRequest ["pod-0"%string]] /\
   err (Kill idleMgr "pod-0" "" (Some (mkLimiter 2))) = None).
Proof.
  split.
  - apply (proj1 (Kill_lock_and_rate_limit lockedMgr "pod-0" "" None)). reflexivity.
  - apply (proj1 (proj2 (Kill_lock_and_rate_limit idleMgr "pod-0" "" (Some (mkLimiter 2)))));
      reflexivity.
Defined.

Example lock_then_unlock :
  hasKillLock (LockKill (mkLockState 0)) = true /\
  hasKillLock (UnlockKill (LockKill (mkLockState 0))) = false.
Proof. split; reflexivity. Qed.

(** ** Any number of calls *)






Example three_kills_one_token :
  let r1 := Kill idleMgr "pod-0" "" (Some (mkLimiter 1)) in
  let r2 := Kill (mgr r1) "pod-1" "" (limiter r1) in
  let r3 := Kill (mgr r2) "pod-2" "" (limiter r2) in
  killPodsSent (mgr r3) = [mkKillPodsRequest ["pod-0"%string]] /\
  metrics (mgr r3) = mkMetrics 1 2 0.
Proof. split; reflexivity. Qed.

End Lifecycle.

(* ===================================================================== *)
(** * resmgr/respool: the resource-pool tree                              *)
(* ===================================================================== *)

Module Respool.

#[local] Open Scope string_scope.

(** ** Data *)

(** [respool.SchedulingPolicy] *)
Inductive SchedulingPolicy : Set :=
  | SchedulingPolicy_UNKNOWN
  | SchedulingPolicy_PriorityFIFO.

(** [respool.ResourcePoolConfig], restricted to the fields the tree reads.
    [Parent] is a pointer to a [peloton.ResourcePoolID]; it is nil in the
    config of the root. *)
Record ResourcePoolConfig : Set := mkConfig {
  Name : string;
  Description : string;
  Parent : option string;
  Policy : SchedulingPolicy
}.

(** Nodes are Go pointers; a location stands for the address of a node. *)
Abbreviation loc := nat.

(** Modelled from the spec: the node type behind the [ResPool] interface
    ([resPool], with [NewRespool] and its methods) is declared in a file of
    the package that is not among the sources.  The spec's data model
    gives a node its id, its config, a parent reference, an ordered list
    of children and a demand queue of gangs; [Name()] is the name of the
    node's config, as for the root built by [initTree]. *)
Record resPool : Set := mkResPool {
  id : string;
  poolConfig : ResourcePoolConfig;
  parent : option loc;
  children : list loc;
  demandQueue : list Scalar.Gang
}.

(** The Go heap: the nodes that have been allocated, by address. *)
Abbreviation heap := (gmap loc resPool).

(** [type tree struct { root ResPool; resPools map[string]ResPool;
    updatedChan chan struct{}; ... }], together with the heap its pointers
    point into.  [updatedChan] has capacity 1: it is full or empty. *)
Record tree : Type := mkTree {
  root : option loc;
  resPools : gmap string loc;
  updatedChan : bool;
  nodes : heap
}.

(** The errors of the package, by the format string that builds them. *)
Inductive error : Set :=
  | ErrPoolNotFound (ID : string)          (* "resource pool (%s) not found", ID.Value *)
  | ErrPathNotFound (names : list string)  (* "resource pool (%s) not found", nodes *)
  | ErrNotInitialized                      (* "resource pool is not initialized" *)
  | ErrParentNil                           (* "parent is nil" *)
  | ErrNewRespool (ID : string)            (* the error of NewRespool *)
  | ErrWrap (msg : string) (cause : error) (* errors.Wrap(cause, msg) *).

(** A call that looks something up returns a value or an error, or panics
    (a nil pointer is dereferenced). *)
Inductive result (A : Type) : Type :=
  | Ok (a : A)
  | Err (e : error)
  | Panic.
Arguments Ok {A} a.
Arguments Err {A} e.
Arguments Panic {A}.

(** A call that works on the tree in place leaves a tree behind and
    returns nil or an error, or panics. *)
Inductive outcome : Type :=
  | Returns (t : tree) (err : option error)
  | Panics.

Definition bind {A B} (r : result A) (k : A -> result B) : result B :=
  match r with
  | Ok a => k a
  | Err e => Err e
  | Panic => Panic
  end.

Notation "'do' x <- r ; k" := (bind r (fun x => k))
  (at level 10, x name, r at level 100, k at level 200).

(** Following a pointer. *)
Definition deref (h : heap) (l : loc) : result resPool :=
  match h !! l with
  | Some n => Ok n
  | None => Panic
  end.

(** ** Paths *)

(** Modelled from the spec: [ResourcePoolPathDelimiter] is declared in a
    file of the package that is not among the sources; the spec gives the
    delimiter ["/"]. *)
Definition delimiter : ascii := "/"%char.
Definition ResourcePoolPathDelimiter : string := String delimiter EmptyString.

(** [strings.TrimPrefix(s, "/")] *)
Definition TrimPrefix (s : string) : string :=
  match s with
  | String c s' => if Ascii.eqb c delimiter then s' else s
  | EmptyString => s
  end.

(** [strings.TrimSuffix(s, "/")] *)
Fixpoint TrimSuffix (s : string) : string :=
  match s with
  | EmptyString => EmptyString
  | String c EmptyString => if Ascii.eqb c delimiter then EmptyString else s
  | String c s' => String c (TrimSuffix s')
  end.

(** [strings.Split(s, "/")] *)
Fixpoint Split (s : string) : list string :=
  match s with
  | EmptyString => [EmptyString]
  | String c s' =>
      if Ascii.eqb c delimiter then EmptyString :: Split s'
      else match Split s' with
           | w :: ws => String c w :: ws
           | [] => [String c EmptyString]
           end
  end.

(** [func (t *tree) trimPath(path *respool.ResourcePoolPath) string] *)
Definition trimPath (path : string) : string :=
  TrimPrefix (TrimSuffix path).

(** ** Operations of the tree *)

(** [func (t *tree) lookupResPool(ID *peloton.ResourcePoolID) (ResPool, error)] *)
Definition lookupResPool (t : tree) (ID : string) : result loc :=
  match resPools t !! ID with
  | Some val => Ok val
  | None => Err (ErrPoolNotFound ID)
  end.

(** [func (t *tree) Get(ID *peloton.ResourcePoolID) (ResPool, error)] *)
Definition Get (t : tree) (ID : string) : result loc := lookupResPool t ID.

(** [n.IsLeaf()]: the node has no children. *)
Definition IsLeaf (h : heap) (l : loc) : bool :=
  match h !! l with
  | Some n => match children n with [] => true | _ => false end
  | None => false
  end.

(** [func (t *tree) GetAllNodes(leafOnly bool) *list.List].  Go ranges over
    the map in no particular order; the list follows the order of
    [map_to_list]. *)
Definition GetAllNodes (t : tree) (leafOnly : bool) : list loc :=
  List.filter (fun n => negb leafOnly || IsLeaf (nodes t) n)
              (map snd (map_to_list (resPools t))).

(** The loop of [walkTree] over the children of a node: the first child
    whose name is [name], if any. *)
Fixpoint findChild (h : heap) (name : string) (cs : list loc) : result (option loc) :=
  match cs with
  | [] => Ok None
  | c :: cs' =>
      do child <- deref h c;
      if String.eqb (Name (poolConfig child)) name then Ok (Some c)
      else findChild h name cs'
  end.

(** [func (t *tree) walkTree(root ResPool, nodes []string) (ResPool, error)] *)
Fixpoint walkTree (h : heap) (root : loc) (names : list string) : result loc :=
  match names with
  | [] => Ok root
  | name :: rest =>
      do r <- deref h root;
      do found <- findChild h name (children r);
      match found with
      | Some child => walkTree h child rest
      | None => Err (ErrPathNotFound names)
      end
  end.

(** [func (t *tree) GetByPath(path *respool.ResourcePoolPath) (ResPool, error)] *)
Definition GetByPath (t : tree) (path : string) : result loc :=
  match root t with
  | None => Err ErrNotInitialized
  | Some r =>
      if String.eqb path ResourcePoolPathDelimiter then Ok r
      else
        let resPath := trimPath path in
        let names := Split resPath in
        match walkTree (nodes t) r names with
        | Ok resPool => Ok resPool
        | Err e => Err (ErrWrap "unable to find resource pool with path" e)
        | Panic => Panic
        end
  end.

Section Tree.

(** Modelled from the spec: [NewRespool] is not among the sources.  It
    builds a node without children and with an empty queue from the id,
    the parent and the config, or fails; which configs it accepts is a
    parameter. *)
Variable acceptsConfig : string -> ResourcePoolConfig -> bool.

Definition NewRespool (ID : string) (parent : option loc) (config : ResourcePoolConfig)
  : result resPool :=
  if acceptsConfig ID config
  then Ok (mkResPool ID config parent [] [])
  else Err (ErrNewRespool ID).

(** [resourcePool.SetResourcePoolConfig(resPoolConfig)] *)
Definition SetResourcePoolConfig (n : resPool) (config : ResourcePoolConfig) : resPool :=
  mkResPool (id n) config (parent n) (children n) (demandQueue n).

(** [parent.SetChildren(newChildren)], and [children.PushBack(resourcePool)]
    on the list that [parent.Children()] returns. *)
Definition SetChildren (n : resPool) (cs : list loc) : resPool :=
  mkResPool (id n) (poolConfig n) (parent n) cs (demandQueue n).

(** [func (t *tree) Upsert(ID *peloton.ResourcePoolID,
    resPoolConfig *respool.ResourcePoolConfig) error] *)
Definition Upsert (t : tree) (ID : string) (resPoolConfig : ResourcePoolConfig) : outcome :=
  match Parent resPoolConfig with
  | None => Panics (* lookupResPool reads parentID.Value *)
  | Some parentID =>
      (* check if parent exits *)
      match lookupResPool t parentID with
      | Panic => Panics
      | Err e => Returns t (Some (ErrWrap "parent does not exists" e))
      | Ok parent =>
          (* check if already exists *)
          match resPools t !! ID with
          | Some resourcePool =>
              (* update existing respool *)
              match nodes t !! resourcePool with
              | None => Panics
              | Some n =>
                  Returns (mkTree (root t)
                                  (<[ID := resourcePool]> (resPools t))
                                  true
                                  (<[resourcePool := SetResourcePoolConfig n resPoolConfig]>
                                     (nodes t)))
                          None
              end
          | None =>
              (* add resource pool *)
              match NewRespool ID (Some parent) resPoolConfig with
              | Panic => Panics
              | Err e => Returns t (Some (ErrWrap "failed to insert resource pool" e))
              | Ok n =>
                  let resourcePool := fresh (dom (nodes t)) in
                  let h := <[resourcePool := n]> (nodes t) in
                  (* link parent to child resource pool *)
                  match h !! parent with
                  | None => Panics
                  | Some p =>
                      Returns (mkTree (root t)
                                      (<[ID := resourcePool]> (resPools t))
                                      true
                                      (<[parent := SetChildren p (children p ++ [resourcePool])]> h))
                              None
                  end
              end
          end
      end
  end.

(** The first loop of [Delete]: the children of the parent other than the
    node that goes away. *)
Fixpoint otherChildren (h : heap) (ID : string) (cs : list loc) : result (list loc) :=
  match cs with
  | [] => Ok []
  | c :: cs' =>
      do child <- deref h c;
      do rest <- otherChildren h ID cs';
      Ok (if String.eqb (id child) ID then rest else c :: rest)
  end.

(** The second loop of [Delete]: [delete(t.resPools, child.ID())] for the
    children of the node. *)
Fixpoint deleteChildren (h : heap) (cs : list loc) (index : gmap string loc)
  : result (gmap string loc) :=
  match cs with
  | [] => Ok index
  | c :: cs' =>
      do child <- deref h c;
      deleteChildren h cs' (delete (id child) index)
  end.

(** [func (t *tree) Delete(respoolID *peloton.ResourcePoolID) error] *)
Definition Delete (t : tree) (respoolID : string) : outcome :=
  (* Lookup the resource pool. *)
  match lookupResPool t respoolID with
  | Panic => Panics
  | Err e => Returns t (Some e)
  | Ok resPool =>
      match nodes t !! resPool with
      | None => Panics
      | Some n =>
          (* Get the parent. *)
          match parent n with
          | None => Returns t (Some ErrParentNil)
          | Some parent =>
              match nodes t !! parent with
              | None => Panics
              | Some p =>
                  match otherChildren (nodes t) respoolID (children p) with
                  | Panic | Err _ => Panics
                  | Ok newChildren =>
                      (* Updating the parent's children. *)
                      let h := <[parent := SetChildren p newChildren]> (nodes t) in
                      (* Delete all children from the internal list. *)
                      match h !! resPool with
                      | None => Panics
                      | Some n' =>
                          match deleteChildren h (children n') (resPools t) with
                          | Panic | Err _ => Panics
                          | Ok index =>
                              (* delete the node itself *)
                              Returns (mkTree (root t) (delete respoolID index)
                                              (updatedChan t) h)
                                      None
                          end
                      end
                  end
              end
          end
      end
  end.

End Tree.

(** The tree that [initTree] builds when the store holds no resource pool:
    the root alone, with the config that [initTree] gives it. *)
Definition RootResPoolID : string := "root".

Definition rootConfig : ResourcePoolConfig :=
  mkConfig RootResPoolID "" None SchedulingPolicy_PriorityFIFO.

Definition rootOnly : tree :=
  mkTree (Some 0%nat)
         {[ RootResPoolID := 0%nat ]}
         false
         {[ 0%nat := mkResPool RootResPoolID rootConfig None [] [] ]}.

(** The tree after a call that returned, whatever it returned. *)
Definition after (o : outcome) (default : tree) : tree :=
  match o with
  | Returns t _ => t
  | Panics => default
  end.

(** ** Well-formed heaps *)

(** Every child pointer points to a node. *)
Definition closed (h : heap) : Prop :=
  forall l n, h !! l = Some n -> Forall (fun c => is_Some (h !! c)) (children n).

(** The ids of the nodes a list of pointers points to. *)
Definition childIDs (h : heap) (cs : list loc) : list string :=
  omap (fun c => id <$> h !! c) cs.

(** ** Properties of [Delete] *)

Lemma deleteChildren_lookup h cs : forall index index',
  deleteChildren h cs index = Ok index' ->
  forall k, index' !! k = if decide (k ∈ childIDs h cs) then None else index !! k.
Proof.
  induction cs as [|c cs IH]; intros index index' H k.
  - cbn in H. injection H as <-. rewrite decide_False; [reflexivity|].
    unfold childIDs. cbn. apply not_elem_of_nil.
  - cbn [deleteChildren] in H. unfold deref in H.
    unfold childIDs. cbn [omap list_omap].
    destruct (h !! c) as [child|] eqn:Hc; cbn in H |- *; [|discriminate H].
    rewrite (IH _ _ H k). fold (childIDs h cs).
    destruct (decide (k ∈ childIDs h cs)) as [Hin|Hnin].
    + rewrite decide_True; [reflexivity | apply elem_of_cons; right; exact Hin].
    + destruct (decide (k = id child)) as [->|Hne].
      * rewrite decide_True by (apply elem_of_cons; left; reflexivity).
        apply lookup_delete_eq.
      * rewrite decide_False by (rewrite elem_of_cons; intros [?|?]; contradiction).
        apply lookup_delete_ne. congruence.
Qed.

Lemma deleteChildren_returns h cs : forall index,
  Forall (fun c => is_Some (h !! c)) cs ->
  exists index', deleteChildren h cs index = Ok index'.
Proof.
  induction cs as [|c cs IH]; intros index H.
  - exists index. reflexivity.
  - inversion H as [|? ? [child Hc] Hcs]; subst.
    cbn [deleteChildren]. unfold deref. rewrite Hc. cbn. apply IH, Hcs.
Qed.

(** The children that stay: those whose id is not the one deleted. *)
Definition keeps (h : heap) (ID : string) (c : loc) : bool :=
  match h !! c with
  | Some child => negb (String.eqb (id child) ID)
  | None => true
  end.

Lemma otherChildren_returns h ID cs :
  Forall (fun c => is_Some (h !! c)) cs ->
  otherChildren h ID cs = Ok (List.filter (keeps h ID) cs).
Proof.
  induction cs as [|c cs IH]; intros H; [reflexivity|].
  inversion H as [|? ? [child Hc] Hcs]; subst.
  cbn [otherChildren List.filter]. unfold deref, keeps at 1. rewrite Hc. cbn.
  rewrite (IH Hcs). cbn. destruct (String.eqb (id child) ID); reflexivity.
Qed.

Lemma childIDs_SetChildren (h : heap) (pl : loc) p cs' cs :
  h !! pl = Some p ->
  childIDs (<[pl := mkResPool (id p) (poolConfig p) (parent p) cs' (demandQueue p)]> h) cs
  = childIDs h cs.
Proof.
  intros Hp. unfold childIDs. apply list_omap_ext.
  induction cs as [|c cs IH]; constructor; [|exact IH].
  destruct (decide (pl = c)) as [<-|Hne].
  - rewrite lookup_insert_eq, Hp. reflexivity.
  - rewrite lookup_insert_ne by exact Hne. reflexivity.
Qed.

Lemma closed_SetChildren (h : heap) (pl : loc) p cs' (c : loc) :
  is_Some (h !! c) ->
  is_Some (<[pl := mkResPool (id p) (poolConfig p) (parent p) cs' (demandQueue p)]> h !! c).
Proof.
  intros H. destruct (decide (pl = c)) as [<-|Hne].
  - rewrite lookup_insert_eq. eauto.
  - rewrite lookup_insert_ne by exact Hne. exact H.
Qed.

(** What a successful [Delete] leaves behind: the parent keeps its other
    children, and the index loses the node and its immediate children. *)
Lemma Delete_succeeds t ID l n pl p :
  closed (nodes t) ->
  resPools t !! ID = Some l ->
  nodes t !! l = Some n ->
  parent n = Some pl -> pl <> l ->
  nodes t !! pl = Some p ->
  exists t',
    Delete t ID = Returns t' None /\
    root t' = root t /\
    nodes t' = <[pl := SetChildren p (List.filter (keeps (nodes t) ID) (children p))]> (nodes t) /\
    forall k, resPools t' !! k =
              if decide (k = ID \/ k ∈ childIDs (nodes t) (children n))
              then None else resPools t !! k.
Proof.
  intros Hclosed Hl Hn Hparent Hne Hp.
  unfold Delete, lookupResPool. rewrite Hl, Hn, Hparent, Hp.
  rewrite (otherChildren_returns _ _ _ (Hclosed _ _ Hp)).
  rewrite lookup_insert_ne by exact Hne. rewrite Hn.
  set (h := <[pl := SetChildren p _]> (nodes t)).
  destruct (deleteChildren_returns h (children n) (resPools t)) as [index Hindex].
  { eapply Forall_impl; [apply (Hclosed _ _ Hn)|].
    intros c Hc. apply closed_SetChildren, Hc. }
  rewrite Hindex. eexists. split; [reflexivity|]. cbn [root nodes resPools].
  split; [reflexivity|]. split; [reflexivity|].
  intros k. pose proof (deleteChildren_lookup _ _ _ _ Hindex k) as Hk.
  unfold h, SetChildren in Hk. rewrite (childIDs_SetChildren _ _ _ _ _ Hp) in Hk.
  destruct (decide (k = ID)) as [->|Hkne].
  - rewrite lookup_delete_eq. rewrite decide_True by (left; reflexivity). reflexivity.
  - rewrite lookup_delete_ne by congruence. rewrite Hk.
    destruct (decide (k ∈ childIDs (nodes t) (children n))).
    + rewrite decide_True by (right; assumption). reflexivity.
    + rewrite decide_False by (intros [?|?]; contradiction). reflexivity.
Qed.

Lemma GetAllNodes_indexed t k (g : loc) :
  resPools t !! k = Some g -> g ∈ GetAllNodes t false.
Proof.
  intros H. unfold GetAllNodes. apply list_elem_of_In, filter_In. split; [|reflexivity].
  apply in_map_iff. exists (k, g). split; [reflexivity|].
  apply list_elem_of_In, elem_of_map_to_list, H.
Qed.

(** Resource pools nested three deep below the root, built by [Upsert]:
    root, then [a], then [b], then [c]. *)
Definition acceptAll : string -> ResourcePoolConfig -> bool := fun _ _ => true.

Definition childConfig (name parentID : string) : ResourcePoolConfig :=
  mkConfig name "" (Some parentID) SchedulingPolicy_PriorityFIFO.

Definition treeA : tree :=
  after (Upsert acceptAll rootOnly "a" (childConfig "a" "root")) rootOnly.
Definition treeAB : tree :=
  after (Upsert acceptAll treeA "b" (childConfig "b" "a")) rootOnly.
Definition treeABC : tree :=
  after (Upsert acceptAll treeAB "c" (childConfig "c" "b")) rootOnly.

Example treeABC_index :
  resPools treeABC !! "root" = Some 0%nat /\ resPools treeABC !! "a" = Some 1%nat /\
  resPools treeABC !! "b" = Some 2%nat /\ resPools treeABC !! "c" = Some 3%nat.
Proof. repeat split; vm_compute; reflexivity. Qed.

Example treeABC_links :
  (children <$> nodes treeABC !! 0%nat) = Some [1%nat] /\
  (children <$> nodes treeABC !! 1%nat) = Some [2%nat] /\
  (children <$> nodes treeABC !! 2%nat) = Some [3%nat] /\
  (children <$> nodes treeABC !! 3%nat) = Some [].
Proof. repeat split; vm_compute; reflexivity. Qed.

(** The same tree with a gang of one task waiting in the queue of [a]. *)
Definition waitingGang : Scalar.Gang :=
  [Scalar.cpuTask 1%float true Scalar.TaskType_BATCH].

Definition busyTree : tree :=
  mkTree (root treeAB) (resPools treeAB) false
         (<[1%nat := mkResPool "a" (childConfig "a" "root") (Some 0%nat) [2%nat] [waitingGang]]>
            (nodes treeAB)).

(** C2, counterexample: [a] has the child [b] and a gang in its queue;
    [Delete] returns nil all the same and [a] is gone from the index. *)
Lemma Delete_accepts_children_and_queued_gangs :
  (children <$> nodes busyTree !! 1%nat) = Some [2%nat] /\
  (demandQueue <$> nodes busyTree !! 1%nat) = Some [waitingGang] /\
  resPools busyTree !! "a" = Some 1%nat /\
  exists t', Delete busyTree "a" = Returns t' None /\ resPools t' !! "a" = None.
Proof.
  split; [vm_compute; reflexivity|]. split; [vm_compute; reflexivity|].
  split; [vm_compute; reflexivity|].
  eexists. split; [vm_compute; reflexivity|]. vm_compute. reflexivity.
Qed.

(** C2 (amended): [Delete] returns an error and leaves the tree unchanged
    when the id is not in the index or the node has no parent (the root).
    In every other case it returns nil, whether or not the node has
    children or queued gangs: the node leaves its parent's list of
    children, and the node and its immediate children leave the index. *)
Theorem Delete_rejects_only_unknown_and_root (t : tree) (ID : string) :
  (resPools t !! ID = None -> Delete t ID = Returns t (Some (ErrPoolNotFound ID))) /\
  (forall l n, resPools t !! ID = Some l -> nodes t !! l = Some n -> parent n = None ->
     Delete t ID = Returns t (Some ErrParentNil)) /\
  (forall l n pl p,
     closed (nodes t) ->
     resPools t !! ID = Some l -> nodes t !! l = Some n ->
     parent n = Some pl -> pl <> l -> nodes t !! pl = Some p ->
     exists t',
       Delete t ID = Returns t' None /\
       root t' = root t /\
       nodes t' = <[pl := SetChildren p (List.filter (keeps (nodes t) ID) (children p))]> (nodes t) /\
       forall k, resPools t' !! k =
                 if decide (k = ID \/ k ∈ childIDs (nodes t) (children n))
                 then None else resPools t !! k).
Proof.
  split; [|split].
  - intros H. unfold Delete, lookupResPool. rewrite H. reflexivity.
  - intros l n Hl Hn Hp. unfold Delete, lookupResPool. rewrite Hl, Hn, Hp. reflexivity.
  - intros l n pl p. apply Delete_succeeds.
Qed.

Lemma closed_rootOnly : closed (nodes rootOnly).
Proof.
  intros l n H. unfold rootOnly in H. cbn [nodes] in H.
  apply lookup_singleton_Some in H as [_ <-]. constructor.
Qed.

Lemma Forall_is_Some_insert (h : heap) (l : loc) n cs :
  Forall (fun c => is_Some (h !! c)) cs ->
  Forall (fun c => is_Some (<[l := n]> h !! c)) cs.
Proof.
  intros H. eapply Forall_impl; [exact H|]. intros c Hc.
  destruct (decide (l = c)) as [<-|Hne].
  - rewrite lookup_insert_eq. eauto.
  - rewrite lookup_insert_ne by exact Hne. exact Hc.
Qed.

(** [Upsert] keeps the heap closed. *)
Lemma Upsert_closed accepts t ID config t' e :
  closed (nodes t) -> Upsert accepts t ID config = Returns t' e -> closed (nodes t').
Proof.
  intros Hclosed H. unfold Upsert in H.
  destruct (Parent config) as [parentID|]; [|discriminate H].
  destruct (lookupResPool t parentID) as [pl|err|]; [| |discriminate H].
  2: { injection H as <- _. exact Hclosed. }
  destruct (resPools t !! ID) as [l|].
  - destruct (nodes t !! l) as [n|] eqn:Hn; [|discriminate H].
    injection H as <- _. cbn [nodes]. intros l' n' Hl'.
    apply Forall_is_Some_insert.
    destruct (decide (l = l')) as [<-|Hne].
    + rewrite lookup_insert_eq in Hl'. injection Hl' as <-. cbn [children SetResourcePoolConfig].
      apply (Hclosed _ _ Hn).
    + rewrite lookup_insert_ne in Hl' by exact Hne. apply (Hclosed _ _ Hl').
  - unfold NewRespool in H. destruct (accepts ID config).
    2: { injection H as <- _. exact Hclosed. }
    set (new := fresh (dom (nodes t))) in H.
    destruct (<[new := _]> (nodes t) !! pl) as [p|] eqn:Hp; [|discriminate H].
    injection H as <- _. cbn [nodes]. intros l' n' Hl'.
    assert (Hp_children : Forall (fun c => is_Some (nodes t !! c)) (children p)).
    { destruct (decide (new = pl)) as [<-|Hne].
      - rewrite lookup_insert_eq in Hp. injection Hp as <-. constructor.
      - rewrite lookup_insert_ne in Hp by exact Hne. apply (Hclosed _ _ Hp). }
    destruct (decide (pl = l')) as [<-|Hne].
    + rewrite lookup_insert_eq in Hl'. injection Hl' as <-. cbn [children SetChildren].
      apply Forall_app. split.
      * apply Forall_is_Some_insert, Forall_is_Some_insert, Hp_children.
      * constructor; [|constructor].
        destruct (decide (pl = new)) as [->|Hne'].
        -- rewrite lookup_insert_eq. eauto.
        -- rewrite lookup_insert_ne, lookup_insert_eq by exact Hne'. eauto.
    + rewrite lookup_insert_ne in Hl' by exact Hne.
      apply Forall_is_Some_insert, Forall_is_Some_insert.
      destruct (decide (new = l')) as [<-|Hne'].
      * rewrite lookup_insert_eq in Hl'. injection Hl' as <-. constructor.
      * rewrite lookup_insert_ne in Hl' by exact Hne'. apply (Hclosed _ _ Hl').
Qed.

Lemma closed_treeABC : closed (nodes treeABC).
Proof.
  apply (Upsert_closed acceptAll treeAB "c" (childConfig "c" "b") _ None);
    [|vm_compute; reflexivity].
  apply (Upsert_closed acceptAll treeA "b" (childConfig "b" "a") _ None);
    [|vm_compute; reflexivity].
  apply (Upsert_closed acceptAll rootOnly "a" (childConfig "a" "root") _ None);
    [|vm_compute; reflexivity].
  apply closed_rootOnly.
Qed.

Lemma Delete_rejects_only_unknown_and_root_witness :
  exists t',
    Delete treeABC "a" = Returns t' None /\
    root t' = root treeABC /\
    resPools t' !! "a" = None /\
    resPools t' !! "b" = None.
Proof.
  destruct (proj2 (proj2 (Delete_rejects_only_unknown_and_root treeABC "a"))
              1%nat (mkResPool "a" (childConfig "a" "root") (Some 0%nat) [2%nat] [])
              0%nat (mkResPool "root" rootConfig None [1%nat] [])
              closed_treeABC)
    as (t' & HD & Hroot & _ & Hindex);
    try (vm_compute; reflexivity); [discriminate|].
  exists t'. split; [exact HD|]. split; [exact Hroot|].
  rewrite !Hindex. split; vm_compute; reflexivity.
Defined.

(** C10: after a successful [Delete], the node and its immediate children
    are gone from the index, and every other entry of the index is still
    there: a pool [kg] that is neither the deleted node nor one of its
    children (a grandchild or a deeper descendant, whose id differs from
    theirs) is still returned by [Get] and listed by [GetAllNodes], and
    its node is as it was, pointing to a parent that is no longer
    indexed. *)
Theorem Delete_keeps_deeper_descendants
    (t : tree) (ID kg : string) (l pl g : loc) (n p : resPool) :
  closed (nodes t) ->
  resPools t !! ID = Some l -> nodes t !! l = Some n ->
  parent n = Some pl -> pl <> l -> nodes t !! pl = Some p ->
  resPools t !! kg = Some g ->
  kg <> ID -> kg ∉ childIDs (nodes t) (children n) ->
  exists t',
    Delete t ID = Returns t' None /\
    Get t' ID = Err (ErrPoolNotFound ID) /\
    (forall k, k ∈ childIDs (nodes t) (children n) -> Get t' k = Err (ErrPoolNotFound k)) /\
    Get t' kg = Ok g /\
    g ∈ GetAllNodes t' false /\
    (g <> pl -> nodes t' !! g = nodes t !! g).
Proof.
  intros Hclosed Hl Hn Hparent Hne Hp Hg HkgID Hkg.
  destruct (Delete_succeeds t ID l n pl p Hclosed Hl Hn Hparent Hne Hp)
    as (t' & HD & _ & Hnodes & Hindex).
  exists t'. split; [exact HD|].
  assert (Hg' : resPools t' !! kg = Some g).
  { rewrite Hindex, decide_False; [exact Hg | intros [?|?]; contradiction]. }
  repeat split.
  - unfold Get, lookupResPool. rewrite Hindex, decide_True by (left; reflexivity). reflexivity.
  - intros k Hk. unfold Get, lookupResPool.
    rewrite Hindex, decide_True by (right; exact Hk). reflexivity.
  - unfold Get, lookupResPool. rewrite Hg'. reflexivity.
  - apply (GetAllNodes_indexed t' kg g Hg').
  - intros Hgp. rewrite Hnodes. apply lookup_insert_ne. congruence.
Qed.

(** Deleting [a] from root / a / b / c: the grandchild [c] is still indexed
    and still a child of [b], while [a] and [b] are not indexed any more. *)
Lemma Delete_keeps_deeper_descendants_witness :
  exists t',
    Delete treeABC "a" = Returns t' None /\
    Get t' "a" = Err (ErrPoolNotFound "a") /\
    Get t' "b" = Err (ErrPoolNotFound "b") /\
    Get t' "c" = Ok 3%nat /\
    3%nat ∈ GetAllNodes t' false /\
    (parent <$> nodes t' !! 3%nat) = Some (Some 2%nat).
Proof.
  destruct (Delete_keeps_deeper_descendants treeABC "a" "c" 1%nat 0%nat 3%nat
              (mkResPool "a" (childConfig "a" "root") (Some 0%nat) [2%nat] [])
              (mkResPool "root" rootConfig None [1%nat] [])
              closed_treeABC)
    as (t' & HD & Ha & Hb & Hc & Hall & Hnode);
    try (vm_compute; reflexivity); try discriminate.
  { vm_compute. intros H. apply list_elem_of_singleton in H. discriminate H. }
  exists t'. split; [exact HD|]. split; [exact Ha|]. split.
  { apply Hb. vm_compute. left. }
  split; [exact Hc|]. split; [exact Hall|].
  rewrite Hnode by discriminate. vm_compute. reflexivity.
Defined.

(** ** Properties of [Upsert] *)

Section UpsertFacts.

Variable acceptsConfig : string -> ResourcePoolConfig -> bool.

Lemma Upsert_parent_missing t ID config parentID :
  Parent config = Some parentID -> resPools t !! parentID = None ->
  Upsert acceptsConfig t ID config
  = Returns t (Some (ErrWrap "parent does not exists" (ErrPoolNotFound parentID))).
Proof.
  intros Hp Hnone. unfold Upsert, lookupResPool. rewrite Hp, Hnone. reflexivity.
Qed.

Lemma Upsert_error_unchanged t ID config t' e :
  Upsert acceptsConfig t ID config = Returns t' (Some e) -> t' = t.
Proof.
  unfold Upsert. intros H.
  destruct (Parent config) as [parentID|]; [|discriminate H].
  destruct (lookupResPool t parentID) as [pl|err|]; [| |discriminate H].
  2: { injection H as <- _. reflexivity. }
  destruct (resPools t !! ID) as [l|].
  - destruct (nodes t !! l); discriminate H.
  - destruct (NewRespool acceptsConfig ID (Some pl) config) as [n|err|]; [| |discriminate H].
    + destruct (_ !! pl); discriminate H.
    + injection H as <- _. reflexivity.
Qed.

(** An update never looks at where the new parent sits in the tree: it
    replaces the config and leaves every link as it was. *)
Lemma Upsert_update t ID config parentID (pl l : loc) n :
  Parent config = Some parentID -> resPools t !! parentID = Some pl ->
  resPools t !! ID = Some l -> nodes t !! l = Some n ->
  Upsert acceptsConfig t ID config
  = Returns (mkTree (root t) (resPools t) true
                    (<[l := SetResourcePoolConfig n config]> (nodes t)))
            None.
Proof.
  intros Hp Hpl Hl Hn. unfold Upsert, lookupResPool. rewrite Hp, Hpl, Hl, Hn.
  rewrite (insert_id _ _ _ Hl). reflexivity.
Qed.

End UpsertFacts.

(** C4, counterexample: in root / a / b / c, an upsert of [a] that names its
    own child [b] as parent returns nil.  The configs now say that [b] is
    the parent of [a] and [a] the parent of [b]; the tree has changed. *)
Lemma Upsert_accepts_a_cycle :
  exists t',
    Upsert acceptAll treeABC "a" (childConfig "a" "b") = Returns t' None /\
    (Parent <$> (poolConfig <$> nodes t' !! 1%nat)) = Some (Some "b") /\
    (Parent <$> (poolConfig <$> nodes t' !! 2%nat)) = Some (Some "a") /\
    nodes t' !! 1%nat <> nodes treeABC !! 1%nat.
Proof.
  eexists. split; [vm_compute; reflexivity|].
  split; [vm_compute; reflexivity|]. split; [vm_compute; reflexivity|].
  vm_compute. discriminate.
Qed.

(** C4 (amended): [Upsert] returns an error when the parent id of the
    config does not resolve to a node of the index, and whenever it
    returns an error the tree is unchanged.  It makes no check for cycles:
    when the parent id resolves and the id is already in the index, the
    call returns nil whatever the parent is (the node itself or one of its
    descendants included), replaces the config of the node and leaves the
    parent and children links as they were. *)
Theorem Upsert_rejects_missing_parent_only
    (acceptsConfig : string -> ResourcePoolConfig -> bool)
    (t : tree) (ID : string) (config : ResourcePoolConfig) (parentID : string) :
  Parent config = Some parentID ->
  (resPools t !! parentID = None ->
     Upsert acceptsConfig t ID config
     = Returns t (Some (ErrWrap "parent does not exists" (ErrPoolNotFound parentID)))) /\
  (forall t' e, Upsert acceptsConfig t ID config = Returns t' (Some e) -> t' = t) /\
  (forall (pl l : loc) n,
     resPools t !! parentID = Some pl ->
     resPools t !! ID = Some l -> nodes t !! l = Some n ->
     Upsert acceptsConfig t ID config
     = Returns (mkTree (root t) (resPools t) true
                       (<[l := SetResourcePoolConfig n config]> (nodes t)))
               None).
Proof.
  intros Hp. split; [|split].
  - apply Upsert_parent_missing, Hp.
  - apply Upsert_error_unchanged.
  - intros pl l n. apply Upsert_update, Hp.
Qed.

Lemma Upsert_rejects_missing_parent_only_witness :
  Upsert acceptAll treeABC "d" (childConfig "d" "nowhere")
  = Returns treeABC (Some (ErrWrap "parent does not exists" (ErrPoolNotFound "nowhere"))).
Proof.
  apply (proj1 (Upsert_rejects_missing_parent_only acceptAll treeABC "d"
                  (childConfig "d" "nowhere") "nowhere" eq_refl)).
  vm_compute. reflexivity.
Defined.

Example Upsert_own_parent :
  exists t', Upsert acceptAll treeABC "a" (childConfig "a" "a") = Returns t' None.
Proof. eexists. vm_compute. reflexivity. Qed.

Example Upsert_nil_parent : Upsert acceptAll treeABC "d" rootConfig = Panics.
Proof. reflexivity. Qed.

(** ** Paths and names *)



(** The path of a chain of names: ["/a/b/c"] for [a], [b], [c]. *)
Definition pathOf (names : list string) : string :=
  String delimiter (String.concat ResourcePoolPathDelimiter names).

Lemma append_String c s1 s2 :
  String.append (String c s1) s2 = String c (String.append s1 s2).
Proof. reflexivity. Qed.

Lemma append_EmptyString s : String.append EmptyString s = s.
Proof. reflexivity. Qed.





(** The string ends with the delimiter. *)
Fixpoint endsWithDelimiter (s : string) : bool :=
  match s with
  | EmptyString => false
  | String c EmptyString => Ascii.eqb c delimiter
  | String c s' => endsWithDelimiter s'
  end.

Lemma TrimSuffix_no_delimiter s : endsWithDelimiter s = false -> TrimSuffix s = s.
Proof.
  induction s as [|c s IH]; intros H; [reflexivity|].
  destruct s as [|c' s'].
  - cbn in H |- *. rewrite H. reflexivity.
  - change (TrimSuffix (String c (String c' s')))
      with (String c (TrimSuffix (String c' s'))).
    change (endsWithDelimiter (String c (String c' s')))
      with (endsWithDelimiter (String c' s')) in H.
    rewrite (IH H). reflexivity.
Qed.





Example pathOf_abc : pathOf ["a"; "b"; "c"] = "/a/b/c".
Proof. reflexivity. Qed.

(** ** Properties of [walkTree] and [GetByPath] *)












(** ** A new pool is found at its path *)












Example GetByPath_examples :
  GetByPath treeABC "/a/b/" = Ok 2%nat /\
  GetByPath treeABC "a/b" = Ok 2%nat /\
  GetByPath treeABC "/a/x"
  = Err (ErrWrap "unable to find resource pool with path" (ErrPathNotFound ["x"])) /\
  GetByPath (mkTree None ∅ false ∅) "/" = Err ErrNotInitialized.
Proof. repeat split; vm_compute; reflexivity. Qed.

(* --------------------------------------------------------------------- *)
(** ** More on the tree: [Stop], the update signal, and the ends of a path *)
(* --------------------------------------------------------------------- *)

(** [func (t *tree) Stop() error]: the root is forgotten and the index is
    replaced by an empty map; the nodes are left to the collector, the
    channel is not touched. *)
Definition Stop (t : tree) : outcome :=
  Returns (mkTree None ∅ (updatedChan t) (nodes t)) None.

(** X10: a stopped tree answers nothing and takes nothing.  After [Stop],
    [Get] and [Delete] do not find any id, [GetByPath] reports for every
    path, the bare delimiter included, that the tree is not initialised,
    [GetAllNodes] is empty, and [Upsert] fails for every config with a
    parent, since not even the root is known any more; none of these calls
    changes the stopped tree. *)
Theorem Stop_forgets_the_tree (accepts : string -> ResourcePoolConfig -> bool)
    (t : tree) (ID path parentID : string) (leafOnly : bool) (config : ResourcePoolConfig) :
  exists stopped,
    Stop t = Returns stopped None /\
    Get stopped ID = Err (ErrPoolNotFound ID) /\
    GetByPath stopped path = Err ErrNotInitialized /\
    GetAllNodes stopped leafOnly = [] /\
    Delete stopped ID = Returns stopped (Some (ErrPoolNotFound ID)) /\
    (Parent config = Some parentID ->
     Upsert accepts stopped ID config
     = Returns stopped (Some (ErrWrap "parent does not exists" (ErrPoolNotFound parentID)))).
Proof.
  eexists. split; [reflexivity|].
  split; [reflexivity|]. split; [reflexivity|]. split.
  { unfold GetAllNodes. cbn [resPools]. rewrite map_to_list_empty. reflexivity. }
  split; [reflexivity|].
  intros Hp. unfold Upsert. rewrite Hp. reflexivity.
Qed.

Example Stop_then_Upsert :
  Upsert acceptAll (after (Stop treeABC) rootOnly) "d" (childConfig "d" "root")
  = Returns (after (Stop treeABC) rootOnly)
            (Some (ErrWrap "parent does not exists" (ErrPoolNotFound "root"))).
Proof. reflexivity. Qed.

(** X11: who signals on the update channel.  A successful [Upsert] leaves
    the channel full, keeps the root and changes the index at the upserted
    id only.  [Delete] never touches the channel, whatever it returns: it
    keeps the root, and every id that is in the index after it was there
    before, with the same node. *)
Theorem Upsert_signals_Delete_does_not (accepts : string -> ResourcePoolConfig -> bool)
    (t : tree) (ID : string) (config : ResourcePoolConfig) :
  (forall t', Upsert accepts t ID config = Returns t' None ->
     updatedChan t' = true /\ root t' = root t /\
     forall k, k <> ID -> resPools t' !! k = resPools t !! k) /\
  (forall t' err, Delete t ID = Returns t' err ->
     updatedChan t' = updatedChan t /\ root t' = root t /\
     forall k l, resPools t' !! k = Some l -> resPools t !! k = Some l).
Proof.
  split.
  - intros t' H. unfold Upsert in H.
    destruct (Parent config) as [parentID|]; [|discriminate H].
    destruct (lookupResPool t parentID) as [pl|e|]; try discriminate H.
    destruct (resPools t !! ID) as [l|] eqn:Hl.
    + destruct (nodes t !! l) as [n|]; [|discriminate H].
      injection H as <-. cbn [updatedChan root resPools].
      split; [reflexivity|]. split; [reflexivity|].
      intros k Hk. apply lookup_insert_ne. congruence.
    + destruct (NewRespool accepts ID (Some pl) config) as [n|e|]; try discriminate H.
      destruct (<[fresh (dom (nodes t)) := n]> (nodes t) !! pl) as [p|]; [|discriminate H].
      injection H as <-. cbn [updatedChan root resPools].
      split; [reflexivity|]. split; [reflexivity|].
      intros k Hk. apply lookup_insert_ne. congruence.
  - intros t' err H. unfold Delete in H.
    destruct (lookupResPool t ID) as [l|e|]; try discriminate H;
      [|injection H as <- <-; auto].
    destruct (nodes t !! l) as [n|]; [|discriminate H].
    destruct (parent n) as [pl|]; [|injection H as <- <-; auto].
    destruct (nodes t !! pl) as [p|]; [|discriminate H].
    destruct (otherChildren (nodes t) ID (children p)) as [newChildren|e|];
      try discriminate H.
    destruct (<[pl := SetChildren p newChildren]> (nodes t) !! l) as [n'|];
      [|discriminate H].
    destruct (deleteChildren _ (children n') (resPools t)) as [index|e|] eqn:Hindex;
      try discriminate H.
    injection H as <- <-. cbn [updatedChan root resPools].
    split; [reflexivity|]. split; [reflexivity|].
    intros k l0 Hk.
    destruct (decide (k = ID)) as [->|Hne]; [rewrite lookup_delete_eq in Hk; discriminate Hk|].
    rewrite lookup_delete_ne in Hk by congruence.
    rewrite (deleteChildren_lookup _ _ _ _ Hindex k) in Hk.
    destruct (decide (k ∈ childIDs _ (children n'))); [discriminate Hk | exact Hk].
Qed.

Example Delete_leaves_the_channel :
  updatedChan rootOnly = false /\
  updatedChan treeABC = true /\
  updatedChan (after (Delete treeABC "b") rootOnly) = true /\
  updatedChan (after (Delete rootOnly "root") treeABC) = false.
Proof. repeat split. Qed.

(** [strings.TrimSuffix] takes exactly one delimiter off the end. *)
Lemma TrimSuffix_append_delimiter path :
  TrimSuffix (String.append path ResourcePoolPathDelimiter) = path.
Proof.
  induction path as [|c path IH]; [reflexivity|].
  rewrite append_String.
  destruct (String.append path ResourcePoolPathDelimiter) as [|a s] eqn:E.
  - destruct path; [rewrite append_EmptyString in E | rewrite append_String in E];
      discriminate E.
  - change (TrimSuffix (String c (String a s))) with (String c (TrimSuffix (String a s))).
    rewrite IH. reflexivity.
Qed.

(** The string starts with the delimiter. *)
Definition startsWithDelimiter (s : string) : bool :=
  match s with
  | String c _ => Ascii.eqb c delimiter
  | EmptyString => false
  end.

Lemma TrimSuffix_first c s :
  Ascii.eqb c delimiter = false ->
  startsWithDelimiter (TrimSuffix (String c s)) = false.
Proof.
  intros Hc. destruct s as [|c' s'].
  - cbn. rewrite Hc. cbn. exact Hc.
  - change (TrimSuffix (String c (String c' s')))
      with (String c (TrimSuffix (String c' s'))). exact Hc.
Qed.

Lemma trimPath_leading path :
  path <> EmptyString -> startsWithDelimiter path = false ->
  trimPath (String delimiter path) = trimPath path.
Proof.
  intros Hne Hs. unfold trimPath. destruct path as [|c s]; [congruence|].
  change (TrimSuffix (String delimiter (String c s)))
    with (String delimiter (TrimSuffix (String c s))).
  cbn [TrimPrefix]. rewrite Ascii.eqb_refl.
  cbn [startsWithDelimiter] in Hs. pose proof (TrimSuffix_first c s Hs) as Hf.
  destruct (TrimSuffix (String c s)) as [|a r]; [reflexivity|].
  cbn [startsWithDelimiter] in Hf. cbn [TrimPrefix]. rewrite Hf. reflexivity.
Qed.

Lemma trimPath_trailing path :
  endsWithDelimiter path = false ->
  trimPath (String.append path ResourcePoolPathDelimiter) = trimPath path.
Proof.
  intros He. unfold trimPath.
  rewrite TrimSuffix_append_delimiter, (TrimSuffix_no_delimiter path He). reflexivity.
Qed.

Lemma append_delimiter_not_root path :
  path <> EmptyString ->
  String.eqb (String.append path ResourcePoolPathDelimiter) ResourcePoolPathDelimiter = false.
Proof.
  intros Hne. apply String.eqb_neq. destruct path as [|c s]; [congruence|].
  rewrite append_String. unfold ResourcePoolPathDelimiter.
  destruct s; [rewrite append_EmptyString | rewrite append_String]; discriminate.
Qed.

(** X12: [GetByPath] ignores one delimiter at each end of a path.  For a
    path that is not empty and neither starts nor ends with the delimiter,
    the path with a delimiter in front, behind, or both resolves to the
    same node, or fails, as the path itself. *)
Theorem GetByPath_ignores_outer_delimiters (t : tree) (path : string) (l : loc) :
  path <> EmptyString ->
  startsWithDelimiter path = false ->
  endsWithDelimiter path = false ->
  (GetByPath t (String delimiter path) = Ok l <-> GetByPath t path = Ok l) /\
  (GetByPath t (String.append path ResourcePoolPathDelimiter) = Ok l
   <-> GetByPath t path = Ok l) /\
  (GetByPath t (String delimiter (String.append path ResourcePoolPathDelimiter)) = Ok l
   <-> GetByPath t path = Ok l).
Proof.
  intros Hne Hs He.
  assert (Hroot : String.eqb path ResourcePoolPathDelimiter = false).
  { apply String.eqb_neq. intros ->. discriminate Hs. }
  assert (Hlead : String.eqb (String delimiter path) ResourcePoolPathDelimiter = false).
  { apply String.eqb_neq. unfold ResourcePoolPathDelimiter. destruct path; congruence. }
  pose proof (append_delimiter_not_root path Hne) as Htrail.
  assert (Hboth : String.eqb (String delimiter (String.append path ResourcePoolPathDelimiter))
                             ResourcePoolPathDelimiter = false).
  { apply String.eqb_neq. unfold ResourcePoolPathDelimiter.
    destruct path; [congruence | rewrite append_String; discriminate]. }
  assert (Hne' : String.append path ResourcePoolPathDelimiter <> EmptyString).
  { destruct path; [congruence | rewrite append_String; discriminate]. }
  assert (Hs' : startsWithDelimiter (String.append path ResourcePoolPathDelimiter) = false).
  { destruct path; [congruence | rewrite append_String; exact Hs]. }
  unfold GetByPath. destruct (root t) as [r|]; [|repeat split; intros H; exact H].
  rewrite Hroot, Hlead, Htrail, Hboth.
  rewrite (trimPath_leading _ Hne' Hs'), (trimPath_leading path Hne Hs),
          (trimPath_trailing path He).
  repeat split; intros H; exact H.
Qed.

Lemma GetByPath_ignores_outer_delimiters_witness :
  (GetByPath treeABC "/a/b" = Ok 2%nat <-> GetByPath treeABC "a/b" = Ok 2%nat) /\
  (GetByPath treeABC "a/b/" = Ok 2%nat <-> GetByPath treeABC "a/b" = Ok 2%nat) /\
  (GetByPath treeABC "/a/b/" = Ok 2%nat <-> GetByPath treeABC "a/b" = Ok 2%nat).
Proof.
  apply (GetByPath_ignores_outer_delimiters treeABC "a/b" 2%nat);
    [discriminate | reflexivity | reflexivity].
Defined.

(** Only one delimiter is taken off each end. *)
Example GetByPath_double_delimiter :
  GetByPath treeABC "a/b" = Ok 2%nat /\
  GetByPath treeABC "//a/b"
  = Err (ErrWrap "unable to find resource pool with path" (ErrPathNotFound [""; "a"; "b"])) /\
  GetByPath treeABC "a/b//"
  = Err (ErrWrap "unable to find resource pool with path" (ErrPathNotFound [""])).
Proof. repeat split; vm_compute; reflexivity. Qed.

(* --------------------------------------------------------------------- *)
(** ** Building the tree from the store: [initTree] and [buildTree]       *)
(* --------------------------------------------------------------------- *)

(** [Parent.GetValue()]: the generated getter returns the empty string on a
    nil id. *)
Definition GetValue (ID : option string) : string :=
  match ID with
  | Some v => v
  | None => ""
  end.

(** [func (t *tree) getChildResPoolConfigs(parentID, resPoolConfigs)] *)
Definition getChildResPoolConfigs (parentID : string)
    (resPoolConfigs : gmap string ResourcePoolConfig) : gmap string ResourcePoolConfig :=
  filter (fun kc => GetValue (Parent (snd kc)) = parentID) resPoolConfigs.

(** What a call of [buildTree] leaves behind: the heap, the index
    [t.resPools], which is written before the children are built and stays
    written when they fail, and the node or the error returned. *)
Definition built : Type := heap * gmap string loc * result loc.

Section Build.

Variable acceptsConfig : string -> ResourcePoolConfig -> bool.

(** The loop of [buildTree] over the child configs.  [build] is the
    recursive call.  Go ranges over the map in no particular order; the
    loop follows the order of [map_to_list]. *)
Fixpoint buildChildren
    (build : string -> ResourcePoolConfig -> option loc -> heap -> gmap string loc
             -> option built)
    (node : loc) (childConfigs : list (string * ResourcePoolConfig))
    (h : heap) (index : gmap string loc) (childResourcePools : list loc)
  : option (heap * gmap string loc * result (list loc)) :=
  match childConfigs with
  | [] => Some (h, index, Ok childResourcePools)
  | (childResPoolID, config) :: rest =>
      match build childResPoolID config (Some node) h index with
      | None => None
      | Some (h', index', Err e) =>
          Some (h', index',
                Err (ErrWrap (String.append "failed to create resource pool: " childResPoolID) e))
      | Some (h', index', Panic) => Some (h', index', Panic)
      | Some (h', index', Ok childNode) =>
          buildChildren build node rest h' index' (childResourcePools ++ [childNode])
      end
  end.

(** [func (t *tree) buildTree(ID, parent, resPoolConfigs) (ResPool, error)].
    The recursion of the source has no bound; [fuel] bounds its depth here,
    and [None] is a call that did not come back within it.  [config] is
    [resPoolConfigs[ID]]. *)
Fixpoint buildTree (fuel : nat) (resPoolConfigs : gmap string ResourcePoolConfig)
    (ID : string) (config : ResourcePoolConfig) (parent : option loc)
    (h : heap) (index : gmap string loc) : option built :=
  match fuel with
  | O => None
  | S fuel' =>
      match NewRespool acceptsConfig ID parent config with
      | Err e => Some (h, index, Err e)
      | Panic => Some (h, index, Panic)
      | Ok n =>
          let node := fresh (dom h) in
          let h1 := <[node := n]> h in
          let index1 := <[ID := node]> index in
          let childConfigs := map_to_list (getChildResPoolConfigs ID resPoolConfigs) in
          match buildChildren (buildTree fuel' resPoolConfigs) node childConfigs h1 index1 []
          with
          | None => None
          | Some (h', index', Err e) => Some (h', index', Err e)
          | Some (h', index', Panic) => Some (h', index', Panic)
          | Some (h', index', Ok childResourcePools) =>
              Some (<[node := SetChildren n childResourcePools]> h', index', Ok node)
          end
      end
  end.

(** [func (t *tree) initTree(resPoolConfigs) (ResPool, error)], on a map
    that is not nil: the root config is written into the map and the tree
    is built from the root. *)
Definition initTree (fuel : nat) (resPoolConfigs : gmap string ResourcePoolConfig)
    (h : heap) (index : gmap string loc) : option built :=
  let resPoolConfigs := <[RootResPoolID := rootConfig]> resPoolConfigs in
  match buildTree fuel resPoolConfigs RootResPoolID rootConfig None h index with
  | None => None
  | Some (h', index', Err e) =>
      Some (h', index', Err (ErrWrap "failed to initialize tree" e))
  | Some r => Some r
  end.

(** The ids from a pool up to the root, each the parent id of the one
    before it. *)
Inductive chain (configs : gmap string ResourcePoolConfig) : list string -> Prop :=
  | chain_root :
      configs !! RootResPoolID = Some rootConfig -> chain configs [RootResPoolID]
  | chain_cons k c p anc :
      configs !! k = Some c -> GetValue (Parent c) = p -> k ∉ p :: anc ->
      chain configs (p :: anc) -> chain configs (k :: p :: anc).

Lemma chain_NoDup configs path : chain configs path -> NoDup path.
Proof.
  induction 1 as [|k c p anc Hk Hp Hnin Hc IH].
  - apply NoDup_singleton.
  - apply NoDup_cons_2; assumption.
Qed.

Lemma chain_keys configs path :
  chain configs path -> forall k, k ∈ path -> is_Some (configs !! k).
Proof.
  induction 1 as [Hr|k c p anc Hk Hp Hnin Hc IH]; intros k' Hin.
  - apply list_elem_of_singleton in Hin as ->. eauto.
  - apply elem_of_cons in Hin as [->|Hin]; [eauto | apply IH, Hin].
Qed.

Lemma chain_length configs path : chain configs path -> length path <= size configs.
Proof.
  intros Hc. rewrite <- (size_dom (D := gset string)).
  rewrite <- (size_list_to_set (C := gset string) path) by (eapply chain_NoDup, Hc).
  apply subseteq_size. intros k Hk. apply elem_of_list_to_set in Hk.
  apply elem_of_dom. eapply chain_keys; eassumption.
Qed.

(** In a chain every id but the root has its parent id further up. *)
Lemma chain_parent configs path :
  chain configs path ->
  forall k c, k ∈ path -> configs !! k = Some c ->
  c = rootConfig \/
  exists pre post, path = (pre ++ k :: post)%list /\ GetValue (Parent c) ∈ post.
Proof.
  induction 1 as [Hr|k0 c0 p anc Hk Hp Hnin Hc IH]; intros k c Hin Hlook.
  - apply list_elem_of_singleton in Hin as ->. left. congruence.
  - apply elem_of_cons in Hin as [->|Hin].
    + right. exists [], (p :: anc). split; [reflexivity|].
      assert (c = c0) by congruence. subst c. rewrite Hp. left.
    + destruct (IH k c Hin Hlook) as [->|(pre & post & -> & Hpost)]; [left; reflexivity|].
      right. exists (k0 :: pre), post. split; [reflexivity | exact Hpost].
Qed.

(** Without a pool of the empty id, a child of the head of a chain is not
    on the chain. *)
Lemma chain_child configs ID anc c cc :
  configs !! "" = None ->
  chain configs (ID :: anc) ->
  configs !! c = Some cc -> GetValue (Parent cc) = ID ->
  chain configs (c :: ID :: anc).
Proof.
  intros Hempty Hchain Hc Hparent.
  apply (chain_cons configs c cc ID anc Hc Hparent); [|exact Hchain].
  intros Hin.
  pose proof (chain_NoDup _ _ Hchain) as Hnd.
  apply NoDup_cons in Hnd as [Hhead _].
  destruct (chain_parent _ _ Hchain c cc Hin Hc) as [->|(pre & post & Hpath & Hpost)].
  - cbn in Hparent. subst ID.
    destruct (chain_keys _ _ Hchain "") as [x Hx]; [left|]. congruence.
  - rewrite Hparent in Hpost. apply Hhead.
    destruct pre as [|a pre]; injection Hpath as -> ->.
    + exact Hpost.
    + apply elem_of_app. right. right. exact Hpost.
Qed.

Lemma buildChildren_returns build node cs : forall h index acc,
  (forall cid cconf h' index',
     (cid, cconf) ∈ cs -> build cid cconf (Some node) h' index' <> None) ->
  buildChildren build node cs h index acc <> None.
Proof.
  induction cs as [|[cid cconf] cs IH]; intros h index acc Hbuild; [discriminate|].
  cbn [buildChildren].
  pose proof (Hbuild cid cconf h index ltac:(left)) as Hhead.
  destruct (build cid cconf (Some node) h index) as [[[h' index'] [child|e|]]|];
    [ | discriminate | discriminate | congruence].
  apply IH. intros cid' cconf' h'' index'' Hin. apply Hbuild. right. exact Hin.
Qed.

Lemma buildTree_enough_fuel configs :
  configs !! "" = None ->
  forall fuel ID config anc parent h index,
    chain configs (ID :: anc) -> configs !! ID = Some config ->
    size configs < fuel + length (ID :: anc) ->
    buildTree fuel configs ID config parent h index <> None.
Proof.
  intros Hempty. induction fuel as [|fuel IH]; intros ID config anc parent h index Hchain Hc Hsize.
  - pose proof (chain_length _ _ Hchain). lia.
  - cbn [buildTree].
    destruct (NewRespool acceptsConfig ID parent config) as [n|e|]; try discriminate.
    cbv zeta.
    pose proof (buildChildren_returns (buildTree fuel configs) (fresh (dom h))
                  (map_to_list (getChildResPoolConfigs ID configs))
                  (<[fresh (dom h) := n]> h) (<[ID := fresh (dom h)]> index) []) as Hloop.
    destruct (buildChildren _ _ _ _ _ _) as [[[h' index'] [children|e|]]|]; try discriminate.
    exfalso. apply Hloop; [|reflexivity].
    intros cid cconf h'' index'' Hin.
    apply elem_of_map_to_list in Hin. unfold getChildResPoolConfigs in Hin.
    apply map_lookup_filter_Some in Hin as [Hlook Hparent]. cbn in Hparent.
    apply (IH cid cconf (ID :: anc)); [|exact Hlook|cbn [length] in *; lia].
    exact (chain_child configs ID anc cid cconf Hempty Hchain Hlook Hparent).
Qed.

(** More fuel does not change a result. *)
Lemma buildChildren_mono build1 build2 node cs : forall h index acc r,
  (forall cid cconf parent h' index' r',
     build1 cid cconf parent h' index' = Some r' ->
     build2 cid cconf parent h' index' = Some r') ->
  buildChildren build1 node cs h index acc = Some r ->
  buildChildren build2 node cs h index acc = Some r.
Proof.
  induction cs as [|[cid cconf] cs IH]; intros h index acc r Hbuild H; [exact H|].
  cbn [buildChildren] in H |- *.
  destruct (build1 cid cconf (Some node) h index) as [[[h' index'] res]|] eqn:E;
    [|discriminate H].
  rewrite (Hbuild _ _ _ _ _ _ E).
  destruct res as [child|e|]; try exact H. apply IH; assumption.
Qed.

Lemma buildTree_more_fuel configs : forall fuel ID config parent h index r,
  buildTree fuel configs ID config parent h index = Some r ->
  buildTree (S fuel) configs ID config parent h index = Some r.
Proof.
  induction fuel as [|fuel IH]; intros ID config parent h index r H; [discriminate H|].
  remember (S fuel) as fuel1 eqn:Hfuel. cbn [buildTree]. subst fuel1.
  cbn [buildTree] in H.
  destruct (NewRespool acceptsConfig ID parent config) as [n|e|]; try exact H.
  cbv zeta in H |- *.
  destruct (buildChildren (buildTree fuel configs) _ _ _ _ _) as [res|] eqn:E;
    [|discriminate H].
  rewrite (buildChildren_mono _ (buildTree (S fuel) configs) _ _ _ _ _ _ IH E). exact H.
Qed.

Lemma buildTree_fuel_le configs fuel fuel' ID config parent h index r :
  fuel <= fuel' ->
  buildTree fuel configs ID config parent h index = Some r ->
  buildTree fuel' configs ID config parent h index = Some r.
Proof.
  induction 1 as [|fuel' Hle IH]; intros H; [exact H|].
  apply buildTree_more_fuel, IH, H.
Qed.

(** With a config that [NewRespool] takes for every pool, [buildTree]
    returns a node when it returns. *)
Lemma buildChildren_no_error build node cs : forall h index acc h' index' res,
  (forall cid cconf parent h1 index1 h2 index2 res',
     build cid cconf parent h1 index1 = Some (h2, index2, res') -> exists l, res' = Ok l) ->
  buildChildren build node cs h index acc = Some (h', index', res) ->
  exists ls, res = Ok ls.
Proof.
  induction cs as [|[cid cconf] cs IH]; intros h index acc h' index' res Hbuild H.
  - injection H as <- <- <-. eauto.
  - cbn [buildChildren] in H.
    destruct (build cid cconf (Some node) h index) as [[[h1 index1] res1]|] eqn:E;
      [|discriminate H].
    destruct (Hbuild _ _ _ _ _ _ _ _ E) as [l ->]. eapply IH; eassumption.
Qed.

Lemma buildTree_no_error configs :
  (forall ID config, acceptsConfig ID config = true) ->
  forall fuel ID config parent h index h' index' res,
    buildTree fuel configs ID config parent h index = Some (h', index', res) ->
    exists l, res = Ok l.
Proof.
  intros Hacc. induction fuel as [|fuel IH]; intros ID config parent h index h' index' res H;
    [discriminate H|].
  cbn [buildTree] in H. unfold NewRespool in H. rewrite Hacc in H. cbv zeta in H.
  destruct (buildChildren _ _ _ _ _ _) as [[[h1 index1] res1]|] eqn:E; [|discriminate H].
  destruct (buildChildren_no_error _ _ _ _ _ _ _ _ _ IH E) as [ls ->].
  injection H as <- <- <-. eauto.
Qed.

(** A child that does not come back keeps the loop from coming back. *)
Lemma buildChildren_stuck build node cs cid cconf : forall h index acc,
  (cid, cconf) ∈ cs ->
  (forall parent h' index', build cid cconf parent h' index' = None) ->
  (forall cid' cconf' parent h1 index1 h2 index2 res',
     build cid' cconf' parent h1 index1 = Some (h2, index2, res') -> exists l, res' = Ok l) ->
  buildChildren build node cs h index acc = None.
Proof.
  induction cs as [|[cid0 cconf0] cs IH]; intros h index acc Hin Hnone Hok.
  - inversion Hin.
  - cbn [buildChildren].
    destruct (build cid0 cconf0 (Some node) h index) as [[[h1 index1] res1]|] eqn:E;
      [|reflexivity].
    destruct (Hok _ _ _ _ _ _ _ _ E) as [l ->].
    apply elem_of_cons in Hin as [Heq|Hin].
    + injection Heq as <- <-. rewrite Hnone in E. discriminate E.
    + apply IH; assumption.
Qed.

Lemma buildTree_cycle configs c :
  (forall ID config, acceptsConfig ID config = true) ->
  configs !! RootResPoolID = Some rootConfig ->
  configs !! "" = Some c -> GetValue (Parent c) = RootResPoolID ->
  forall fuel parent h index,
    buildTree fuel configs RootResPoolID rootConfig parent h index = None /\
    buildTree fuel configs "" c parent h index = None.
Proof.
  intros Hacc Hroot Hempty Hparent.
  induction fuel as [|fuel IH]; intros parent h index; [split; reflexivity|].
  cbn [buildTree]. unfold NewRespool. rewrite !Hacc. cbv zeta. split.
  - rewrite (buildChildren_stuck _ _ _ "" c); [reflexivity | | |].
    + apply elem_of_map_to_list. unfold getChildResPoolConfigs.
      apply map_lookup_filter_Some. split; [exact Hempty | exact Hparent].
    + intros parent' h' index'. apply IH.
    + apply buildTree_no_error, Hacc.
  - rewrite (buildChildren_stuck _ _ _ RootResPoolID rootConfig); [reflexivity | | |].
    + apply elem_of_map_to_list. unfold getChildResPoolConfigs.
      apply map_lookup_filter_Some. split; [exact Hroot | reflexivity].
    + intros parent' h' index'. apply IH.
    + apply buildTree_no_error, Hacc.
Qed.

(** The index only grows while the tree is built: an id that is indexed
    stays indexed. *)
Lemma buildChildren_index build node cs : forall h index acc h' index' res,
  (forall cid cconf parent h1 index1 h2 index2 res',
     build cid cconf parent h1 index1 = Some (h2, index2, res') ->
     forall k, is_Some (index1 !! k) -> is_Some (index2 !! k)) ->
  buildChildren build node cs h index acc = Some (h', index', res) ->
  forall k, is_Some (index !! k) -> is_Some (index' !! k).
Proof.
  induction cs as [|[cid cconf] cs IH]; intros h index acc h' index' res Hbuild H k Hk.
  - injection H as <- <- <-. exact Hk.
  - cbn [buildChildren] in H.
    destruct (build cid cconf (Some node) h index) as [[[h1 index1] res1]|] eqn:E;
      [|discriminate H].
    pose proof (Hbuild _ _ _ _ _ _ _ _ E k Hk) as Hk1.
    destruct res1 as [child|e|].
    + eapply IH; eassumption.
    + injection H as <- <- <-. exact Hk1.
    + injection H as <- <- <-. exact Hk1.
Qed.

Lemma buildTree_index configs : forall fuel ID config parent h index h' index' res,
  buildTree fuel configs ID config parent h index = Some (h', index', res) ->
  (forall k, is_Some (index !! k) -> is_Some (index' !! k)) /\
  (acceptsConfig ID config = true -> is_Some (index' !! ID)).
Proof.
  induction fuel as [|fuel IH]; intros ID config parent h index h' index' res H;
    [discriminate H|].
  cbn [buildTree] in H. unfold NewRespool in H.
  destruct (acceptsConfig ID config) eqn:Hacc.
  - cbv zeta in H.
    destruct (buildChildren _ _ _ _ _ _) as [[[h1 index1] res1]|] eqn:E; [|discriminate H].
    assert (Hgrow : forall k, is_Some (<[ID := fresh (dom h)]> index !! k) ->
                              is_Some (index1 !! k)).
    { eapply buildChildren_index; [|exact E].
      intros cid cconf parent' h2 index2 h3 index3 res' Hb. apply (IH _ _ _ _ _ _ _ _ Hb). }
    assert (index' = index1) as ->
      by (destruct res1 as [children|e|]; injection H as <- <- <-; reflexivity).
    split.
    + intros k Hk. apply Hgrow. destruct (decide (k = ID)) as [->|Hne].
      * rewrite lookup_insert_eq. eauto.
      * rewrite lookup_insert_ne by congruence. exact Hk.
    + intros _. apply Hgrow. rewrite lookup_insert_eq. eauto.
  - injection H as <- <- <-. split; [auto | discriminate].
Qed.

End Build.

(** X20: [initTree] comes back for every store that holds no pool with
    the empty id, whatever else it holds - pools without a parent in the
    store, pools that are each other's parent: the recursion of
    [buildTree] is never deeper than the number of configs, and with any
    fuel above that number the result is the same. *)
Theorem initTree_terminates (accepts : string -> ResourcePoolConfig -> bool)
    (resPoolConfigs : gmap string ResourcePoolConfig) (h : heap) (index : gmap string loc) :
  resPoolConfigs !! "" = None ->
  exists r, forall fuel,
    size resPoolConfigs + 1 < fuel -> initTree accepts fuel resPoolConfigs h index = Some r.
Proof.
  intros Hempty.
  set (configs := <[RootResPoolID := rootConfig]> resPoolConfigs).
  assert (Hempty' : configs !! "" = None).
  { unfold configs. rewrite lookup_insert_ne by discriminate. exact Hempty. }
  assert (Hroot : configs !! RootResPoolID = Some rootConfig)
    by (unfold configs; apply lookup_insert_eq).
  assert (Hsize : size configs <= size resPoolConfigs + 1).
  { unfold configs. destruct (resPoolConfigs !! RootResPoolID) eqn:E.
    - rewrite map_size_insert_Some by (rewrite E; eauto). lia.
    - rewrite map_size_insert_None by exact E. lia. }
  set (fuel0 := S (size resPoolConfigs + 1)).
  pose proof (buildTree_enough_fuel accepts configs Hempty' fuel0 RootResPoolID rootConfig []
                None h index (chain_root _ Hroot) Hroot) as Hsome.
  destruct (buildTree accepts fuel0 configs RootResPoolID rootConfig None h index)
    as [r0|] eqn:E0; [|exfalso; apply Hsome; [cbn [length]; unfold fuel0; lia | reflexivity]].
  exists (match r0 with
          | (h', index', Err e) => (h', index', Err (ErrWrap "failed to initialize tree" e))
          | r => r
          end).
  intros fuel Hfuel. unfold initTree. fold configs.
  rewrite (buildTree_fuel_le accepts configs fuel0 fuel _ _ _ _ _ r0 ltac:(unfold fuel0; lia) E0).
  destruct r0 as [[h' index'] [l|e|]]; reflexivity.
Qed.

(** A store with two pools below the root, two pools that are each other's
    parent, and a pool whose parent is not in the store. *)
Definition detachedStore : gmap string ResourcePoolConfig :=
  {[ "a" := childConfig "a" "root";
     "b" := childConfig "b" "a";
     "x" := childConfig "x" "y";
     "y" := childConfig "y" "x";
     "orphan" := childConfig "orphan" "nowhere" ]}.

Lemma initTree_terminates_witness :
  exists r, forall fuel,
    size detachedStore + 1 < fuel -> initTree acceptAll fuel detachedStore ∅ ∅ = Some r.
Proof.
  apply (initTree_terminates acceptAll detachedStore ∅ ∅). reflexivity.
Defined.

(** The pools that do not hang below the root are left out without an
    error. *)
Example initTree_drops_detached_pools :
  exists h index root,
    initTree acceptAll 7 detachedStore ∅ ∅ = Some (h, index, Ok root) /\
    map (fun k => bool_decide (is_Some (index !! k))) ["root"; "a"; "b"; "x"; "y"; "orphan"]
    = [true; true; true; false; false; false].
Proof. eexists _, _, _. split; vm_compute; reflexivity. Qed.

(** X21: [initTree] never comes back when the store holds a pool with the
    empty id right below the root: the root has no parent, which reads as
    the empty parent id, so the root is built again as a child of that
    pool, and so on without end.  ([NewRespool] is taken to accept every
    config.) *)
Theorem initTree_loops_on_the_empty_id (accepts : string -> ResourcePoolConfig -> bool)
    (resPoolConfigs : gmap string ResourcePoolConfig) (c : ResourcePoolConfig)
    (fuel : nat) (h : heap) (index : gmap string loc) :
  (forall ID config, accepts ID config = true) ->
  resPoolConfigs !! "" = Some c ->
  GetValue (Parent c) = RootResPoolID ->
  initTree accepts fuel resPoolConfigs h index = None.
Proof.
  intros Hacc Hempty Hparent. unfold initTree.
  destruct (buildTree_cycle accepts (<[RootResPoolID := rootConfig]> resPoolConfigs) c Hacc)
    with (fuel := fuel) (parent := @None loc) (h := h) (index := index) as [-> _];
    [apply lookup_insert_eq | rewrite lookup_insert_ne by discriminate; exact Hempty
     | exact Hparent | reflexivity].
Qed.

Definition emptyIdStore : gmap string ResourcePoolConfig :=
  {[ "" := childConfig "nameless" "root" ]}.

Lemma initTree_loops_on_the_empty_id_witness :
  initTree acceptAll 1000 emptyIdStore ∅ ∅ = None.
Proof.
  apply (initTree_loops_on_the_empty_id acceptAll emptyIdStore (childConfig "nameless" "root"));
    reflexivity.
Defined.

(** [func (t *tree) Start() error].  [resPoolConfigs] is what
    [t.store.GetAllResourcePools] returns: an error, or a map that may be
    nil. *)
Inductive startError : Set :=
  | StoreError (e : Recovery.error)     (* the error of the store *)
  | ConfigsNil                          (* "resource pool configs cannot be nil" *)
  | TreeError (e : error)               (* the error of initTree *)
  | StartWrap (cause : startError)      (* errors.Wrap(cause, "failed to start tree") *).

Inductive started : Type :=
  | Started (t : tree) (err : option startError)
  | StartPanics.

Definition Start (accepts : string -> ResourcePoolConfig -> bool) (fuel : nat)
    (resPoolConfigs : Recovery.error + option (gmap string ResourcePoolConfig)) (t : tree)
  : option started :=
  match resPoolConfigs with
  | inl err => Some (Started t (Some (StoreError err)))
  | inr None =>
      Some (Started (mkTree None (resPools t) (updatedChan t) (nodes t))
                    (Some (StartWrap ConfigsNil)))
  | inr (Some configs) =>
      match initTree accepts fuel configs (nodes t) (resPools t) with
      | None => None
      | Some (h, index, Ok root) => Some (Started (mkTree (Some root) index (updatedChan t) h) None)
      | Some (h, index, Err e) =>
          Some (Started (mkTree None index (updatedChan t) h) (Some (StartWrap (TreeError e))))
      | Some (_, _, Panic) => Some StartPanics
      end
  end.

(** X22: a [Start] that fails half way leaves a tree that is there and not
    there.  When [Start] returns an error of [initTree], the tree has no
    root, so [GetByPath] reports for every path that the tree is not
    initialised; but the pools that were built before the failure stay in
    the index: if [NewRespool] takes the root config, [Get] still finds
    the root, and every id that was indexed before the call is still
    indexed. *)
Theorem Start_failure_keeps_the_index (accepts : string -> ResourcePoolConfig -> bool)
    (fuel : nat) (configs : gmap string ResourcePoolConfig) (t t' : tree) (e : error)
    (path : string) :
  Start accepts fuel (inr (Some configs)) t = Some (Started t' (Some (StartWrap (TreeError e)))) ->
  root t' = None /\
  GetByPath t' path = Err ErrNotInitialized /\
  (accepts RootResPoolID rootConfig = true -> exists l, Get t' RootResPoolID = Ok l) /\
  (forall k, is_Some (resPools t !! k) -> is_Some (resPools t' !! k)).
Proof.
  unfold Start, initTree. intros H.
  destruct (buildTree accepts fuel _ RootResPoolID rootConfig None (nodes t) (resPools t))
    as [[[h index] [l|e0|]]|] eqn:E; try discriminate H.
  injection H as <- _.
  destruct (buildTree_index accepts _ _ _ _ _ _ _ _ _ _ E) as [Hgrow Hroot].
  split; [reflexivity|]. split; [reflexivity|]. split.
  - intros Hacc. destruct (Hroot Hacc) as [l Hl]. exists l.
    unfold Get, lookupResPool. cbn [resPools]. rewrite Hl. reflexivity.
  - exact Hgrow.
Qed.

(** A [NewRespool] that takes every pool but [bad], and a store with [bad]
    below [a]. *)
Definition rejectBad : string -> ResourcePoolConfig -> bool :=
  fun ID _ => negb (String.eqb ID "bad").

Definition badStore : gmap string ResourcePoolConfig :=
  {[ "a" := childConfig "a" "root"; "bad" := childConfig "bad" "a" ]}.

Definition halfStarted : tree :=
  match Start rejectBad 5 (inr (Some badStore)) (mkTree None ∅ false ∅) with
  | Some (Started t _) => t
  | _ => rootOnly
  end.

Lemma Start_failure_keeps_the_index_witness :
  root halfStarted = None /\
  GetByPath halfStarted "/a" = Err ErrNotInitialized /\
  (rejectBad RootResPoolID rootConfig = true -> exists l, Get halfStarted RootResPoolID = Ok l) /\
  (forall k, is_Some ((∅ : gmap string loc) !! k) -> is_Some (resPools halfStarted !! k)).
Proof.
  apply (Start_failure_keeps_the_index rejectBad 5 badStore (mkTree None ∅ false ∅) halfStarted
           (ErrWrap "failed to initialize tree"
              (ErrWrap "failed to create resource pool: a"
                 (ErrWrap "failed to create resource pool: bad" (ErrNewRespool "bad"))))
           "/a").
  vm_compute. reflexivity.
Defined.

(** On a store without pools [Start] builds the root alone. *)
Example Start_empty_store :
  Start acceptAll 1 (inr (Some ∅)) (mkTree None ∅ false ∅) = Some (Started rootOnly None).
Proof. vm_compute. reflexivity. Qed.

Example halfStarted_index :
  Get halfStarted "root" = Ok 0%nat /\ Get halfStarted "a" = Ok 1%nat /\
  Get halfStarted "bad" = Err (ErrPoolNotFound "bad") /\
  GetByPath halfStarted "/" = Err ErrNotInitialized.
Proof. repeat split; vm_compute; reflexivity. Qed.

End Respool.

(* ===================================================================== *)
(** * placement/tasks: the task service of the placement engine           *)
(* ===================================================================== *)

Module Placement.

#[local] Open Scope Z_scope.

(** ** Data *)

(** [resmgrsvc.DequeueGangsRequest]; [Limit] and [Timeout] are [uint32]. *)
Record DequeueGangsRequest : Set := mkDequeueGangsRequest {
  Limit : Z;
  Type_ : Scalar.TaskType;
  Timeout : Z
}.

(** [resmgrsvc.DequeueGangsResponse], restricted to its gangs. *)
Record DequeueGangsResponse : Set := mkDequeueGangsResponse {
  Gangs : list Scalar.Gang
}.

(** [resmgrsvc.EnqueueGangsRequest] *)
Record EnqueueGangsRequest : Set := mkEnqueueGangsRequest {
  EnqueueGangs_Gangs : list Scalar.Gang;
  Reason : string
}.

(** Modelled from the spec: package [placement/models] is not among the
    sources.  [models.NewTask(gang, task, deadline, maxRounds)] and
    [models.NewAssignment(task)] keep their arguments, and the two
    [GetTask] getters give them back; an assignment comes without a host.
    Times and durations are counted in nanoseconds. *)
Record modelsTask : Set := NewTask {
  GetGang : Scalar.Gang;
  GetTask : Scalar.Task;
  GetDeadline : Z;
  GetMaxRounds : Z
}.

Record Assignment : Set := NewAssignment {
  Assignment_GetTask : modelsTask
}.

(** [type service struct { config; resourceManager; metrics }]: the two
    lookups of the placement config that the service uses, and what the
    resource manager answers to a DequeueGangs request ([inl] is the error
    of the call). *)
Record service : Type := mkService {
  MaxRounds : Scalar.TaskType -> Z;
  MaxDurations : Scalar.TaskType -> Z;
  DequeueGangs : DequeueGangsRequest -> Recovery.error + DequeueGangsResponse
}.

(** ** Operations *)

(** [func (s *service) createTasks(gang *resmgrsvc.Gang, now time.Time) []*models.Task] *)
Definition createTasks (s : service) (gang : Scalar.Gang) (now : Z) : list modelsTask :=
  match gang with
  | [] => []
  | first :: _ =>
      (* A value for maxRounds of <= 0 means there is no limit *)
      let maxRounds := MaxRounds s (Scalar.Type_ first) in
      let duration := MaxDurations s (Scalar.Type_ first) in
      let deadline := now + duration in
      map (fun task => NewTask gang task deadline maxRounds) gang
  end.

(** [func (s *service) Dequeue(ctx, taskType, batchSize, timeout) []*models.Assignment];
    the nil slice and the empty slice are both the empty list. *)
Definition Dequeue (s : service) (taskType : Scalar.TaskType) (batchSize timeout : Z)
    (now : Z) : list Assignment :=
  let request :=
    mkDequeueGangsRequest (Recovery.u32 batchSize) taskType (Recovery.u32 timeout) in
  match DequeueGangs s request with
  | inl _ => []
  | inr response =>
      flat_map (fun gang => map NewAssignment (createTasks s gang now)) (Gangs response)
  end.

(** [func (s *service) Enqueue(ctx, assignments, reason)]: the request
    that goes to the resource manager, if one does.  The answer is logged
    and nothing else is done with it. *)
Definition Enqueue (s : service) (assignments : list Assignment) (reason : string)
  : option EnqueueGangsRequest :=
  match assignments with
  | [] => None
  | _ =>
      let gangs := map (fun assignment => [GetTask (Assignment_GetTask assignment)])
                       assignments in
      Some (mkEnqueueGangsRequest gangs reason)
  end.

(** ** Properties *)

Lemma createTasks_tasks s gang now : map GetTask (createTasks s gang now) = gang.
Proof.
  unfold createTasks. destruct gang as [|first rest]; [reflexivity|].
  rewrite map_map. cbn [GetTask]. apply map_id.
Qed.

Lemma Dequeue_tasks s gangs now :
  map (fun assignment => GetTask (Assignment_GetTask assignment))
      (flat_map (fun gang => map NewAssignment (createTasks s gang now)) gangs)
  = concat gangs.
Proof.
  induction gangs as [|gang gangs IH]; [reflexivity|].
  cbn [flat_map concat]. rewrite map_app, IH. f_equal.
  rewrite map_map. cbn [Assignment_GetTask]. apply createTasks_tasks.
Qed.

(** What an assignment made from [gang] carries: the gang, one of its
    tasks, and the deadline and rounds that the config gives for the type
    of the first task of the gang. *)
Definition assignedFrom (s : service) (now : Z) (gang : Scalar.Gang) (a : Assignment) : Prop :=
  exists first rest,
    gang = first :: rest /\
    GetGang (Assignment_GetTask a) = gang /\
    GetTask (Assignment_GetTask a) ∈ gang /\
    GetDeadline (Assignment_GetTask a) = now + MaxDurations s (Scalar.Type_ first) /\
    GetMaxRounds (Assignment_GetTask a) = MaxRounds s (Scalar.Type_ first).

Lemma createTasks_assignedFrom s gang now :
  Forall (assignedFrom s now gang) (map NewAssignment (createTasks s gang now)).
Proof.
  unfold createTasks. destruct gang as [|first rest]; [constructor|].
  rewrite map_map. apply Forall_forall. intros a Ha.
  apply list_elem_of_fmap in Ha as (task & -> & Htask).
  exists first, rest. cbn. auto.
Qed.

Lemma Dequeue_assignedFrom s gangs now :
  Forall (fun a => exists gang, gang ∈ gangs /\ assignedFrom s now gang a)
         (flat_map (fun gang => map NewAssignment (createTasks s gang now)) gangs).
Proof.
  induction gangs as [|gang gangs IH]; [constructor|].
  cbn [flat_map]. apply Forall_app. split.
  - eapply Forall_impl; [apply createTasks_assignedFrom|].
    intros a Ha. exists gang. split; [left | exact Ha].
  - eapply Forall_impl; [exact IH|].
    intros a (g & Hg & Ha). exists g. split; [right; exact Hg | exact Ha].
Qed.

(** X13: what [Dequeue] returns.  When the DequeueGangs call fails there
    are no assignments.  Otherwise there is one assignment for every task
    of every gang of the response, in order, each with the gang it came
    from; all the tasks of a gang get the deadline and the rounds of the
    type of the first task of the gang, whatever their own type is. *)
Theorem Dequeue_assignments (s : service) (taskType : Scalar.TaskType)
    (batchSize timeout now : Z) :
  match DequeueGangs s (mkDequeueGangsRequest (Recovery.u32 batchSize) taskType
                                              (Recovery.u32 timeout)) with
  | inl _ => Dequeue s taskType batchSize timeout now = []
  | inr response =>
      map (fun assignment => GetTask (Assignment_GetTask assignment))
          (Dequeue s taskType batchSize timeout now)
      = concat (Gangs response) /\
      Forall (fun a => exists gang, gang ∈ Gangs response /\ assignedFrom s now gang a)
             (Dequeue s taskType batchSize timeout now)
  end.
Proof.
  unfold Dequeue.
  destruct (DequeueGangs s _) as [err|response]; [reflexivity|].
  split; [apply Dequeue_tasks | apply Dequeue_assignedFrom].
Qed.

(** X14: [Enqueue] does not give the gangs back.  Returning the
    assignments of a [Dequeue] sends every task of the dequeued gangs, in
    order, but each as a gang of its own: the request holds as many gangs
    as there were tasks, and nothing is sent when there was no task. *)
Theorem Enqueue_after_Dequeue (s : service) (taskType : Scalar.TaskType)
    (batchSize timeout now : Z) (reason : string) (response : DequeueGangsResponse) :
  DequeueGangs s (mkDequeueGangsRequest (Recovery.u32 batchSize) taskType
                                        (Recovery.u32 timeout)) = inr response ->
  Enqueue s (Dequeue s taskType batchSize timeout now) reason
  = match concat (Gangs response) with
    | [] => None
    | tasks => Some (mkEnqueueGangsRequest (map (fun task => [task]) tasks) reason)
    end.
Proof.
  intros H. unfold Dequeue. rewrite H.
  rewrite <- (Dequeue_tasks s (Gangs response) now). unfold Enqueue.
  destruct (flat_map _ (Gangs response)) as [|a rest]; [reflexivity|].
  cbn [map]. rewrite map_map. reflexivity.
Qed.

(** A resource manager that hands out one gang of two tasks. *)
Definition twoTasks : Scalar.Gang :=
  [ Scalar.cpuTask 1 true Scalar.TaskType_BATCH;
    Scalar.cpuTask 2 true Scalar.TaskType_STATELESS ].

Definition oneGang : service :=
  mkService (fun _ => 5) (fun _ => 1000)
            (fun _ => inr (mkDequeueGangsResponse [twoTasks])).

Lemma Enqueue_after_Dequeue_witness :
  Enqueue oneGang (Dequeue oneGang Scalar.TaskType_BATCH 10 100 0) "no offers"
  = match concat [twoTasks] with
    | [] => None
    | tasks => Some (mkEnqueueGangsRequest (map (fun task => [task]) tasks) "no offers")
    end.
Proof.
  apply (Enqueue_after_Dequeue oneGang Scalar.TaskType_BATCH 10 100 0 "no offers"
           (mkDequeueGangsResponse [twoTasks])).
  reflexivity.
Defined.

Example gang_comes_back_in_pieces :
  Enqueue oneGang (Dequeue oneGang Scalar.TaskType_BATCH 10 100 0) "no offers"
  = Some (mkEnqueueGangsRequest
            [ [Scalar.cpuTask 1 true Scalar.TaskType_BATCH];
              [Scalar.cpuTask 2 true Scalar.TaskType_STATELESS] ]
            "no offers").
Proof. reflexivity. Qed.

End Placement.

(* ===================================================================== *)
(** * jobmgr/goalstate: the actions of a preempted task                   *)
(* ===================================================================== *)

Module Goalstate.

#[local] Open Scope Z_scope.

(** [task.PreemptionPolicy] *)
Record PreemptionPolicy : Set := mkPreemptionPolicy { KillOnPreempt : bool }.

(** [task.TaskConfig], restricted to its preemption policy, a pointer. *)
Record TaskConfig : Set := mkTaskConfig {
  PreemptionPolicy_ : option PreemptionPolicy
}.

(** The getters of the generated code return the zero value on nil. *)
Definition GetPreemptionPolicy (config : option TaskConfig) : option PreemptionPolicy :=
  match config with
  | Some c => PreemptionPolicy_ c
  | None => None
  end.

Definition GetKillOnPreempt (pp : option PreemptionPolicy) : bool :=
  match pp with
  | Some p => KillOnPreempt p
  | None => false
  end.

(** [pp != nil] *)
Definition notNil {A} (pp : option A) : bool :=
  match pp with
  | Some _ => true
  | None => false
  end.

Section Actions.

(** The task entity and what the code reads of it: the job, the instance
    and the config version of its state vector.  The type is declared in a
    file of the package that is not among the sources. *)
Variable taskEntity : Type.
Variable jobID : taskEntity -> string.
Variable instanceID : taskEntity -> Z.
Variable ConfigVersion : taskEntity -> Z.

(** [goalStateDriver.taskStore.GetTaskConfig(ctx, jobID, instanceID, configVersion)] *)
Variable GetTaskConfig : string -> Z -> Z -> Recovery.error + option TaskConfig.

(** The state that actions work on, and the action [TaskInitialize], which
    is declared in a file of the package that is not among the sources. *)
Variable world : Type.
Variable TaskInitialize : taskEntity -> world -> world * option Recovery.error.

(** [goalstate.ActionExecute] *)
Definition ActionExecute : Type := taskEntity -> world -> world * option Recovery.error.

(** [func getTaskPreemptionPolicy(ctx, jobID, instanceID, configVersion, goalStateDriver)] *)
Definition getTaskPreemptionPolicy (jobID : string) (instanceID configVersion : Z)
  : Recovery.error + option PreemptionPolicy :=
  match GetTaskConfig jobID instanceID configVersion with
  | inl err => inl err
  | inr config => inr (GetPreemptionPolicy config)
  end.

(** [func getPostPreemptAction(ctx, entity) (goalstate.ActionExecute, error)] *)
Definition getPostPreemptAction (entity : taskEntity) : Recovery.error + option ActionExecute :=
  match getTaskPreemptionPolicy (jobID entity) (instanceID entity) (ConfigVersion entity) with
  | inl err => inl err
  | inr pp =>
      if notNil pp && GetKillOnPreempt pp
      then inr None   (* We are done, we don't want to reschedule it *)
      else inr (Some TaskInitialize)
  end.

(** [func TaskPreempt(ctx, entity) error] *)
Definition TaskPreempt (entity : taskEntity) (w : world) : world * option Recovery.error :=
  match getPostPreemptAction entity with
  | inl err => (w, Some err)
  | inr action =>
      match action with
      | Some run => let '(w', _) := run entity w in (w', None)
      | None => (w, None)
      end
  end.

(** The task is to be killed when preempted: its config is there, has a
    policy, and the policy says so. *)
Definition killOnPreempt (entity : taskEntity) : Prop :=
  exists config pp,
    GetTaskConfig (jobID entity) (instanceID entity) (ConfigVersion entity)
    = inr (Some config) /\
    PreemptionPolicy_ config = Some pp /\ KillOnPreempt pp = true.

Lemma killOnPreempt_dec entity : killOnPreempt entity \/ ~ killOnPreempt entity.
Proof.
  unfold killOnPreempt.
  destruct (GetTaskConfig (jobID entity) (instanceID entity) (ConfigVersion entity))
    as [err|[[[[[|]]|]]|]].
  - right. intros (config & pp & H & _). discriminate H.
  - left. eexists _, _. repeat split; reflexivity.
  - right. intros (config & pp & [= <-] & [= <-] & H). discriminate H.
  - right. intros (config & pp & [= <-] & H & _). discriminate H.
  - right. intros (config & pp & H & _). discriminate H.
Qed.

Lemma TaskPreempt_cases entity w :
  (forall err,
     GetTaskConfig (jobID entity) (instanceID entity) (ConfigVersion entity) = inl err ->
     TaskPreempt entity w = (w, Some err)) /\
  (killOnPreempt entity -> TaskPreempt entity w = (w, None)) /\
  (forall config,
     GetTaskConfig (jobID entity) (instanceID entity) (ConfigVersion entity) = inr config ->
     ~ killOnPreempt entity ->
     TaskPreempt entity w = (fst (TaskInitialize entity w), None)).
Proof.
  unfold TaskPreempt, getPostPreemptAction, getTaskPreemptionPolicy, killOnPreempt.
  split; [|split].
  - intros err ->. reflexivity.
  - intros (config & pp & -> & Hpp & Hkill). cbn. rewrite Hpp. cbn. rewrite Hkill. reflexivity.
  - intros config -> Hno.
    destruct config as [[[[kill]|]]|]; cbn.
    + destruct kill; cbn.
      * exfalso. apply Hno. eexists _, _. repeat split; reflexivity.
      * destruct (TaskInitialize entity w); reflexivity.
    + destruct (TaskInitialize entity w); reflexivity.
    + destruct (TaskInitialize entity w); reflexivity.
Qed.

End Actions.

(** X15: what [TaskPreempt] returns and does.  It returns an error exactly
    when the config of the task cannot be read, and then does nothing.
    When the config says kill-on-preempt nothing is done either and nil is
    returned.  In every other case - a config without a policy or no
    config at all included - [TaskInitialize] runs, and [TaskPreempt]
    returns nil whatever [TaskInitialize] returns. *)
Theorem TaskPreempt_swallows_the_action_error
    (taskEntity : Type) (jobID : taskEntity -> string)
    (instanceID ConfigVersion : taskEntity -> Z)
    (GetTaskConfig : string -> Z -> Z -> Recovery.error + option TaskConfig)
    (world : Type)
    (TaskInitialize : taskEntity -> world -> world * option Recovery.error)
    (entity : taskEntity) (w : world) :
  let run := TaskPreempt taskEntity jobID instanceID ConfigVersion GetTaskConfig world
                         TaskInitialize in
  let read := GetTaskConfig (jobID entity) (instanceID entity) (ConfigVersion entity) in
  (forall err, snd (run entity w) = Some err <-> read = inl err) /\
  (forall err, read = inl err -> fst (run entity w) = w) /\
  (killOnPreempt taskEntity jobID instanceID ConfigVersion GetTaskConfig entity ->
     run entity w = (w, None)) /\
  (forall config, read = inr config ->
     ~ killOnPreempt taskEntity jobID instanceID ConfigVersion GetTaskConfig entity ->
     run entity w = (fst (TaskInitialize entity w), None)).
Proof.
  intros run read.
  destruct (TaskPreempt_cases taskEntity jobID instanceID ConfigVersion GetTaskConfig world
              TaskInitialize entity w) as (Herr & Hkill & Hinit).
  fold run read in Herr, Hkill, Hinit.
  split; [|split; [|split]].
  - intros err. split.
    + intros Hsnd. destruct read as [err'|config] eqn:Hread.
      * rewrite (Herr err' eq_refl) in Hsnd. cbn in Hsnd. congruence.
      * exfalso.
        destruct (killOnPreempt_dec taskEntity jobID instanceID ConfigVersion GetTaskConfig
                    entity) as [Hk|Hk].
        -- rewrite (Hkill Hk) in Hsnd. discriminate Hsnd.
        -- rewrite (Hinit config eq_refl Hk) in Hsnd. discriminate Hsnd.
    + intros Hread. rewrite (Herr err Hread). reflexivity.
  - intros err Hread. rewrite (Herr err Hread). reflexivity.
  - exact Hkill.
  - exact Hinit.
Qed.

(** A task without a policy whose re-initialisation fails: the failure
    is recorded by the action and lost to the caller. *)
Example TaskInitialize_error_is_lost :
  TaskPreempt unit (fun _ => "job-1"%string) (fun _ => 0) (fun _ => 3)
              (fun _ _ _ => inr (Some (mkTaskConfig None)))
              (list string)
              (fun _ w => ("initialize failed"%string :: w, Some Recovery.ErrUnavailable))
              tt []
  = (["initialize failed"%string], None).
Proof. reflexivity. Qed.

End Goalstate.

(* ===================================================================== *)
(** * storage/cassandra: the connector of the object store               *)
(* ===================================================================== *)

Module Cassandra.

#[local] Open Scope Z_scope.

(** The two counters of [impl.Metrics] that the connector increments. *)
Record Metrics : Set := mkMetrics {
  ExecuteSuccess : Z;
  ExecuteFail : Z
}.

Definition incSuccess (m : Metrics) : Metrics :=
  mkMetrics (ExecuteSuccess m + 1) (ExecuteFail m).
Definition incFail (m : Metrics) : Metrics :=
  mkMetrics (ExecuteSuccess m) (ExecuteFail m + 1).

Section Connector.

(** The values of columns, the statements of the query builder and the
    errors of the driver and of the query builder are those of packages
    that are not among the sources. *)
Variable value : Type.
Variable stmt : Type.
Variable driverError : Type.

(** [base.Column] *)
Record Column : Type := mkColumn {
  Name : string;
  Value : value
}.

(** The errors the connector returns: those it is handed, and
    [yarpcerrors.AlreadyExistsErrorf("item already exists")]. *)
Inductive error : Type :=
  | AlreadyExists
  | Driver (e : driverError).

(** [InsertStmt(Table(e.Name), Columns(colNames), Values(colValues),
    IfNotExist(casWrite))] and [SelectStmt(Table(e.Name),
    Columns(colNamesToRead), Conditions(keyColNames))], of a file of the
    package that is not among the sources. *)
Variable InsertStmt : string -> list string -> list value -> bool -> driverError + stmt.
Variable SelectStmt : string -> list string -> list string -> driverError + stmt.

(** What the session answers to a query: [q.MapScanCAS], [q.Exec], and for
    [q.Iter()] the rows that [iter.Scan] delivers, already translated by
    [getRowFromResult], with what [iter.Close()] returns. *)
Variable MapScanCAS : stmt -> list value -> driverError + bool.
Variable Exec : stmt -> list value -> option driverError.
Variable Iter : stmt -> list value -> list (list Column) * option driverError.

(** [base.Definition], restricted to the table name and [GetColumnsToRead()]. *)
Record Definition_ : Set := mkDefinition {
  TableName : string;
  GetColumnsToRead : list string
}.

(** [func splitColumnNameValue(row []base.Column) (colNames, colValues)] *)
Definition splitColumnNameValue (row : list Column) : list string * list value :=
  fold_left (fun '(colNames, colValues) column =>
               (colNames ++ [Name column], colValues ++ [Value column]))
            row ([], []).

(** [func (c *cassandraConnector) create(ctx, e, row, casWrite) error]:
    the counters after the call and what it returns. *)
Definition create (m : Metrics) (e : Definition_) (row : list Column) (casWrite : bool)
  : Metrics * option error :=
  let '(colNames, colValues) := splitColumnNameValue row in
  match InsertStmt (TableName e) colNames colValues casWrite with
  | inl err => (m, Some (Driver err))
  | inr stmt =>
      if casWrite then
        match MapScanCAS stmt colValues with
        | inl err => (incFail m, Some (Driver err))
        | inr applied =>
            if negb applied then (m, Some AlreadyExists)
            else (incSuccess m, None)
        end
      else
        match Exec stmt colValues with
        | Some err => (incFail m, Some (Driver err))
        | None => (incSuccess m, None)
        end
  end.

Definition useCasWrite : bool := true.

(** [func (c *cassandraConnector) CreateIfNotExists(ctx, e, row) error] *)
Definition CreateIfNotExists (m : Metrics) (e : Definition_) (row : list Column) :=
  create m e row useCasWrite.

(** [func (c *cassandraConnector) Create(ctx, e, row) error] *)
Definition Create (m : Metrics) (e : Definition_) (row : list Column) :=
  create m e row (negb useCasWrite).

(** [func (c *cassandraConnector) GetAll(ctx, e, keyCols) (rows, errors)].
    The deferred function assigns [iter.Close()] to the named result
    [errors] after [return rows, nil]. *)
Definition GetAll (m : Metrics) (e : Definition_) (keyCols : list Column)
  : Metrics * list (list Column) * option error :=
  let colNamesToRead := GetColumnsToRead e in
  let '(keyColNames, keyColValues) := splitColumnNameValue keyCols in
  match SelectStmt (TableName e) colNamesToRead keyColNames with
  | inl err => (m, [], Some (Driver err))
  | inr stmt =>
      let '(rows, closed) := Iter stmt keyColValues in
      (incSuccess m, rows, Driver <$> closed)
  end.

(** ** Properties *)

Lemma splitColumnNameValue_fold row : forall colNames colValues,
  fold_left (fun '(colNames, colValues) column =>
               (colNames ++ [Name column], colValues ++ [Value column]))
            row (colNames, colValues)
  = (colNames ++ map Name row, colValues ++ map Value row).
Proof.
  induction row as [|column row IH]; intros colNames colValues; cbn [fold_left map].
  - rewrite !app_nil_r. reflexivity.
  - rewrite IH, <- !app_assoc. reflexivity.
Qed.

Lemma splitColumnNameValue_maps row :
  splitColumnNameValue row = (map Name row, map Value row).
Proof. unfold splitColumnNameValue. apply splitColumnNameValue_fold. Qed.

End Connector.

Arguments AlreadyExists {driverError}.
Arguments Driver {driverError} e.

(** X16: the two lists of [splitColumnNameValue] belong together: they
    are as long as the row, and paired position by position they are the
    names and values of the columns of the row, in the order of the row. *)
Theorem splitColumnNameValue_order (value : Type) (row : list (Column value)) :
  length (fst (splitColumnNameValue value row)) = length row /\
  length (snd (splitColumnNameValue value row)) = length row /\
  combine (fst (splitColumnNameValue value row)) (snd (splitColumnNameValue value row))
  = map (fun column => (Name value column, Value value column)) row.
Proof.
  rewrite splitColumnNameValue_maps. cbn [fst snd].
  rewrite !length_map. split; [reflexivity|]. split; [reflexivity|].
  induction row as [|column row IH]; [reflexivity|].
  cbn [map combine]. rewrite IH. reflexivity.
Qed.


(** X18: [GetAll] never counts a failure.  Whatever the statement builder
    and the session answer, the failure counter is as it was; the success
    counter goes up by one exactly when the select statement could be
    built, and then the rows are those the iterator delivered and the
    error is what [iter.Close()] reports: a read that failed is returned
    as an error, with the rows read so far, and counted as a success. *)
Theorem GetAll_never_counts_a_failure (value stmt driverError : Type)
    (SelectStmt : string -> list string -> list string -> driverError + stmt)
    (Iter : stmt -> list value -> list (list (Column value)) * option driverError)
    (m : Metrics) (e : Definition_) (keyCols : list (Column value)) :
  let r := GetAll value stmt driverError SelectStmt Iter m e keyCols in
  let built := SelectStmt (TableName e) (GetColumnsToRead e) (map (Name value) keyCols) in
  ExecuteFail (fst (fst r)) = ExecuteFail m /\
  (ExecuteSuccess (fst (fst r)) = ExecuteSuccess m + 1 <-> exists s, built = inr s) /\
  (forall s, built = inr s ->
     snd (fst r) = fst (Iter s (map (Value value) keyCols)) /\
     snd r = Driver <$> snd (Iter s (map (Value value) keyCols))) /\
  (forall err, built = inl err -> r = (m, [], Some (Driver err))).
Proof.
  intros r built. subst r built. unfold GetAll. rewrite splitColumnNameValue_maps.
  destruct (SelectStmt _ _ _) as [err|s].
  - cbn [fst snd]. split; [reflexivity|]. split; [split|split].
    + lia.
    + intros [s H]. discriminate H.
    + intros s H. discriminate H.
    + intros err' [= <-]. reflexivity.
  - destruct (Iter s _) as [rows closed] eqn:HI. cbn [fst snd incSuccess ExecuteFail ExecuteSuccess].
    split; [reflexivity|]. split; [split|split].
    + intros _. exists s. reflexivity.
    + intros _. reflexivity.
    + intros s' [= <-]. rewrite HI. split; reflexivity.
    + intros err H. discriminate H.
Qed.

(** A read that breaks off after one row: the row is returned with the
    error, and the call is counted as a success. *)
Example GetAll_broken_read :
  GetAll Z unit string
         (fun _ _ _ => inr tt)
         (fun _ _ => ([[mkColumn Z "job_id" 7]], Some "connection reset"%string))
         (mkMetrics 0 0) (mkDefinition "job_index" ["job_id"%string]) []
  = (mkMetrics 1 0, [[mkColumn Z "job_id" 7]], Some (Driver "connection reset"%string)).
Proof. reflexivity. Qed.

End Cassandra.
